(** * RLLib [Vector.h]: dense and sparse vectors, their persistence and copies

    A shallow embedding of [src/Vector.h] (namespace RLLib); [src/Action.h]
    follows further down.

    - C++ [int] is modelled as [Z].  Signed overflow is undefined behaviour in
      C++, so there is no wrap-around to write out; the model covers the
      executions in which no [int] computation overflows.
    - The template parameter [T] is a type with the operations the code uses
      on it ([T(0)], [== 0], [+], [*]), see [Scalar].  A [double] that the
      code combines with a [T] (the [factor] of [addToSelf], the accumulator of
      [dot]) has the type [T] as well, as in the instantiation at [double].
      The definitions assume nothing about these operations.  A statement
      that needs laws of exact arithmetic says so ([ScalarLaws],
      [NumericLaws]); the instance at [double] is IEEE 754 binary64
      arithmetic, with its rounding, and has no such laws.
    - A raw array ([new int[n]]) is a [list] whose length is the allocated
      length; an access outside it is undefined behaviour, [Undefined].
    - [assert], [exit] and the other ways in which a call does not return
      normally are constructors of [result]. *)

From Stdlib Require Import ZArith Lia.
From Stdlib Require Import PrimFloat.
From stdpp Require Import base option list list_numbers strings gmap.

Local Open Scope Z_scope.

(** ** Outcomes of a call *)

Inductive result (A : Type) : Type :=
| Ok (a : A)          (* normal return *)
| AssertFail          (* an [assert(...)] failed: the process aborts *)
| Exit (code : Z)     (* [exit(code)] *)
| BadLength           (* [new T[n]] with a negative [n] *)
| Undefined           (* access outside an array, use of an indeterminate value *)
| OutOfFuel.            (* the fuel of a [while] loop ran out (model only) *)

Arguments Ok {A} a.
Arguments AssertFail {A}.
Arguments Exit {A} code.
Arguments BadLength {A}.
Arguments Undefined {A}.
Arguments OutOfFuel {A}.

Definition rbind {A B} (m : result A) (k : A -> result B) : result B :=
  match m with
  | Ok a => k a
  | AssertFail => AssertFail
  | Exit c => Exit c
  | BadLength => BadLength
  | Undefined => Undefined
  | OutOfFuel => OutOfFuel
  end.

Notation "'do' x <- m ; k" := (rbind m (fun x => k))
  (at level 10, x name, m at level 100, k at level 200).

(** [assert(b)] *)
Definition assert (b : bool) : result unit :=
  if b then Ok tt else AssertFail.

(** ** Raw arrays indexed by [int] *)

(** the cell [a[i]], when [i] is inside the array *)
Definition zlookup {A} (a : list A) (i : Z) : option A :=
  if bool_decide (0 <= i) then a !! Z.to_nat i else None.

(** [a[i]] read *)
Definition rd {A} (a : list A) (i : Z) : result A :=
  match zlookup a i with
  | Some x => Ok x
  | None => Undefined
  end.

(** [a[i] = x] *)
Definition wr {A} (a : list A) (i : Z) (x : A) : result (list A) :=
  if bool_decide (0 <= i < Z.of_nat (length a))
  then Ok (<[Z.to_nat i := x]> a)
  else Undefined.

(** [new A[n]]; the cells are indeterminate in C++ and are given the value
    [junk] here. *)
Definition new_array {A} (junk : A) (n : Z) : result (list A) :=
  if bool_decide (0 <= n) then Ok (replicate (Z.to_nat n) junk) else BadLength.

(** [std::copy(src, src + n, dst)]: the first [n] cells of [dst] become those
    of [src]. *)
Definition copy_into {A} (src : list A) (n : Z) (dst : list A) : result (list A) :=
  if bool_decide (n = 0) then Ok dst
  else if bool_decide (0 < n <= Z.of_nat (length src) /\ n <= Z.of_nat (length dst))
  then Ok (take (Z.to_nat n) src ++ drop (Z.to_nat n) dst)
  else Undefined.

(** [std::fill(a + from, a + to, x)] *)
Definition fill {A} (a : list A) (from to : Z) (x : A) : result (list A) :=
  if bool_decide (to = from) then Ok a
  else if bool_decide (0 <= from < to /\ to <= Z.of_nat (length a))
  then Ok (take (Z.to_nat from) a ++ replicate (Z.to_nat (to - from)) x
             ++ drop (Z.to_nat to) a)
  else Undefined.

(** [for (int i = lo; i < lo + count; i++) body], for a bound that the body
    does not change. *)
Fixpoint for_loop {S} (count : nat) (i : Z) (body : Z -> S -> result S) (s : S)
  : result S :=
  match count with
  | O => Ok s
  | S c => do s' <- body i s ; for_loop c (i + 1) body s'
  end.

(** [for (int i = 0; i < n; i++) body] *)
Definition for_upto {S} (n : Z) (body : Z -> S -> result S) (s : S) : result S :=
  for_loop (Z.to_nat n) 0 body s.

(** ** The template parameter [T] *)

Class Scalar (T : Type) := {
  szero : T;                 (* T(0) *)
  sadd : T -> T -> T;        (* + *)
  smul : T -> T -> T;        (* * *)
  is_zero : T -> bool        (* == 0 *)
}.

(** The laws of exact arithmetic that the proofs use. *)
Class ScalarLaws (T : Type) `{Scalar T} : Prop := {
  is_zero_spec : forall x : T, is_zero x = true <-> x = szero;
  sadd_comm : forall x y : T, sadd x y = sadd y x;
  sadd_assoc : forall x y z : T, sadd x (sadd y z) = sadd (sadd x y) z;
  sadd_zero_l : forall x : T, sadd szero x = x;
  smul_comm : forall x y : T, smul x y = smul y x;
  smul_zero_l : forall x : T, smul szero x = szero
}.

#[export] Instance Z_Scalar : Scalar Z := {
  szero := 0;
  sadd := Z.add;
  smul := Z.mul;
  is_zero := fun x => Z.eqb x 0
}.

(** The further operations on [T] and on [double] that the code uses: the
    literals [1.0] and [-1.0], [/], [fabs] and [<] (which [>] and [std::max]
    come down to).  A division has no result ([None]) where it is undefined
    behaviour: an integral [T] divided by zero.  At [double] every division
    has one (a division by zero gives an infinity or a NaN). *)
Class Numeric (T : Type) := {
  sone : T;                     (* 1.0 *)
  smone : T;                    (* -1.0 *)
  sdiv : T -> T -> option T;    (* / *)
  sabs : T -> T;                (* fabs *)
  sltb : T -> T -> bool         (* < *)
}.

(** [std::max(a, b)] *)
Definition smax {T} `{Numeric T} (a b : T) : T := if sltb a b then b else a.

(** The laws of these operations that the proofs use. *)
Class NumericLaws (T : Type) `{Scalar T} `{Numeric T} : Prop := {
  smul_one_l : forall x : T, smul sone x = x;
  smone_cancel : forall x y : T, sadd (sadd x (smul smone y)) (smul sone y) = x;
  sltb_irrefl : forall x : T, sltb x x = false;
  sltb_asym : forall x y : T, sltb x y = true -> sltb y x = false;
  sltb_trans : forall x y z : T, sltb x y = true -> sltb y z = true -> sltb x z = true;
  sltb_negtrans : forall x y z : T,
    sltb x y = false -> sltb y z = false -> sltb x z = false;
  sabs_nonneg : forall x : T, sltb (sabs x) szero = false;
  sabs_zero : forall x : T, is_zero (sabs x) = is_zero x
}.

(** an integral [T]: [/] truncates, and is undefined for the divisor 0 *)
#[export] Instance Z_Numeric : Numeric Z := {
  sone := 1;
  smone := -1;
  sdiv := fun x y => if Z.eqb y 0 then None else Some (Z.quot x y);
  sabs := Z.abs;
  sltb := Z.ltb
}.

(** [T = double] *)
#[export] Instance double_Scalar : Scalar PrimFloat.float := {
  szero := 0%float;
  sadd := PrimFloat.add;
  smul := PrimFloat.mul;
  is_zero := fun x => PrimFloat.eqb x 0%float
}.

#[export] Instance double_Numeric : Numeric PrimFloat.float := {
  sone := 1%float;
  smone := (-1)%float;
  sdiv := fun x y => Some (PrimFloat.div x y);
  sabs := PrimFloat.abs;
  sltb := PrimFloat.ltb
}.

(** ** SparseVector *)

Module Sparse.
Section Defs.
Context {T : Type} `{Scalar T}.

Record SparseVector : Type := mkSparse {
  indexesPositionLength : Z;
  activeIndexesLength : Z;
  nbActive : Z;
  indexesPosition : list Z;
  activeIndexes : list Z;
  values : list T
}.

Definition with_indexesPosition (s : SparseVector) (ip : list Z) : SparseVector :=
  mkSparse (indexesPositionLength s) (activeIndexesLength s) (nbActive s)
           ip (activeIndexes s) (values s).

Definition with_values (s : SparseVector) (vs : list T) : SparseVector :=
  mkSparse (indexesPositionLength s) (activeIndexesLength s) (nbActive s)
           (indexesPosition s) (activeIndexes s) vs.

Definition with_nbActive (s : SparseVector) (n : Z) : SparseVector :=
  mkSparse (indexesPositionLength s) (activeIndexesLength s) n
           (indexesPosition s) (activeIndexes s) (values s).

(** [SparseVector(capacity, activeIndexesLength)] *)
Definition new (capacity activeIndexesLength : Z) : result SparseVector :=
  do ip <- new_array 0 capacity ;
  do ai <- new_array 0 activeIndexesLength ;
  do vs <- new_array szero activeIndexesLength ;
  do ip <- fill ip 0 capacity (-1) ;
  Ok (mkSparse capacity activeIndexesLength 0 ip ai vs).

Definition dimension (s : SparseVector) : Z := indexesPositionLength s.

Definition nbActiveEntries (s : SparseVector) : Z := nbActive s.

Definition updateEntry (s : SparseVector) (index : Z) (value : T) (position : Z)
  : result SparseVector :=
  do vs <- wr (values s) position value ;
  Ok (with_values s vs).

Definition swapEntry (s : SparseVector) (positionA positionB : Z)
  : result SparseVector :=
  do indexA <- rd (activeIndexes s) positionA ;
  do valueA <- rd (values s) positionA ;
  do indexB <- rd (activeIndexes s) positionB ;
  do valueB <- rd (values s) positionB ;
  do ip <- wr (indexesPosition s) indexA positionB ;
  do ip <- wr ip indexB positionA ;
  do ai <- wr (activeIndexes s) positionA indexB ;
  do ai <- wr ai positionB indexA ;
  do vs <- wr (values s) positionA valueB ;
  do vs <- wr vs positionB valueA ;
  Ok (mkSparse (indexesPositionLength s) (activeIndexesLength s) (nbActive s)
               ip ai vs).

(** the private [removeEntry(position, index)] *)
Definition removeEntry_at (s : SparseVector) (position index : Z)
  : result SparseVector :=
  do s <- swapEntry s (nbActive s - 1) position ;
  do last <- rd (activeIndexes s) (nbActive s - 1) ;
  do ip <- wr (indexesPosition s) last (-1) ;
  Ok (with_nbActive (with_indexesPosition s ip) (nbActive s - 1)).

(** the public [removeEntry(index)] *)
Definition removeEntry (s : SparseVector) (index : Z) : result SparseVector :=
  do position <- rd (indexesPosition s) index ;
  if bool_decide (position <> -1) then removeEntry_at s position index
  else Ok s.

Definition allocate (s : SparseVector) (sizeRequired : Z) : result SparseVector :=
  if bool_decide (activeIndexesLength s >= sizeRequired) then Ok s
  else
    let newCapacity := Z.quot (sizeRequired * 3) 2 + 1 in
    do newActiveIndexes <- new_array 0 newCapacity ;
    do newValues <- new_array szero newCapacity ;
    do newActiveIndexes <-
      copy_into (activeIndexes s) (activeIndexesLength s) newActiveIndexes ;
    do newActiveIndexes <-
      fill newActiveIndexes (activeIndexesLength s) newCapacity 0 ;
    do newValues <- copy_into (values s) (activeIndexesLength s) newValues ;
    do newValues <- fill newValues (activeIndexesLength s) newCapacity szero ;
    Ok (mkSparse (indexesPositionLength s) newCapacity (nbActive s)
                 (indexesPosition s) newActiveIndexes newValues).

Definition appendEntry (s : SparseVector) (index : Z) (value : T)
  : result SparseVector :=
  do s <- allocate s (nbActive s + 1) ;
  do ai <- wr (activeIndexes s) (nbActive s) index ;
  do vs <- wr (values s) (nbActive s) value ;
  do ip <- wr (indexesPosition s) index (nbActive s) ;
  Ok (mkSparse (indexesPositionLength s) (activeIndexesLength s) (nbActive s + 1)
               ip ai vs).

Definition insertLast (s : SparseVector) (value : T) : result SparseVector :=
  appendEntry s (indexesPositionLength s - 1) value.

Definition insertEntry (s : SparseVector) (index : Z) (value : T)
  : result SparseVector :=
  appendEntry s index value.

Definition getEntry (s : SparseVector) (index : Z) : result T :=
  do position <- rd (indexesPosition s) index ;
  if bool_decide (position <> -1) then rd (values s) position else Ok szero.

Definition setNonZeroEntry (s : SparseVector) (index : Z) (value : T)
  : result SparseVector :=
  do position <- rd (indexesPosition s) index ;
  if bool_decide (position <> -1) then updateEntry s index value position
  else insertEntry s index value.

Definition setEntry (s : SparseVector) (index : Z) (value : T)
  : result SparseVector :=
  if is_zero value then removeEntry s index
  else setNonZeroEntry s index value.

Definition clear (s : SparseVector) : result SparseVector :=
  do s <- for_upto (nbActive s)
         (fun i s => do index <- rd (activeIndexes s) i ;
                     do ip <- wr (indexesPosition s) index (-1) ;
                     Ok (with_indexesPosition s ip)) s ;
  Ok (with_nbActive s 0).

Definition addToSelf (s : SparseVector) (factor : T) (that : SparseVector)
  : result SparseVector :=
  do u <- assert (bool_decide (dimension s = dimension that)) ;
  for_upto (nbActive that)
    (fun position s =>
       do index <- rd (activeIndexes that) position ;
       do cur <- getEntry s index ;
       do v <- rd (values that) position ;
       setNonZeroEntry s index (sadd cur (smul factor v))) s.


(** The [while] loop of [ebeMultiplyToSelf]; [fuel] bounds the number of
    iterations. *)
Fixpoint ebeMultiplyToSelf_loop (fuel : nat) (s that : SparseVector) (position : Z)
  : result SparseVector :=
  if bool_decide (position < nbActive s) then
    match fuel with
    | O => OutOfFuel
    | S fuel =>
        do index <- rd (activeIndexes s) position ;
        do v <- rd (values s) position ;
        do o <- getEntry that index ;
        let value := smul v o in
        if negb (is_zero value) then
          do vs <- wr (values s) position value ;
          ebeMultiplyToSelf_loop fuel (with_values s vs) that (position + 1)
        else
          do s <- removeEntry_at s position index ;
          ebeMultiplyToSelf_loop fuel s that position
    end
  else Ok s.

Definition ebeMultiplyToSelf (fuel : nat) (s that : SparseVector)
  : result SparseVector :=
  do u <- assert (bool_decide (dimension s = dimension that)) ;
  ebeMultiplyToSelf_loop fuel s that 0.

Definition ebeAddConstantToSelf (s : SparseVector) (value : T)
  : result SparseVector :=
  for_upto (indexesPositionLength s)
    (fun index s =>
       do cur <- getEntry s index ;
       setNonZeroEntry s index (sadd value cur)) s.

(** the private [dot(_this, _that)] *)
Definition dot_aux (_this _that : SparseVector) : result T :=
  for_upto (nbActive _this)
    (fun position tmp =>
       do index <- rd (activeIndexes _this) position ;
       do e <- getEntry _that index ;
       do v <- rd (values _this) position ;
       Ok (sadd tmp (smul e v))) szero.

(** the public [dot(that)] *)
Definition dot (s that : SparseVector) : result T :=
  do u <- assert (bool_decide (dimension s = dimension that)) ;
  if bool_decide (nbActive s < nbActive that) then dot_aux s that
  else dot_aux that s.


(** [set(const SparseVector<T>& that)] *)
Definition set (s that : SparseVector) : result SparseVector :=
  do u <- assert (bool_decide (dimension s = dimension that)) ;
  do s <- clear s ;
  for_upto (nbActive that)
    (fun i s =>
       do index <- rd (activeIndexes that) i ;
       do v <- rd (values that) i ;
       setNonZeroEntry s index v) s.

(** [set(const SparseVector<T>& that, const int& offset)] *)
Definition set_offset (s that : SparseVector) (offset : Z) : result SparseVector :=
  do s <- clear s ;
  for_upto (nbActive that)
    (fun i s =>
       do index <- rd (activeIndexes that) i ;
       do v <- rd (values that) i ;
       setNonZeroEntry s (index + offset) v) s.

(** [set(const SparseVector<T>& that, const T& value)] *)
Definition set_value (s that : SparseVector) (value : T) : result SparseVector :=
  do u <- assert (bool_decide (dimension s = dimension that)) ;
  do s <- clear s ;
  for_upto (nbActive that)
    (fun i s =>
       do index <- rd (activeIndexes that) i ;
       setNonZeroEntry s index value) s.

(** [set(const T& value)] *)
Definition set_all (s : SparseVector) (value : T) : result SparseVector :=
  do s <- clear s ;
  for_upto (indexesPositionLength s)
    (fun index s => setNonZeroEntry s index value) s.

Definition empty (s : SparseVector) : bool := bool_decide (dimension s = 0).

(** *** Invariants of the representation *)

(** the array lengths are the recorded ones and [nbActive] entries fit *)
Record shape (s : SparseVector) : Prop := mkShape {
  shape_ip : indexesPositionLength s = Z.of_nat (length (indexesPosition s));
  shape_ai : activeIndexesLength s = Z.of_nat (length (activeIndexes s));
  shape_vs : activeIndexesLength s = Z.of_nat (length (values s));
  shape_nb : 0 <= nbActive s <= activeIndexesLength s
}.

(** [indexesPosition[activeIndexes[i]] == i] for every [i < nbActive] *)
Definition index_position_inv (s : SparseVector) : Prop :=
  forall i, 0 <= i < nbActive s ->
    exists k, zlookup (activeIndexes s) i = Some k /\
              zlookup (indexesPosition s) k = Some i.

(** an index is marked absent, or its position holds it *)
Definition position_index_inv (s : SparseVector) : Prop :=
  forall k p, zlookup (indexesPosition s) k = Some p ->
    p = -1 \/ (0 <= p < nbActive s /\ zlookup (activeIndexes s) p = Some k).

Record wf (s : SparseVector) : Prop := mkWf {
  wf_shape : shape s;
  wf_index_position : index_position_inv s;
  wf_position_index : position_index_inv s
}.

(** the invariants, checked *)
Definition shapeb (s : SparseVector) : bool :=
  bool_decide (indexesPositionLength s = Z.of_nat (length (indexesPosition s)))
  && bool_decide (activeIndexesLength s = Z.of_nat (length (activeIndexes s)))
  && bool_decide (activeIndexesLength s = Z.of_nat (length (values s)))
  && bool_decide (0 <= nbActive s <= activeIndexesLength s).

Definition index_position_invb (s : SparseVector) : bool :=
  forallb (fun i =>
             match zlookup (activeIndexes s) i with
             | Some k => bool_decide (zlookup (indexesPosition s) k = Some i)
             | None => false
             end) (seqZ 0 (nbActive s)).

Definition position_index_invb (s : SparseVector) : bool :=
  forallb (fun k =>
             match zlookup (indexesPosition s) k with
             | Some p =>
                 bool_decide (p = -1)
                 || (bool_decide (0 <= p < nbActive s)
                     && bool_decide (zlookup (activeIndexes s) p = Some k))
             | None => true
             end) (seqZ 0 (Z.of_nat (length (indexesPosition s)))).

Definition wfb (s : SparseVector) : bool :=
  shapeb s && index_position_invb s && position_index_invb s.

(** no active entry stores a zero *)
Definition no_stored_zero (s : SparseVector) : Prop :=
  forall i v, 0 <= i < nbActive s -> zlookup (values s) i = Some v ->
              is_zero v = false.

(** the active (index, value) pairs, in the order of the active arrays *)
Definition active_pairs (s : SparseVector) : list (Z * T) :=
  zip (take (Z.to_nat (nbActive s)) (activeIndexes s))
      (take (Z.to_nat (nbActive s)) (values s)).

(** the logical value at [index]: what [getEntry] returns when it returns *)
Definition entry (s : SparseVector) (index : Z) : T :=
  match getEntry s index with
  | Ok v => v
  | _ => szero
  end.

End Defs.
Arguments SparseVector T : clear implicits.

Section NumericDefs.
Context {T : Type} `{Scalar T} `{Numeric T}.

(** [addToSelf(const SparseVector<T>& that)] *)
Definition addToSelf_that (s that : SparseVector T) : result (SparseVector T) :=
  addToSelf s sone that.

Definition substractToSelf (s that : SparseVector T) : result (SparseVector T) :=
  addToSelf s smone that.

Definition ebeDivideToSelf (s that : SparseVector T) : result (SparseVector T) :=
  for_upto (nbActive s)
    (fun position s =>
       do index <- rd (activeIndexes s) position ;
       do v <- rd (values s) position ;
       do o <- getEntry that index ;
       do q <- match sdiv v o with
               | Some q => Ok q
               | None => Undefined
               end ;
       do vs <- wr (values s) position q ;
       Ok (with_values s vs)) s.

Definition maxNorm (s : SparseVector T) : result T :=
  do maxv <- (if bool_decide (nbActive s > 0)
              then do v <- rd (values s) 0 ; Ok (sabs v)
              else Ok szero) ;
  if bool_decide (nbActive s > 0) then
    for_loop (Z.to_nat (nbActive s - 1)) 1
      (fun position maxv =>
         do v <- rd (values s) position ;
         if sltb maxv (sabs v) then Ok (sabs v) else Ok maxv) maxv
  else Ok maxv.

(** the static [absToSelf(that)] *)
Definition absToSelf (that : SparseVector T) : result (SparseVector T) :=
  for_upto (nbActive that)
    (fun position that =>
       do v <- rd (values that) position ;
       do vs <- wr (values that) position (sabs v) ;
       Ok (with_values that vs)) that.

(** the static [positiveMaxToSelf(result, other)] *)
Definition positiveMaxToSelf (res other : SparseVector T)
  : result (SparseVector T) :=
  for_upto (nbActiveEntries other)
    (fun i res =>
       do index <- rd (activeIndexes other) i ;
       do a <- getEntry res index ;
       do b <- getEntry other index ;
       setEntry res index (smax a b)) res.

End NumericDefs.
End Sparse.

(** ** Files and the console

    A stream is the sequence of the objects written to it, one cell per call
    of [Vector::write]; their bytes are not modelled.  A stream whose next
    cell does not have the type the reader asks for is outside the model: the
    read fails like a read at the end of the stream. *)

Inductive cell (T : Type) : Type :=
| CInt (z : Z)
| CVal (v : T).

Arguments CInt {T} z.
Arguments CVal {T} v.

Inductive event : Type :=
| Printf (format : string) (args : list Z)   (* printf(format, args...) *)
| Cout (line : string)                       (* std::cout << ... << std::endl *)
| Cerr (line : string).                      (* std::cerr << ... << std::endl *)

Record world (T : Type) : Type := mkWorld {
  files : gmap string (list (cell T));   (* the files that can be opened for reading *)
  writable : string -> bool;             (* the names that can be opened for writing *)
  console : list event
}.

Arguments mkWorld {T} files writable console.
Arguments files {T} w.
Arguments writable {T} w.
Arguments console {T} w.

Definition print {T} (e : event) (w : world T) : world T :=
  mkWorld (files w) (writable w) (console w ++ [e]).

Definition write_file {T} (f : string) (content : list (cell T)) (w : world T)
  : world T :=
  mkWorld (<[f := content]> (files w)) (writable w) (console w).

(** A computation that prints and touches files: the world is kept when the
    computation fails. *)
Definition io (T A : Type) : Type := world T -> result A * world T.

Definition iobind {T A B} (m : io T A) (k : A -> io T B) : io T B :=
  fun w =>
    match m w with
    | (Ok a, w') => k a w'
    | (AssertFail, w') => (AssertFail, w')
    | (Exit c, w') => (Exit c, w')
    | (BadLength, w') => (BadLength, w')
    | (Undefined, w') => (Undefined, w')
    | (OutOfFuel, w') => (OutOfFuel, w')
    end.

Notation "'io!' x <- m ; k" := (iobind m (fun x => k))
  (at level 10, x name, m at level 100, k at level 200).

Definition lift {T A} (r : result A) : io T A := fun w => (r, w).

Definition say {T} (e : event) : io T unit := fun w => (Ok tt, print e w).

(** [Vector::read(i, value)] for an [int]: the value read, or [None] when the
    read fails and [value] stays indeterminate; a failed stream stays failed. *)
Definition read_int {T} (ifs : list (cell T)) : option Z * list (cell T) :=
  match ifs with
  | CInt z :: rest => (Some z, rest)
  | _ => (None, [])
  end.

(** [Vector::read(i, value)] for a [T] *)
Definition read_val {T} (ifs : list (cell T)) : option T * list (cell T) :=
  match ifs with
  | CVal v :: rest => (Some v, rest)
  | _ => (None, [])
  end.

(** the use of a value that may be indeterminate *)
Definition use {A} (o : option A) : result A :=
  match o with
  | Some a => Ok a
  | None => Undefined
  end.

Module SparseIO.
Import Sparse.
Section Defs.
Context {T : Type} `{Scalar T}.

Definition persist (s : SparseVector T) (f : string) : io T unit :=
  fun w =>
    if writable w f then
      (let vectorType := 1 in
       let ofs := [CInt vectorType; CInt (indexesPositionLength s);
                   CInt (nbActive s)] in
       io! u <- say (Printf "vectorType=%i capacity=%i nbActive=%i\n"
                      [vectorType; indexesPositionLength s; nbActive s]) ;
       io! ofs <- lift (for_upto (nbActive s)
                        (fun position ofs =>
                           do index <- rd (activeIndexes s) position ;
                           Ok (ofs ++ [CInt index])) ofs) ;
       io! ofs <- lift (for_upto (nbActive s)
                        (fun position ofs =>
                           do v <- rd (values s) position ;
                           Ok (ofs ++ [CVal v])) ofs) ;
       io! u <- (fun w => (Ok tt, write_file f ofs w)) ;
       say (Cout ("## SparseVector persisted=" ++ f)))
        (write_file f [] w)
    else say (Cerr ("ERROR! (persist) file=" ++ f)) w.

Definition resurrect (s : SparseVector T) (f : string) : io T (SparseVector T) :=
  fun w =>
    match files w !! f with
    | Some ifs =>
        (let '(vectorType, ifs) := read_int ifs in
         io! vectorType <- lift (use vectorType) ;
         io! u <- lift (assert (bool_decide (vectorType = 1))) ;
         let '(rcapacity, ifs) := read_int ifs in
         let '(rnbActive, ifs) := read_int ifs in
         io! rcapacity <- lift (use rcapacity) ;
         io! u <- lift (assert (bool_decide (indexesPositionLength s = rcapacity))) ;
         io! rnbActive <- lift (use rnbActive) ;
         io! u <- say (Printf "vectorType=%i rcapacity=%i rnbActive=%i\n"
                         [vectorType; rcapacity; rnbActive]) ;
         io! ractiveIndexes <- lift (new_array None rnbActive) ;
         io! st <- lift (for_upto rnbActive
                          (fun position '(ractiveIndexes, ifs) =>
                             let '(index, ifs) := read_int ifs in
                             do ractiveIndexes <- wr ractiveIndexes position index ;
                             Ok (ractiveIndexes, ifs)) (ractiveIndexes, ifs)) ;
         let '(ractiveIndexes, ifs) := st in
         io! st <- lift (for_upto rnbActive
                          (fun position '(s, ifs) =>
                             let '(rvalue, ifs) := read_val ifs in
                             do index <- rd ractiveIndexes position ;
                             do index <- use index ;
                             do rvalue <- use rvalue ;
                             do s <- insertEntry s index rvalue ;
                             Ok (s, ifs)) (s, ifs)) ;
         let '(s, ifs) := st in
         io! u <- say (Cout ("## SparseVector resurrected=" ++ f)) ;
         lift (Ok s)) w
    | None =>
        (io! u <- say (Cerr ("ERROR! (resurrect) file=" ++ f)) ;
         lift (Exit (-1))) w
    end.

End Defs.
End SparseIO.

(** ** DenseVector *)

Module Dense.
Section Defs.
Context {T : Type} `{Scalar T}.

Record DenseVector : Type := mkDense {
  capacity : Z;
  data : list T
}.

(** [DenseVector(capacity)] *)
Definition new (capacity : Z) : result DenseVector :=
  do d <- new_array szero capacity ;
  do d <- fill d 0 capacity szero ;
  Ok (mkDense capacity d).

Definition dimension (d : DenseVector) : Z := capacity d.

(** the buffer has [capacity] cells *)
Definition shape (d : DenseVector) : Prop :=
  capacity d = Z.of_nat (length (data d)).

(** [operator[]] read through the returned reference *)
Definition get (d : DenseVector) (index : Z) : result T :=
  do u <- assert (bool_decide (index >= 0 /\ index < capacity d)) ;
  rd (data d) index.

(** [operator[]] written through the returned reference *)
Definition put (d : DenseVector) (index : Z) (value : T) : result DenseVector :=
  do u <- assert (bool_decide (index >= 0 /\ index < capacity d)) ;
  do a <- wr (data d) index value ;
  Ok (mkDense (capacity d) a).

Definition empty (d : DenseVector) : bool := bool_decide (dimension d = 0).

(** the dot product, [operator*(const DenseVector<T>& that)] *)
Definition dot (d that : DenseVector) : result T :=
  do u <- assert (bool_decide (capacity d = capacity that)) ;
  for_upto (capacity d)
    (fun i tmp =>
       do x <- rd (data d) i ;
       do y <- rd (data that) i ;
       Ok (sadd tmp (smul x y))) szero.

(** [operator*(const double& d)] *)
Definition scale (d : DenseVector) (factor : T) : result DenseVector :=
  do a <- for_upto (capacity d)
            (fun i a => do x <- rd a i ; wr a i (smul x factor)) (data d) ;
  Ok (mkDense (capacity d) a).

(** [operator+(const DenseVector<T>& that)] *)
Definition plus (d that : DenseVector) : result DenseVector :=
  do u <- assert (bool_decide (capacity d = capacity that)) ;
  do a <- for_upto (capacity d)
            (fun i a =>
               do x <- rd a i ;
               do y <- rd (data that) i ;
               wr a i (sadd x y)) (data d) ;
  Ok (mkDense (capacity d) a).

Definition clear (d : DenseVector) : result DenseVector :=
  do a <- fill (data d) 0 (capacity d) szero ;
  Ok (mkDense (capacity d) a).

Definition set (d that : DenseVector) : result DenseVector :=
  do u <- assert (bool_decide (capacity d = capacity that)) ;
  do a <- for_upto (capacity d)
            (fun i a => do y <- rd (data that) i ; wr a i y) (data d) ;
  Ok (mkDense (capacity d) a).

Definition persist (d : DenseVector) (f : string) : io T unit :=
  fun w =>
    if writable w f then
      (let ofs := [CInt 0; CInt (capacity d)] in
       io! ofs <- lift (for_upto (capacity d)
                        (fun j ofs =>
                           do v <- rd (data d) j ;
                           Ok (ofs ++ [CVal v])) ofs) ;
       io! u <- (fun w => (Ok tt, write_file f ofs w)) ;
       say (Cout ("## DenseVector persisted=" ++ f)))
        (write_file f [] w)
    else say (Cerr ("ERROR! (persist) file=" ++ f)) w.

Definition resurrect (d : DenseVector) (f : string) : io T DenseVector :=
  fun w =>
    match files w !! f with
    | Some ifs =>
        (let '(vectorType, ifs) := read_int ifs in
         io! vectorType <- lift (use vectorType) ;
         io! u <- lift (assert (bool_decide (vectorType = 0))) ;
         let '(rcapacity, ifs) := read_int ifs in
         io! rcapacity <- lift (use rcapacity) ;
         io! u <- lift (assert (bool_decide (capacity d = rcapacity))) ;
         io! u <- say (Printf "vectorType=%i rcapacity=%i \n"
                         [vectorType; rcapacity]) ;
         io! st <- lift (for_upto (capacity d)
                          (fun j '(a, ifs) =>
                             match read_val ifs with
                             | (Some v, ifs) =>
                                 do a <- wr a j v ; Ok (a, ifs)
                             | (None, ifs) =>
                                 do u <- rd a j ; Ok (a, ifs)
                             end) (data d, ifs)) ;
         let '(a, ifs) := st in
         io! u <- say (Cout ("## DenseVector persist=" ++ f)) ;
         lift (Ok (mkDense (capacity d) a))) w
    | None =>
        (io! u <- say (Cerr ("ERROR! (resurrected) file=" ++ f)) ;
         lift (Exit (-1))) w
    end.

End Defs.
Arguments DenseVector T : clear implicits.

Section NumericDefs.
Context {T : Type} `{Scalar T} `{Numeric T}.

Definition maxNorm (d : DenseVector T) : result T :=
  do maxv <- (if bool_decide (capacity d > 0)
              then do v <- rd (data d) 0 ; Ok (sabs v)
              else Ok szero) ;
  if bool_decide (capacity d > 0) then
    for_loop (Z.to_nat (capacity d - 1)) 1
      (fun i maxv =>
         do v <- rd (data d) i ;
         if sltb maxv (sabs v) then Ok (sabs v) else Ok maxv) maxv
  else Ok maxv.

End NumericDefs.
End Dense.


(** ** Objects in memory: copies and aliasing

    The vectors above are values.  To speak about copies, the objects and
    their arrays are placed in a heap: an object holds the addresses of its
    arrays, and a method called on an object reads the arrays that the object
    points to and writes them back, so that two objects that point to the
    same array see each other's writes. *)

Module Heap.

Definition loc := positive.

Inductive block (T : Type) : Type :=
| IntArray (a : list Z)                     (* new int[n] *)
| ValArray (a : list T)                     (* new T[n] *)
| SparseObject (indexesPositionLength activeIndexesLength nbActive : Z)
               (indexesPosition activeIndexes values : loc)
| DenseObject (capacity : Z) (data : loc)
| PointerVector (ps : list loc)             (* std::vector<SparseVector<T>*> *)
| SparseVectorsObject (vectors : loc).

Arguments IntArray {T} a.
Arguments ValArray {T} a.
Arguments SparseObject {T} _ _ _ _ _ _.
Arguments DenseObject {T} _ _.
Arguments PointerVector {T} ps.
Arguments SparseVectorsObject {T} vectors.

Section Defs.
Context {T : Type} `{Scalar T}.

Local Abbreviation heap := (gmap loc (block T)).

(** [new]: a block at an address that is not in use *)
Definition alloc (b : block T) (h : heap) : loc * heap :=
  let l := fresh (dom h) in (l, <[l := b]> h).

(** [delete[]] of an array *)
Definition delete_array (l : loc) (h : heap) : result heap :=
  match h !! l with
  | Some (IntArray _) | Some (ValArray _) => Ok (delete l h)
  | _ => Undefined
  end.

Definition read_ints (l : loc) (h : heap) : result (list Z) :=
  match h !! l with
  | Some (IntArray a) => Ok a
  | _ => Undefined
  end.

Definition read_vals (l : loc) (h : heap) : result (list T) :=
  match h !! l with
  | Some (ValArray a) => Ok a
  | _ => Undefined
  end.





(** *** SparseVector objects *)

(** the vector that the object at [p] represents *)
Definition load_sparse (h : heap) (p : loc) : result (Sparse.SparseVector T) :=
  match h !! p with
  | Some (SparseObject ipl ail nb ip ai vs) =>
      do a1 <- read_ints ip h ;
      do a2 <- read_ints ai h ;
      do a3 <- read_vals vs h ;
      Ok (Sparse.mkSparse ipl ail nb a1 a2 a3)
  | _ => Undefined
  end.

(** the addresses that the object at [p] consists of *)
Definition sparse_footprint (h : heap) (p : loc) : list loc :=
  match h !! p with
  | Some (SparseObject _ _ _ ip ai vs) => [p; ip; ai; vs]
  | _ => [p]
  end.

(** a [const] method called on the object at [p] *)
Definition query_sparse {A} (p : loc)
    (method : Sparse.SparseVector T -> result A) (h : heap) : result A :=
  do s <- load_sparse h p ; method s.

(** a method called on the object at [p].  The arrays are written in place;
    when the method went through [allocate] (the only code that changes
    [activeIndexesLength]) the active arrays are new blocks and the old ones
    are deleted. *)
Definition call_sparse (p : loc)
    (method : Sparse.SparseVector T -> result (Sparse.SparseVector T))
    (h : heap) : result heap :=
  match h !! p with
  | Some (SparseObject ipl ail nb ip ai vs) =>
      do s <- load_sparse h p ;
      do s <- method s ;
      let h := <[ip := IntArray (Sparse.indexesPosition s)]> h in
      if bool_decide (Sparse.activeIndexesLength s = ail) then
        let h := <[ai := IntArray (Sparse.activeIndexes s)]> h in
        let h := <[vs := ValArray (Sparse.values s)]> h in
        Ok (<[p := SparseObject (Sparse.indexesPositionLength s)
                     (Sparse.activeIndexesLength s) (Sparse.nbActive s)
                     ip ai vs]> h)
      else
        let '(newActiveIndexes, h) := alloc (IntArray (Sparse.activeIndexes s)) h in
        let '(newValues, h) := alloc (ValArray (Sparse.values s)) h in
        do h <- delete_array ai h ;
        do h <- delete_array vs h ;
        Ok (<[p := SparseObject (Sparse.indexesPositionLength s)
                     (Sparse.activeIndexesLength s) (Sparse.nbActive s)
                     ip newActiveIndexes newValues]> h)
  | _ => Undefined
  end.



(** *** DenseVector objects *)

Definition load_dense (h : heap) (p : loc) : result (Dense.DenseVector T) :=
  match h !! p with
  | Some (DenseObject capacity data) =>
      do a <- read_vals data h ;
      Ok (Dense.mkDense capacity a)
  | _ => Undefined
  end.


Definition query_dense {A} (p : loc)
    (method : Dense.DenseVector T -> result A) (h : heap) : result A :=
  do d <- load_dense h p ; method d.




(** *** SparseVectors objects *)

(** the member pointers of the collection at [c] *)
Definition members (h : heap) (c : loc) : result (list loc) :=
  match h !! c with
  | Some (SparseVectorsObject vectors) =>
      match h !! vectors with
      | Some (PointerVector ps) => Ok ps
      | _ => Undefined
      end
  | _ => Undefined
  end.

(** [vectors->push_back(vector)] *)
Definition push_back (vectors : loc) (vector : loc) (h : heap) : result heap :=
  match h !! vectors with
  | Some (PointerVector ps) => Ok (<[vectors := PointerVector (ps ++ [vector])]> h)
  | _ => Undefined
  end.

(** [at(index)]: the pointer to a member *)
Definition collection_at (c : loc) (index : Z) (h : heap) : result loc :=
  do ps <- members h c ;
  do u <- assert (bool_decide (index >= 0 /\ index < Z.of_nat (length ps))) ;
  rd ps index.

(** [c.at(i)->getEntry(index)] *)
Definition collection_getEntry (c : loc) (i index : Z) (h : heap) : result T :=
  do m <- collection_at c i h ;
  query_sparse m (fun s => Sparse.getEntry s index) h.

(** [SparseVectors::clear()] *)
Definition collection_clear (c : loc) (h : heap) : result heap :=
  do ps <- members h c ;
  foldl (fun h iter => do h <- h ; call_sparse iter Sparse.clear h) (Ok h) ps.

(** [SparseVectors::dimension()] *)
Definition collection_dimension (c : loc) (h : heap) : result Z :=
  do ps <- members h c ;
  Ok (Z.of_nat (length ps)).

End Defs.

Arguments alloc : simpl never.

End Heap.

(** * RLLib [Action.h]: actions and arrays of actions

    A [std::vector] is a list.  [vector::at] throws [std::out_of_range] for a
    position outside the vector: [None].  The [int] index is converted to the
    unsigned [size_type], so that a negative index is outside every vector.
    An [ActionArray] owns the actions that its vector points to, and hands
    out no other way to change them than its own methods: the vector of
    pointers is the list of the actions. *)

(** [std::vector::at] *)
Definition vector_at {A} (v : list A) (i : Z) : option A := zlookup v i.

Module Action.
Section Defs.
Context {T : Type}.

Record Action : Type := mkAction {
  actionID : Z;
  values : list T
}.

(** [Action(actionID)] *)
Definition new (actionID : Z) : Action := mkAction actionID [].

Definition push_back (a : Action) (value : T) : Action :=
  mkAction (actionID a) (values a ++ [value]).

(** [at(i)] *)
Definition at_ (a : Action) (i : Z) : option T := vector_at (values a) i.

Definition dimension (a : Action) : Z := Z.of_nat (length (values a)).

Definition update (a : Action) (i : Z) (value : T) : option Action :=
  match vector_at (values a) i with
  | Some _ => Some (mkAction (actionID a) (<[Z.to_nat i := value]> (values a)))
  | None => None
  end.

(** [operator==] *)
Definition eqb (a that : Action) : bool := bool_decide (actionID a = actionID that).

(** [operator!=] *)
Definition neqb (a that : Action) : bool := bool_decide (actionID a <> actionID that).

Definition id (a : Action) : Z := actionID a.

End Defs.
Arguments Action T : clear implicits.
End Action.

Module ActionArray.
Section Defs.
Context {T : Type}.

Definition ActionArray : Type := list (Action.Action T).

(** [ActionArray(nbActions)] *)
Definition new (nbActions : Z) : ActionArray :=
  foldl (fun actions i => actions ++ [Action.new i]) [] (seqZ 0 nbActions).

(** [operator[]] and [at(index)] *)
Definition at_ (actions : ActionArray) (index : Z) : option (Action.Action T) :=
  vector_at actions index.

Definition push_back (actions : ActionArray) (index : Z) (value : T)
  : option ActionArray :=
  match vector_at actions index with
  | Some a => Some (<[Z.to_nat index := Action.push_back a value]> actions)
  | None => None
  end.

(** [erase(index)]: the loop from [begin()] to the first action whose id is
    [index] *)
Fixpoint erase (actions : ActionArray) (index : Z) : ActionArray :=
  match actions with
  | [] => []
  | a :: rest =>
      if bool_decide (Action.id a = index) then rest
      else a :: erase rest index
  end.

Definition update (actions : ActionArray) (actionIndex vectorIndex : Z) (value : T)
  : option ActionArray :=
  match vector_at actions actionIndex with
  | Some a =>
      match Action.update a vectorIndex value with
      | Some a => Some (<[Z.to_nat actionIndex := a]> actions)
      | None => None
      end
  | None => None
  end.

Definition dimension (actions : ActionArray) : Z := Z.of_nat (length actions).

End Defs.
Arguments ActionArray T : clear implicits.
End ActionArray.

(** ** Auxiliary definitions for the proofs *)

(** the entries of a list, inserted one after the other with [insertEntry] *)
Fixpoint insert_all {T} `{Scalar T} (s : Sparse.SparseVector T) (l : list (Z * T))
  : result (Sparse.SparseVector T) :=
  match l with
  | [] => Ok s
  | (index, value) :: l =>
      do s <- Sparse.insertEntry s index value ; insert_all s l
  end.

(** the stream that [persist] writes for a sparse vector that holds the
    pairs [l] in its active arrays *)
Definition sparse_stream {T} (dimension : Z) (l : list (Z * T)) : list (cell T) :=
  [CInt 1; CInt dimension; CInt (Z.of_nat (length l))]
    ++ (CInt <$> l.*1) ++ (CVal <$> l.*2).

(** the sum of a list of scalars *)
Definition sum_list {T} `{Scalar T} (l : list T) : T := foldr sadd szero l.

(** the sum, over all the indexes of the declared dimension, of the products
    of the logical values of two vectors *)
Definition full_dot {T} `{Scalar T} (a b : Sparse.SparseVector T) : T :=
  sum_list ((fun k => smul (Sparse.entry a k) (Sparse.entry b k))
              <$> seqZ 0 (Sparse.dimension a)).

(** ** Example vectors *)

(** dimension 5, entries 1 ↦ 20, 3 ↦ 40 and 4 ↦ 7 *)
Definition example_sparse : Sparse.SparseVector Z :=
  Sparse.mkSparse 5 5 3 [-1; 0; -1; 1; 2] [1; 3; 4; 0; 0] [20; 40; 7; 0; 0].

(** dimension 5, entries 1 ↦ 1 and 2 ↦ 5 *)
Definition example_sparse' : Sparse.SparseVector Z :=
  Sparse.mkSparse 5 2 2 [-1; 0; 1; -1; -1] [1; 2] [1; 5].

(** dimension 3, no entry, room for one *)
Definition example_empty : Sparse.SparseVector Z :=
  Sparse.mkSparse 3 1 0 [-1; -1; -1] [0] [0].

Definition example_world : world Z := mkWorld ∅ (fun _ => true) [].

(** capacity 3, cells 1, 2 and 3 *)
Definition example_dense : Dense.DenseVector Z := Dense.mkDense 3 [1; 2; 3].

(** a world whose file [f] holds [content] *)
Definition world_with (f : string) (content : list (cell Z)) : world Z :=
  mkWorld {[ f := content ]} (fun _ => true) [].

(** dimension 5, the entry 3 ↦ 40 *)
Definition example_that : Sparse.SparseVector Z :=
  Sparse.mkSparse 5 1 1 [-1; -1; -1; 0; -1] [3] [40].


(** the computation of [maxNorm], on the first [n] cells of an array *)
Definition max_abs_of {T} `{Scalar T} `{Numeric T} (a : list T) (n : Z) : result T :=
  do maxv <- (if bool_decide (n > 0)
              then do v <- rd a 0 ; Ok (sabs v)
              else Ok szero) ;
  if bool_decide (n > 0) then
    for_loop (Z.to_nat (n - 1)) 1
      (fun position maxv =>
         do v <- rd a position ;
         if sltb maxv (sabs v) then Ok (sabs v) else Ok maxv) maxv
  else Ok maxv.

(** an index is active: [indexesPosition] holds a position for it *)
Definition active {T} (s : Sparse.SparseVector T) (k : Z) : Prop :=
  exists p, zlookup (Sparse.indexesPosition s) k = Some p /\ p <> -1.

(** the members [ps] of the collection at [c], whose vector of pointers is at
    [vectors], are objects apart from each other and from the collection *)
Definition members_apart {T} (h : gmap Heap.loc (Heap.block T))
    (c vectors : Heap.loc) (ps : list Heap.loc) : Prop :=
  (forall p, p ∈ ps ->
     NoDup (Heap.sparse_footprint h p) /\
     (c ∉ Heap.sparse_footprint h p) /\ (vectors ∉ Heap.sparse_footprint h p)) /\
  (forall p q, p ∈ ps -> q ∈ ps -> p <> q ->
     forall l, l ∈ Heap.sparse_footprint h q -> l ∉ Heap.sparse_footprint h p).

(** a heap with the vectors [example_sparse] at address 4 and [example_that]
    at address 8, and at address 10 a collection with the members 4, 8 and
    4 again *)
Definition example_collection : gmap Heap.loc (Heap.block Z) :=
  list_to_map
    [ (1%positive, Heap.IntArray [-1; 0; -1; 1; 2]);
      (2%positive, Heap.IntArray [1; 3; 4; 0; 0]);
      (3%positive, Heap.ValArray [20; 40; 7; 0; 0]);
      (4%positive, Heap.SparseObject 5 5 3 1%positive 2%positive 3%positive);
      (5%positive, Heap.IntArray [-1; -1; -1; 0; -1]);
      (6%positive, Heap.IntArray [3]);
      (7%positive, Heap.ValArray [40]);
      (8%positive, Heap.SparseObject 5 1 1 5%positive 6%positive 7%positive);
      (9%positive, Heap.PointerVector [4%positive; 8%positive; 4%positive]);
      (10%positive, Heap.SparseVectorsObject 9%positive) ].

(** ** Example vectors at [double] *)




(** dimension 1, the entry 0 ↦ 1 *)
Definition double_one : Sparse.SparseVector float :=
  Sparse.mkSparse 1 1 1 [0] [0] [1%float].

(** dimension 1, the entry 0 ↦ 2^54 *)
Definition double_big : Sparse.SparseVector float :=
  Sparse.mkSparse 1 1 1 [0] [0] [0x1p54%float].
(** * Properties *)

(** ** Raw arrays *)

Section Arrays.
Context {A : Type}.
Implicit Types (a : list A) (i j : Z) (x : A).

Lemma zlookup_Some_lt a i x :
  zlookup a i = Some x -> 0 <= i < Z.of_nat (length a).
Proof.
  unfold zlookup. case_bool_decide; [|done].
  intros Hx%lookup_lt_Some. lia.
Qed.

Lemma zlookup_lt_Some a i :
  0 <= i < Z.of_nat (length a) -> exists x, zlookup a i = Some x.
Proof.
  intros Hi. unfold zlookup. rewrite bool_decide_eq_true_2 by lia.
  destruct (lookup_lt_is_Some_2 a (Z.to_nat i)) as [x Hx]; [lia|eauto].
Qed.

Lemma zlookup_None a i :
  ~ (0 <= i < Z.of_nat (length a)) -> zlookup a i = None.
Proof.
  intros Hi. destruct (zlookup a i) as [x|] eqn:Hx; [|done].
  apply zlookup_Some_lt in Hx. lia.
Qed.

Lemma zlookup_insert a i j x :
  0 <= i < Z.of_nat (length a) ->
  zlookup (<[Z.to_nat i := x]> a) j = if decide (j = i) then Some x else zlookup a j.
Proof.
  intros Hi. unfold zlookup. case_decide as Hij.
  - subst j. rewrite bool_decide_eq_true_2 by lia.
    apply list_lookup_insert_eq. lia.
  - case_bool_decide; [|done]. apply list_lookup_insert_ne. lia.
Qed.

Lemma zlookup_app_l a a' i :
  i < Z.of_nat (length a) -> zlookup (a ++ a') i = zlookup a i.
Proof.
  intros Hi. unfold zlookup. case_bool_decide; [|done].
  apply lookup_app_l. lia.
Qed.

Lemma zlookup_take a (n : nat) i :
  i < Z.of_nat n -> zlookup (take n a) i = zlookup a i.
Proof.
  intros Hi. unfold zlookup. case_bool_decide; [|done].
  apply lookup_take_lt. lia.
Qed.

Lemma zlookup_ext a a' :
  length a = length a' -> (forall i, zlookup a i = zlookup a' i) -> a = a'.
Proof.
  intros Hlen Hi. apply list_eq. intros n.
  specialize (Hi (Z.of_nat n)). unfold zlookup in Hi.
  rewrite bool_decide_eq_true_2 in Hi by lia. by rewrite Nat2Z.id in Hi.
Qed.

Lemma rd_Ok a i x : zlookup a i = Some x -> rd a i = Ok x.
Proof. unfold rd. by intros ->. Qed.

Lemma rd_Ok_inv a i x : rd a i = Ok x -> zlookup a i = Some x.
Proof. unfold rd. by destruct (zlookup a i); intros [= ->]. Qed.

Lemma wr_Ok a i x :
  0 <= i < Z.of_nat (length a) -> wr a i x = Ok (<[Z.to_nat i := x]> a).
Proof. intros Hi. unfold wr. by rewrite bool_decide_eq_true_2. Qed.

Lemma wr_Ok_inv a i x a' :
  wr a i x = Ok a' ->
  0 <= i < Z.of_nat (length a) /\ a' = <[Z.to_nat i := x]> a.
Proof. unfold wr. case_bool_decide; [|done]. by intros [= <-]. Qed.

End Arrays.

Section ArrayOps.
Context {A : Type}.
Implicit Types (a : list A) (x : A).

Lemma new_array_Ok x n :
  0 <= n -> new_array x n = Ok (replicate (Z.to_nat n) x).
Proof. intros Hn. unfold new_array. by rewrite bool_decide_eq_true_2. Qed.

Lemma copy_into_Ok (src dst : list A) n :
  n = Z.of_nat (length src) -> n <= Z.of_nat (length dst) ->
  copy_into src n dst = Ok (src ++ drop (Z.to_nat n) dst).
Proof.
  intros -> Hn. unfold copy_into. case_bool_decide as H0.
  - destruct src; simpl in *; [done|lia].
  - rewrite bool_decide_eq_true_2 by lia.
    by rewrite Nat2Z.id, firstn_all.
Qed.

Lemma fill_Ok a from to x :
  0 <= from <= to -> to = Z.of_nat (length a) ->
  fill a from to x =
    Ok (take (Z.to_nat from) a ++ replicate (Z.to_nat (to - from)) x).
Proof.
  intros Hft ->. unfold fill. case_bool_decide as H0.
  - assert (from = Z.of_nat (length a)) as -> by lia.
    rewrite Z.sub_diag, Nat2Z.id, firstn_all. simpl. by rewrite app_nil_r.
  - rewrite bool_decide_eq_true_2 by lia.
    rewrite Nat2Z.id, drop_all. by rewrite app_nil_r.
Qed.

(** [new], [std::copy] of the old cells and [std::fill] of the rest: the old
    array, extended *)
Lemma grown_array a x (len newCapacity : Z) :
  len = Z.of_nat (length a) -> len <= newCapacity ->
  take (Z.to_nat len) (a ++ drop (Z.to_nat len) (replicate (Z.to_nat newCapacity) x))
    ++ replicate (Z.to_nat (newCapacity - len)) x
  = a ++ replicate (Z.to_nat (newCapacity - len)) x.
Proof.
  intros -> Hle. rewrite Nat2Z.id. by rewrite take_app_length.
Qed.

End ArrayOps.


(** ** The sparse representation *)

Section SparseFacts.
Import Sparse.
Context {T : Type} `{Scalar T}.
Implicit Types (s : SparseVector T) (k p i j index position : Z) (v value : T).

Lemma shape_zlookup_ai s i :
  shape s -> 0 <= i < nbActive s -> exists k, zlookup (activeIndexes s) i = Some k.
Proof. intros [] Hi. apply zlookup_lt_Some. lia. Qed.

Lemma shape_zlookup_vs s i :
  shape s -> 0 <= i < nbActive s -> exists v, zlookup (values s) i = Some v.
Proof. intros [] Hi. apply zlookup_lt_Some. lia. Qed.

(** two positions of the active arrays that hold the same index are equal *)
Lemma index_position_inj s i j k :
  index_position_inv s ->
  0 <= i < nbActive s -> 0 <= j < nbActive s ->
  zlookup (activeIndexes s) i = Some k -> zlookup (activeIndexes s) j = Some k ->
  i = j.
Proof.
  intros Hinv Hi Hj Hik Hjk.
  destruct (Hinv i Hi) as (k1 & Hk1 & Hp1).
  destruct (Hinv j Hj) as (k2 & Hk2 & Hp2).
  congruence.
Qed.

Lemma swapEntry_Ok s pA pB iA iB vA vB :
  zlookup (activeIndexes s) pA = Some iA ->
  zlookup (values s) pA = Some vA ->
  zlookup (activeIndexes s) pB = Some iB ->
  zlookup (values s) pB = Some vB ->
  0 <= iA < Z.of_nat (length (indexesPosition s)) ->
  0 <= iB < Z.of_nat (length (indexesPosition s)) ->
  swapEntry s pA pB =
    Ok (mkSparse (indexesPositionLength s) (activeIndexesLength s) (nbActive s)
          (<[Z.to_nat iB := pA]> (<[Z.to_nat iA := pB]> (indexesPosition s)))
          (<[Z.to_nat pB := iA]> (<[Z.to_nat pA := iB]> (activeIndexes s)))
          (<[Z.to_nat pB := vA]> (<[Z.to_nat pA := vB]> (values s)))).
Proof.
  intros HiA HvA HiB HvB HA HB. unfold swapEntry.
  rewrite (rd_Ok _ _ _ HiA), (rd_Ok _ _ _ HvA), (rd_Ok _ _ _ HiB), (rd_Ok _ _ _ HvB).
  apply zlookup_Some_lt in HiA, HvA, HiB, HvB.
  simpl. rewrite !wr_Ok; simpl; rewrite ?length_insert; try lia.
  rewrite !wr_Ok; simpl; rewrite ?length_insert; try lia.
  done.
Qed.

(** What the swap-remove does to the three arrays. *)
Lemma removeEntry_at_spec s p index k v :
  shape s -> index_position_inv s ->
  0 <= p < nbActive s ->
  zlookup (activeIndexes s) p = Some k ->
  zlookup (values s) p = Some v ->
  exists s' iA vA,
    removeEntry_at s p index = Ok s' /\
    zlookup (activeIndexes s) (nbActive s - 1) = Some iA /\
    zlookup (values s) (nbActive s - 1) = Some vA /\
    indexesPositionLength s' = indexesPositionLength s /\
    activeIndexesLength s' = activeIndexesLength s /\
    nbActive s' = nbActive s - 1 /\
    length (indexesPosition s') = length (indexesPosition s) /\
    length (activeIndexes s') = length (activeIndexes s) /\
    length (values s') = length (values s) /\
    (forall j, zlookup (indexesPosition s') j =
               if decide (j = k) then Some (-1)
               else if decide (j = iA) then Some p
               else zlookup (indexesPosition s) j) /\
    (forall i, zlookup (activeIndexes s') i =
               if decide (i = nbActive s - 1) then Some k
               else if decide (i = p) then Some iA
               else zlookup (activeIndexes s) i) /\
    (forall i, zlookup (values s') i =
               if decide (i = nbActive s - 1) then Some v
               else if decide (i = p) then Some vA
               else zlookup (values s) i).
Proof.
  intros Hsh Hinv Hp Hk Hv.
  destruct (shape_zlookup_ai s (nbActive s - 1) Hsh) as [iA HiA]; [lia|].
  destruct (shape_zlookup_vs s (nbActive s - 1) Hsh) as [vA HvA]; [lia|].
  destruct (Hinv p Hp) as (k' & Hk' & Hpk). rewrite Hk in Hk'. injection Hk' as <-.
  destruct (Hinv (nbActive s - 1)) as (iA' & HiA' & HpA); [lia|].
  rewrite HiA in HiA'. injection HiA' as <-.
  pose proof (zlookup_Some_lt _ _ _ Hpk) as Hkr.
  pose proof (zlookup_Some_lt _ _ _ HpA) as HAr.
  pose proof (zlookup_Some_lt _ _ _ Hk) as Hpr.
  pose proof (zlookup_Some_lt _ _ _ HiA) as Hnr.
  pose proof (zlookup_Some_lt _ _ _ Hv) as Hpv.
  pose proof (zlookup_Some_lt _ _ _ HvA) as Hnv.
  eexists _, iA, vA. unfold removeEntry_at.
  rewrite (swapEntry_Ok s _ _ iA k vA v) by done. simpl.
  assert (Hlast : zlookup (<[Z.to_nat p:=iA]> (<[Z.to_nat (nbActive s - 1):=k]> (activeIndexes s)))
                    (nbActive s - 1) = Some k).
  { rewrite !zlookup_insert by (rewrite ?length_insert; lia).
    repeat case_decide; congruence. }
  rewrite (rd_Ok _ _ _ Hlast). simpl.
  rewrite wr_Ok by (rewrite !length_insert; lia). simpl.
  split; [reflexivity|]. simpl. rewrite !length_insert.
  repeat split; try done.
  - intros j. rewrite !zlookup_insert by (rewrite ?length_insert; lia).
    repeat case_decide; congruence.
  - intros i. rewrite !zlookup_insert by (rewrite ?length_insert; lia).
    repeat case_decide; congruence.
  - intros i. rewrite !zlookup_insert by (rewrite ?length_insert; lia).
    repeat case_decide; congruence.
Qed.

Lemma elem_of_active_pairs s j v :
  (j, v) ∈ active_pairs s <->
  exists i, 0 <= i < nbActive s /\
            zlookup (activeIndexes s) i = Some j /\ zlookup (values s) i = Some v.
Proof.
  unfold active_pairs. rewrite list_elem_of_lookup. split.
  - intros (n & Hn). apply lookup_zip_with_Some in Hn as (j' & v' & [= <- <-] & Hj & Hv).
    apply lookup_take_Some in Hj as [Hj Hlt]. apply lookup_take_Some in Hv as [Hv _].
    exists (Z.of_nat n). unfold zlookup.
    rewrite bool_decide_eq_true_2 by lia. rewrite Nat2Z.id. split; [lia|done].
  - intros (i & Hi & Hj & Hv). exists (Z.to_nat i).
    apply lookup_zip_with_Some. exists j, v. unfold zlookup in Hj, Hv.
    rewrite bool_decide_eq_true_2 in Hj, Hv by lia.
    split; [done|]. split; apply lookup_take_Some; (split; [done|lia]).
Qed.

Lemma removeEntry_at_shape s p index s' :
  shape s -> index_position_inv s -> 0 <= p < nbActive s ->
  removeEntry_at s p index = Ok s' -> shape s'.
Proof.
  intros Hsh Hinv Hp Hrm.
  destruct (shape_zlookup_ai s p Hsh Hp) as [k Hk].
  destruct (shape_zlookup_vs s p Hsh Hp) as [v Hv].
  destruct (removeEntry_at_spec s p index k v) as
    (s2 & iA & vA & Hs2 & _ & _ & Hd & Hc & Hn & Hlp & Hla & Hlv & _); try done.
  rewrite Hrm in Hs2. injection Hs2 as <-.
  destruct Hsh. split; rewrite ?Hd, ?Hc, ?Hn, ?Hlp, ?Hla, ?Hlv; try done. lia.
Qed.

Lemma removeEntry_at_index_position s p index s' :
  shape s -> index_position_inv s -> 0 <= p < nbActive s ->
  removeEntry_at s p index = Ok s' -> index_position_inv s'.
Proof.
  intros Hsh Hinv Hp Hrm.
  destruct (shape_zlookup_ai s p Hsh Hp) as [k Hk].
  destruct (shape_zlookup_vs s p Hsh Hp) as [v Hv].
  destruct (removeEntry_at_spec s p index k v) as
    (s2 & iA & vA & Hs2 & HiA & _ & _ & _ & Hn & _ & _ & _ & Hpos & Hact & _); try done.
  rewrite Hrm in Hs2. injection Hs2 as <-.
  intros i Hi. rewrite Hn in Hi. rewrite Hact.
  destruct (Hinv i) as (ki & Hki & Hpi); [lia|].
  rewrite decide_False by lia. case_decide as Hip.
  - subst i. exists iA. split; [done|]. rewrite Hpos.
    rewrite decide_False, decide_True; [done..|].
    intros Heq. subst iA. assert (nbActive s - 1 = p); [|lia].
    apply (index_position_inj s _ _ k); auto; lia.
  - exists ki. split; [done|]. rewrite Hpos, Hpi.
    rewrite !decide_False; [done|..].
    + intros Heq. subst ki. assert (i = nbActive s - 1); [|lia].
      apply (index_position_inj s _ _ iA); auto; lia.
    + intros Heq. subst ki. apply Hip.
      apply (index_position_inj s _ _ k); auto; lia.
Qed.

Lemma removeEntry_at_position_index s p index s' :
  wf s -> 0 <= p < nbActive s ->
  removeEntry_at s p index = Ok s' -> position_index_inv s'.
Proof.
  intros [Hsh Hinv Hpinv] Hp Hrm.
  destruct (shape_zlookup_ai s p Hsh Hp) as [k Hk].
  destruct (shape_zlookup_vs s p Hsh Hp) as [v Hv].
  destruct (removeEntry_at_spec s p index k v) as
    (s2 & iA & vA & Hs2 & HiA & _ & _ & _ & Hn & _ & _ & _ & Hpos & Hact & _); try done.
  rewrite Hrm in Hs2. injection Hs2 as <-.
  intros j q. rewrite Hpos, Hn. repeat case_decide.
  - intros [= <-]. by left.
  - intros [= <-]. right.
    assert (p <> nbActive s - 1) as Hne.
    { intros Heq. rewrite Heq in Hk. congruence. }
    split; [lia|]. rewrite Hact.
    rewrite decide_False, decide_True by done. congruence.
  - intros Hq. destruct (Hpinv j q Hq) as [->|[Hqr Hqj]]; [by left|right].
    assert (q <> p) by congruence.
    assert (q <> nbActive s - 1) by congruence.
    split; [lia|]. rewrite Hact. by rewrite !decide_False.
Qed.

Lemma removeEntry_at_wf s p index s' :
  wf s -> 0 <= p < nbActive s -> removeEntry_at s p index = Ok s' -> wf s'.
Proof.
  intros Hwf Hp Hrm. pose proof Hwf as [Hsh Hinv Hpinv]. split.
  - eapply removeEntry_at_shape; eauto.
  - eapply removeEntry_at_index_position; eauto.
  - eapply removeEntry_at_position_index; eauto.
Qed.

(** *** Reading an entry *)

Lemma getEntry_absent s k :
  zlookup (indexesPosition s) k = Some (-1) -> getEntry s k = Ok szero.
Proof. intros Hk. unfold getEntry. by rewrite (rd_Ok _ _ _ Hk). Qed.

Lemma getEntry_active s k p v :
  zlookup (indexesPosition s) k = Some p -> p <> -1 ->
  zlookup (values s) p = Some v -> getEntry s k = Ok v.
Proof.
  intros Hk Hp Hv. unfold getEntry. rewrite (rd_Ok _ _ _ Hk). simpl.
  rewrite bool_decide_eq_true_2 by done. by apply rd_Ok.
Qed.

Lemma getEntry_eq s s' j :
  zlookup (indexesPosition s') j = zlookup (indexesPosition s) j ->
  (forall q, zlookup (indexesPosition s) j = Some q -> q <> -1 ->
             zlookup (values s') q = zlookup (values s) q) ->
  getEntry s' j = getEntry s j.
Proof.
  intros Hpos Hval. unfold getEntry, rd at 1 3. rewrite Hpos.
  destruct (zlookup (indexesPosition s) j) as [q|] eqn:Hq; [|done]. simpl.
  case_bool_decide; [|done]. unfold rd. by rewrite Hval.
Qed.

Lemma getEntry_wf s k :
  wf s -> 0 <= k < dimension s -> getEntry s k = Ok (entry s k).
Proof.
  intros [Hsh Hinv Hpinv] Hk. unfold entry.
  destruct (zlookup_lt_Some (indexesPosition s) k) as [p Hp].
  { destruct Hsh. unfold dimension in Hk. lia. }
  destruct (Hpinv k p Hp) as [->|[Hpr Hpk]].
  - by rewrite (getEntry_absent s k Hp).
  - destruct (shape_zlookup_vs s p Hsh Hpr) as [v Hv].
    rewrite (getEntry_active s k p v); [done..|lia|done].
Qed.

Lemma getEntry_entry s k v : getEntry s k = Ok v -> entry s k = v.
Proof. unfold entry. by intros ->. Qed.

(** *** Removing an entry *)

Lemma removeEntry_at_getEntry s p index k s' :
  wf s -> 0 <= p < nbActive s ->
  zlookup (activeIndexes s) p = Some k ->
  removeEntry_at s p index = Ok s' ->
  zlookup (indexesPosition s') k = Some (-1) /\
  forall j, j <> k -> getEntry s' j = getEntry s j.
Proof.
  intros [Hsh Hinv Hpinv] Hp Hk Hrm.
  destruct (shape_zlookup_vs s p Hsh Hp) as [v Hv].
  destruct (removeEntry_at_spec s p index k v) as
    (s2 & iA & vA & Hs2 & HiA & HvA & _ & _ & Hn & _ & _ & _ & Hpos & Hact & Hval);
    try done.
  rewrite Hrm in Hs2. injection Hs2 as <-.
  split. { rewrite Hpos. by rewrite decide_True. }
  intros j Hj.
  destruct (Hinv (nbActive s - 1)) as (iA' & HiA' & HpA); [lia|].
  rewrite HiA in HiA'. injection HiA' as <-.
  destruct (decide (j = iA)) as [->|HjA].
  - assert (p <> nbActive s - 1) as Hne.
    { intros Heq. rewrite Heq in Hk. congruence. }
    rewrite (getEntry_active s iA (nbActive s - 1) vA) by (done || lia).
    apply (getEntry_active s' iA p vA); [|lia|].
    + rewrite Hpos. by rewrite decide_False, decide_True.
    + rewrite Hval. by rewrite decide_False, decide_True.
  - apply getEntry_eq.
    + rewrite Hpos. by rewrite !decide_False.
    + intros q Hq Hq1. destruct (Hpinv j q Hq) as [?|[Hqr Hqj]]; [done|].
      rewrite Hval. rewrite !decide_False; [done|..]; congruence.
Qed.

Lemma removeEntry_spec s k :
  wf s -> 0 <= k < dimension s ->
  exists s',
    removeEntry s k = Ok s' /\ wf s' /\ dimension s' = dimension s /\
    zlookup (indexesPosition s') k = Some (-1) /\
    (forall j, j <> k -> getEntry s' j = getEntry s j) /\
    nbActive s' <= nbActive s.
Proof.
  intros Hwf Hk. pose proof Hwf as [Hsh Hinv Hpinv].
  destruct (zlookup_lt_Some (indexesPosition s) k) as [p Hp].
  { destruct Hsh. unfold dimension in Hk. lia. }
  unfold removeEntry. rewrite (rd_Ok _ _ _ Hp). simpl.
  destruct (Hpinv k p Hp) as [->|[Hpr Hpk]].
  - exists s. rewrite bool_decide_eq_false_2 by lia. split_and!; done.
  - rewrite bool_decide_eq_true_2 by lia.
    destruct (shape_zlookup_vs s p Hsh Hpr) as [v Hv].
    destruct (removeEntry_at_spec s p k k v) as
      (s' & iA & vA & Hs' & _ & _ & Hd & _ & Hn & _); try done.
    exists s'. split; [done|].
    destruct (removeEntry_at_getEntry s p k k s') as [Habs Hoth]; try done.
    split_and!; try done.
    + eapply removeEntry_at_wf; eauto.
    + lia.
Qed.

(** *** Growing the active arrays *)

Lemma allocate_spec s n :
  shape s ->
  exists s',
    allocate s n = Ok s' /\ shape s' /\
    indexesPositionLength s' = indexesPositionLength s /\
    nbActive s' = nbActive s /\
    indexesPosition s' = indexesPosition s /\
    n <= activeIndexesLength s' /\
    (forall i, i < activeIndexesLength s ->
               zlookup (activeIndexes s') i = zlookup (activeIndexes s) i) /\
    (forall i, i < activeIndexesLength s ->
               zlookup (values s') i = zlookup (values s) i).
Proof.
  intros Hsh. pose proof Hsh as [Hip Hai Hvs Hnb]. unfold allocate.
  case_bool_decide as Hn.
  { exists s. split_and!; try done. lia. }
  set (newCapacity := (n * 3) `quot` 2 + 1).
  assert (n < newCapacity) as Hcap.
  { unfold newCapacity. Z.to_euclidean_division_equations. lia. }
  rewrite !new_array_Ok by lia. simpl.
  rewrite copy_into_Ok by (rewrite ?length_replicate; lia). simpl.
  rewrite fill_Ok by (rewrite ?length_app, ?length_drop, ?length_replicate; lia).
  simpl.
  rewrite copy_into_Ok by (rewrite ?length_replicate; lia). simpl.
  rewrite fill_Ok by (rewrite ?length_app, ?length_drop, ?length_replicate; lia).
  simpl. rewrite !grown_array by lia.
  eexists. split; [reflexivity|]. simpl. split_and!; try done; try lia.
  - split; simpl; rewrite ?length_app, ?length_replicate; lia.
  - intros i Hi. apply zlookup_app_l. lia.
  - intros i Hi. apply zlookup_app_l. lia.
Qed.

(** *** Appending an entry *)

Lemma appendEntry_spec s k v :
  shape s -> 0 <= k < dimension s ->
  exists s',
    appendEntry s k v = Ok s' /\ shape s' /\
    indexesPositionLength s' = indexesPositionLength s /\
    nbActive s' = nbActive s + 1 /\
    (forall j, zlookup (indexesPosition s') j =
               if decide (j = k) then Some (nbActive s)
               else zlookup (indexesPosition s) j) /\
    zlookup (activeIndexes s') (nbActive s) = Some k /\
    zlookup (values s') (nbActive s) = Some v /\
    (forall i, i < nbActive s ->
               zlookup (activeIndexes s') i = zlookup (activeIndexes s) i) /\
    (forall i, i < nbActive s ->
               zlookup (values s') i = zlookup (values s) i).
Proof.
  intros Hsh Hk. unfold appendEntry.
  destruct (allocate_spec s (nbActive s + 1) Hsh) as
    (s1 & -> & Hsh1 & Hd & Hn & Hp & Hcap & Hact & Hval).
  pose proof Hsh as [Hip Hai Hvs Hnb]. pose proof Hsh1 as [Hip1 Hai1 Hvs1 Hnb1].
  unfold dimension in Hk. simpl.
  rewrite !wr_Ok by lia. simpl.
  eexists. split; [reflexivity|]. simpl. split_and!; try done; try lia.
  - split; simpl; rewrite ?length_insert; lia.
  - intros j. rewrite zlookup_insert by lia. rewrite Hn, Hp. done.
  - rewrite zlookup_insert by lia. by rewrite decide_True.
  - rewrite zlookup_insert by lia. by rewrite decide_True.
  - intros i Hi. rewrite zlookup_insert by lia. rewrite decide_False by lia.
    apply Hact. lia.
  - intros i Hi. rewrite zlookup_insert by lia. rewrite decide_False by lia.
    apply Hval. lia.
Qed.

Lemma appendEntry_wf s k v s' :
  wf s -> 0 <= k < dimension s ->
  zlookup (indexesPosition s) k = Some (-1) ->
  appendEntry s k v = Ok s' ->
  wf s' /\ getEntry s' k = Ok v /\
  forall j, j <> k -> getEntry s' j = getEntry s j.
Proof.
  intros [Hsh Hinv Hpinv] Hk Habs Happ.
  destruct (appendEntry_spec s k v Hsh Hk) as
    (s2 & Hs2 & Hsh' & Hd & Hn & Hpos & Hak & Hvk & Hact & Hval).
  rewrite Happ in Hs2. injection Hs2 as <-.
  pose proof Hsh as [Hip Hai Hvs Hnb].
  split_and!.
  - split; [done|..].
    + intros i Hi. rewrite Hn in Hi. destruct (decide (i = nbActive s)) as [->|Hne].
      * exists k. split; [done|]. rewrite Hpos. by rewrite decide_True.
      * destruct (Hinv i) as (ki & Hki & Hpi); [lia|]. exists ki.
        rewrite Hact by lia. split; [done|]. rewrite Hpos.
        rewrite decide_False; [done|]. intros ->. rewrite Habs in Hpi.
        injection Hpi as <-. lia.
    + intros j q. rewrite Hpos, Hn. case_decide as Hjk.
      * intros [= <-]. right. subst j. split; [lia|done].
      * intros Hq. destruct (Hpinv j q Hq) as [->|[Hqr Hqj]]; [by left|right].
        split; [lia|]. rewrite Hact by lia. done.
  - apply (getEntry_active s' k (nbActive s) v); [|lia|done].
    rewrite Hpos. by rewrite decide_True.
  - intros j Hj. apply getEntry_eq.
    + rewrite Hpos. by rewrite decide_False.
    + intros q Hq Hq1. destruct (Hpinv j q Hq) as [?|[Hqr Hqj]]; [done|].
      apply Hval. lia.
Qed.

(** *** Overwriting an entry *)

Lemma updateEntry_wf s k v p s' :
  wf s -> zlookup (indexesPosition s) k = Some p -> p <> -1 ->
  updateEntry s k v p = Ok s' ->
  wf s' /\ getEntry s' k = Ok v /\
  (forall j, j <> k -> getEntry s' j = getEntry s j) /\
  nbActive s' = nbActive s /\ dimension s' = dimension s.
Proof.
  intros [Hsh Hinv Hpinv] Hp Hp1. unfold updateEntry.
  destruct (Hpinv k p Hp) as [?|[Hpr Hpk]]; [done|].
  pose proof Hsh as [Hip Hai Hvs Hnb].
  rewrite wr_Ok by lia. simpl. intros [= <-]. split_and!; try done.
  - split; [|done..]. split; simpl; rewrite ?length_insert; done.
  - apply (getEntry_active _ k p v); [done..|]. simpl.
    rewrite zlookup_insert by lia. by rewrite decide_True.
  - intros j Hj. apply getEntry_eq; [done|]. simpl. intros q Hq Hq1.
    rewrite zlookup_insert by lia. rewrite decide_False; [done|].
    intros ->. destruct (Hpinv j p Hq) as [?|[_ Hpj]]; congruence.
Qed.

(** *** [setNonZeroEntry] and [setEntry] *)

Lemma setNonZeroEntry_spec s k v :
  wf s -> 0 <= k < dimension s ->
  exists s',
    setNonZeroEntry s k v = Ok s' /\ wf s' /\ dimension s' = dimension s /\
    getEntry s' k = Ok v /\
    (forall j, j <> k -> getEntry s' j = getEntry s j) /\
    nbActive s <= nbActive s' <= nbActive s + 1.
Proof.
  intros Hwf Hk. pose proof Hwf as [Hsh Hinv Hpinv].
  destruct (zlookup_lt_Some (indexesPosition s) k) as [p Hp].
  { destruct Hsh. unfold dimension in Hk. lia. }
  unfold setNonZeroEntry. rewrite (rd_Ok _ _ _ Hp). simpl.
  case_bool_decide as Hp1.
  - destruct (Hpinv k p Hp) as [?|[Hpr Hpk]]; [done|].
    destruct (updateEntry s k v p) as [s'| | | | |] eqn:Hup;
      try (unfold updateEntry in Hup; rewrite wr_Ok in Hup by (destruct Hsh; lia);
           discriminate).
    destruct (updateEntry_wf s k v p s') as (? & ? & ? & ? & ?); try done.
    exists s'. split_and!; try done; lia.
  - assert (p = -1) as -> by lia. unfold insertEntry.
    destruct (appendEntry_spec s k v Hsh Hk) as (s' & Hs' & _ & Hd & Hn & _).
    destruct (appendEntry_wf s k v s') as (? & ? & ?); try done.
    exists s'. split_and!; try done; lia.
Qed.

Lemma setEntry_nonzero s k v :
  is_zero v = false -> setEntry s k v = setNonZeroEntry s k v.
Proof. unfold setEntry. by intros ->. Qed.

Lemma setEntry_zero s k v :
  is_zero v = true -> setEntry s k v = removeEntry s k.
Proof. unfold setEntry. by intros ->. Qed.

(** *** The checked invariants imply the invariants *)

Lemma wfb_sound s : wfb s = true -> wf s.
Proof.
  unfold wfb, shapeb. rewrite !andb_true_iff, !bool_decide_eq_true.
  intros [[[[[Hip Hai] Hvs] Hnb] Hinv] Hpinv]. split.
  - by split.
  - intros i Hi. unfold index_position_invb in Hinv.
    rewrite forallb_forall in Hinv. specialize (Hinv i).
    destruct (zlookup (activeIndexes s) i) as [k|].
    + exists k. split; [done|]. eapply bool_decide_eq_true_1, Hinv.
      apply list_elem_of_In, elem_of_seqZ. lia.
    + exfalso. assert (false = true); [|done]. apply Hinv.
      apply list_elem_of_In, elem_of_seqZ. lia.
  - intros k p Hk. unfold position_index_invb in Hpinv.
    rewrite forallb_forall in Hpinv. specialize (Hpinv k).
    rewrite Hk in Hpinv. apply zlookup_Some_lt in Hk.
    rewrite orb_true_iff, andb_true_iff, !bool_decide_eq_true in Hpinv.
    apply Hpinv. apply list_elem_of_In, elem_of_seqZ. lia.
Qed.

End SparseFacts.

Section InsertFacts.
Import Sparse.
Context {T : Type} `{Scalar T}.
Implicit Types (s : SparseVector T) (k p i j index position : Z) (v value : T).
Implicit Types (l : list (Z * T)).

Lemma take_zlookup_ext {A} (a a' : list A) (n : Z) :
  0 <= n <= Z.of_nat (length a) -> n <= Z.of_nat (length a') ->
  (forall i, i < n -> zlookup a' i = zlookup a i) ->
  take (Z.to_nat n) a' = take (Z.to_nat n) a.
Proof.
  intros Hn Hn' Hi. apply zlookup_ext.
  - rewrite !length_take. lia.
  - intros i. destruct (decide (i < n)).
    + rewrite !zlookup_take by lia. by apply Hi.
    + rewrite !zlookup_None; [done|rewrite length_take; lia..].
Qed.

Lemma take_succ_zlookup {A} (a : list A) (n : Z) x :
  0 <= n -> zlookup a n = Some x ->
  take (Z.to_nat (n + 1)) a = take (Z.to_nat n) a ++ [x].
Proof.
  intros Hn Hx. unfold zlookup in Hx. rewrite bool_decide_eq_true_2 in Hx by done.
  replace (Z.to_nat (n + 1)) with (S (Z.to_nat n)) by lia. by apply take_S_r.
Qed.

Lemma appendEntry_active_pairs s k v s' :
  shape s -> 0 <= k < dimension s -> appendEntry s k v = Ok s' ->
  active_pairs s' = active_pairs s ++ [(k, v)].
Proof.
  intros Hsh Hk Happ.
  destruct (appendEntry_spec s k v Hsh Hk) as
    (s2 & Hs2 & Hsh' & Hd & Hn & Hpos & Hak & Hvk & Hact & Hval).
  rewrite Happ in Hs2. injection Hs2 as <-.
  pose proof Hsh as [Hip Hai Hvs Hnb]. pose proof Hsh' as [Hip' Hai' Hvs' Hnb'].
  unfold active_pairs. rewrite Hn.
  rewrite (take_succ_zlookup _ _ k), (take_succ_zlookup _ _ v) by (done || lia).
  rewrite (take_zlookup_ext (activeIndexes s) (activeIndexes s')) by (done || lia).
  rewrite (take_zlookup_ext (values s) (values s')) by (done || lia).
  rewrite zip_with_app; [done|]. rewrite !length_take. lia.
Qed.

Lemma insert_all_spec l : forall s,
  shape s -> Forall (fun kv => 0 <= kv.1 < dimension s) l ->
  exists s',
    insert_all s l = Ok s' /\ shape s' /\
    dimension s' = dimension s /\
    nbActive s' = nbActive s + Z.of_nat (length l) /\
    active_pairs s' = active_pairs s ++ l /\
    (forall i, i < nbActive s ->
               zlookup (activeIndexes s') i = zlookup (activeIndexes s) i) /\
    (forall j, j ∉ l.*1 ->
               zlookup (indexesPosition s') j = zlookup (indexesPosition s) j) /\
    (forall j, j ∈ l.*1 ->
               exists q, zlookup (indexesPosition s') j = Some q /\ nbActive s <= q).
Proof.
  induction l as [|[k v] l IH]; intros s Hsh Hl.
  - exists s. simpl. rewrite app_nil_r. split_and!; try done; try lia.
    intros j Hj. by apply elem_of_nil in Hj.
  - apply Forall_cons in Hl as [Hk Hl]. simpl in Hk. simpl. unfold insertEntry.
    destruct (appendEntry_spec s k v Hsh Hk) as
      (s1 & Hs1 & Hsh1 & Hd1 & Hn1 & Hpos1 & Hak1 & Hvk1 & Hact1 & Hval1).
    rewrite Hs1. simpl.
    destruct (IH s1 Hsh1) as (s' & Hs' & Hsh' & Hd' & Hn' & Hpairs & Hact' & Hout & Hin).
    { unfold dimension in *. by rewrite Hd1. }
    exists s'. split; [done|]. unfold dimension in *. split_and!; try done.
    + congruence.
    + rewrite Hn', Hn1. simpl. lia.
    + rewrite Hpairs, (appendEntry_active_pairs s k v s1) by done.
      by rewrite <- app_assoc.
    + intros i Hi. rewrite Hact' by lia. by apply Hact1.
    + intros j Hj. apply not_elem_of_cons in Hj as [Hjk Hj].
      rewrite (Hout j Hj), Hpos1. by rewrite decide_False.
    + intros j Hj. destruct (decide (j ∈ l.*1)) as [Hjl|Hjl].
      * destruct (Hin j Hjl) as (q & Hq & Hqn). exists q. split; [done|lia].
      * apply elem_of_cons in Hj as [->|?]; [|done].
        exists (nbActive s). rewrite (Hout k Hjl), Hpos1.
        rewrite decide_True by done. split; [done|lia].
Qed.

(** inserting entries that are absent and distinct keeps the invariants *)
Lemma insert_all_wf l : forall s s',
  wf s -> Forall (fun kv => 0 <= kv.1 < dimension s) l ->
  NoDup l.*1 ->
  (forall j, j ∈ l.*1 -> zlookup (indexesPosition s) j = Some (-1)) ->
  insert_all s l = Ok s' -> wf s'.
Proof.
  induction l as [|[k v] l IH]; intros s s' Hwf Hl Hnd Habs; simpl.
  - by intros [= <-].
  - apply Forall_cons in Hl as [Hk Hl]. simpl in Hk.
    apply NoDup_cons in Hnd as [Hkl Hnd]. unfold insertEntry.
    destruct (appendEntry_spec s k v (wf_shape s Hwf) Hk) as
      (s1 & Hs1 & Hsh1 & Hd1 & Hn1 & Hpos1 & _).
    rewrite Hs1. simpl.
    destruct (appendEntry_wf s k v s1) as (Hwf1 & _); try done.
    { apply Habs. simpl. apply elem_of_cons. by left. }
    apply IH; try done.
    + unfold dimension in *. by rewrite Hd1.
    + intros j Hj. rewrite Hpos1. rewrite decide_False.
      * apply Habs. simpl. apply elem_of_cons. by right.
      * intros ->. done.
Qed.

End InsertFacts.
Section StreamFacts.
Import Sparse.
Context {T : Type} `{Scalar T}.
Implicit Types (s : SparseVector T) (k p i j index position : Z) (v value : T).
Implicit Types (l : list (Z * T)) (w : world T) (f : string).

(** the loops of [persist]: the cells of an array go to the stream, in order *)
Lemma write_loop {A} (g : A -> cell T) (a : list A) (c : nat) : forall i ofs,
  0 <= i -> i + Z.of_nat c <= Z.of_nat (length a) ->
  for_loop c i (fun position ofs => do x <- rd a position ; Ok (ofs ++ [g x])) ofs
  = Ok (ofs ++ (g <$> take c (drop (Z.to_nat i) a))).
Proof.
  induction c as [|c IH]; intros i ofs Hi Hc; simpl.
  - by rewrite app_nil_r.
  - destruct (zlookup_lt_Some a i) as [x Hx]; [lia|].
    rewrite (rd_Ok _ _ _ Hx). simpl. rewrite IH by lia.
    unfold zlookup in Hx. rewrite bool_decide_eq_true_2 in Hx by lia.
    rewrite (drop_S _ _ _ Hx). simpl. rewrite <- app_assoc. simpl.
    by replace (Z.to_nat (i + 1)) with (S (Z.to_nat i)) by lia.
Qed.

Lemma active_pairs_length s :
  shape s -> Z.of_nat (length (active_pairs s)) = nbActive s.
Proof.
  intros [Hip Hai Hvs Hnb]. unfold active_pairs.
  rewrite length_zip_with, !length_take. lia.
Qed.

Lemma active_pairs_fst s :
  shape s -> (active_pairs s).*1 = take (Z.to_nat (nbActive s)) (activeIndexes s).
Proof.
  intros [Hip Hai Hvs Hnb]. unfold active_pairs. apply fst_zip.
  rewrite !length_take. lia.
Qed.

Lemma active_pairs_snd s :
  shape s -> (active_pairs s).*2 = take (Z.to_nat (nbActive s)) (values s).
Proof.
  intros [Hip Hai Hvs Hnb]. unfold active_pairs. apply snd_zip.
  rewrite !length_take. lia.
Qed.

(** [persist] writes the tag, the dimension and the active pairs *)
Lemma persist_writes s f w :
  shape s -> writable w f = true ->
  SparseIO.persist s f w =
    (Ok tt,
     mkWorld (<[f := sparse_stream (dimension s) (active_pairs s)]> (files w))
             (writable w)
             (console w
                ++ [Printf "vectorType=%i capacity=%i nbActive=%i\n"
                      [1; indexesPositionLength s; nbActive s];
                    Cout ("## SparseVector persisted=" ++ f)])).
Proof.
  intros Hsh Hw. pose proof Hsh as [Hip Hai Hvs Hnb].
  unfold SparseIO.persist. rewrite Hw.
  unfold iobind, say, lift, for_upto. simpl.
  rewrite (write_loop CInt) by lia. rewrite (write_loop CVal) by lia.
  unfold print, write_file. simpl. rewrite insert_insert_eq.
  rewrite <- !app_assoc. simpl.
  unfold sparse_stream. rewrite active_pairs_length by done.
  rewrite active_pairs_fst, active_pairs_snd by done. done.
Qed.

(** the first loop of [resurrect] reads the stored indexes *)
Lemma read_indexes_loop (ks : list Z) : forall i (pre : list (option Z)) rest,
  i = Z.of_nat (length pre) ->
  for_loop (length ks) i
    (fun position '(ractiveIndexes, ifs) =>
       let '(index, ifs) := read_int (T:=T) ifs in
       do ractiveIndexes <- wr ractiveIndexes position index ;
       Ok (ractiveIndexes, ifs))
    (pre ++ replicate (length ks) None, (CInt <$> ks) ++ rest)
  = Ok (pre ++ (Some <$> ks), rest).
Proof.
  induction ks as [|k ks IH]; intros i pre rest Hi; simpl.
  - done.
  - rewrite wr_Ok by (rewrite length_app; simpl; lia). simpl.
    replace (Z.to_nat i) with (length pre + 0)%nat by lia.
    rewrite insert_app_r. simpl.
    rewrite !(cons_middle (Some k) pre), !app_assoc.
    apply (IH (i + 1) (pre ++ [Some k]) rest). rewrite length_app. simpl. lia.
Qed.

(** the second loop of [resurrect] inserts the stored pairs *)
Lemma insert_loop (ra : list (option Z)) l : forall i s rest,
  0 <= i ->
  drop (Z.to_nat i) ra = Some <$> l.*1 ->
  for_loop (length l) i
    (fun position '(s, ifs) =>
       let '(rvalue, ifs) := read_val (T:=T) ifs in
       do index <- rd ra position ;
       do index <- use index ;
       do rvalue <- use rvalue ;
       do s <- insertEntry s index rvalue ;
       Ok (s, ifs))
    (s, (CVal <$> l.*2) ++ rest)
  = do s' <- insert_all s l ; Ok (s', rest).
Proof.
  induction l as [|[k v] l IH]; intros i s rest Hi Hra; simpl.
  - done.
  - assert (zlookup ra i = Some (Some k)) as Hk.
    { unfold zlookup. rewrite bool_decide_eq_true_2 by done.
      rewrite <- (Nat.add_0_r (Z.to_nat i)), <- lookup_drop, Hra. done. }
    rewrite (rd_Ok _ _ _ Hk). simpl.
    destruct (insertEntry s k v) as [s1| | | | |]; simpl; try done.
    apply IH; [lia|].
    replace (Z.to_nat (i + 1)) with (Z.to_nat i + 1)%nat by lia.
    rewrite <- drop_drop, Hra. done.
Qed.

(** [resurrect] on a stream that [persist] wrote for the receiver's dimension:
    the stored pairs are inserted into the receiver as it is *)
Lemma resurrect_sparse_stream s f w l :
  files w !! f = Some (sparse_stream (dimension s) l) ->
  SparseIO.resurrect s f w =
    (io! u <- say (Printf "vectorType=%i rcapacity=%i rnbActive=%i\n"
                     [1; dimension s; Z.of_nat (length l)]) ;
     io! s' <- lift (insert_all s l) ;
     io! u <- say (Cout ("## SparseVector resurrected=" ++ f)) ;
     lift (Ok s')) w.
Proof.
  intros Hf. unfold SparseIO.resurrect. rewrite Hf. unfold sparse_stream. simpl.
  unfold iobind at 1 2 3 4 5. unfold lift at 1 2 3 4 5. simpl.
  rewrite !bool_decide_eq_true_2 by done. simpl.
  unfold iobind at 1. unfold say at 1. unfold iobind at 5. unfold say at 2.
  unfold iobind at 1. unfold lift at 1.
  rewrite new_array_Ok by lia. unfold for_upto. rewrite Nat2Z.id.
  unfold iobind at 1. unfold lift at 1.
  pose proof (read_indexes_loop l.*1 0 [] (CVal <$> l.*2)) as Hloop.
  rewrite length_fmap in Hloop. simpl in Hloop. rewrite Hloop by done. clear Hloop.
  pose proof (insert_loop (Some <$> l.*1) l 0 s []) as Hloop.
  rewrite app_nil_r in Hloop. unfold iobind at 1. unfold lift at 1.
  rewrite Hloop by done. clear Hloop.
  destruct (insert_all s l); done.
Qed.

(** a freshly constructed vector *)
Lemma new_wf (capacity activeIndexesLength : Z) :
  0 <= capacity -> 0 <= activeIndexesLength ->
  exists t : SparseVector T,
    new capacity activeIndexesLength = Ok t /\ wf t /\
    dimension t = capacity /\ nbActive t = 0 /\
    forall j, 0 <= j < capacity -> zlookup (indexesPosition t) j = Some (-1).
Proof.
  intros Hc Ha. unfold new. rewrite !new_array_Ok by done. simpl.
  rewrite fill_Ok by (rewrite ?length_replicate; lia). simpl.
  rewrite Z.sub_0_r.
  eexists. split; [reflexivity|].
  assert (forall j p, zlookup (replicate (Z.to_nat capacity) (-1)) j = Some p -> p = -1)
    as Hrep.
  { intros j p. unfold zlookup. case_bool_decide; [|done].
    by intros [-> _]%lookup_replicate. }
  split_and!; try done.
  - split.
    + split; simpl; rewrite ?length_replicate; lia.
    + intros i Hi. simpl in Hi. lia.
    + intros k p Hk. left. eapply Hrep, Hk.
  - intros j Hj. simpl.
    destruct (zlookup_lt_Some (replicate (Z.to_nat capacity) (-1)) j) as [p Hp].
    { rewrite length_replicate. lia. }
    rewrite Hp. f_equal. eapply Hrep, Hp.
Qed.

(** the active pairs of a well-formed vector have distinct, valid indexes *)
Lemma active_pairs_NoDup s :
  shape s -> index_position_inv s -> NoDup (active_pairs s).*1.
Proof.
  intros Hsh Hinv. rewrite active_pairs_fst by done.
  apply NoDup_alt. intros n m k Hn Hm.
  apply lookup_take_Some in Hn as [Hn Hnlt]. apply lookup_take_Some in Hm as [Hm Hmlt].
  assert (Z.of_nat n = Z.of_nat m); [|lia].
  apply (index_position_inj s _ _ k); try done; try lia.
  - unfold zlookup. rewrite bool_decide_eq_true_2 by lia. by rewrite Nat2Z.id.
  - unfold zlookup. rewrite bool_decide_eq_true_2 by lia. by rewrite Nat2Z.id.
Qed.

Lemma active_pairs_in_range s :
  shape s -> index_position_inv s ->
  Forall (fun kv => 0 <= kv.1 < dimension s) (active_pairs s).
Proof.
  intros Hsh Hinv. apply Forall_forall. intros [k v] Hkv. simpl.
  apply elem_of_active_pairs in Hkv as (i & Hi & Hk & _).
  destruct (Hinv i Hi) as (k' & Hk' & Hp). rewrite Hk in Hk'. injection Hk' as <-.
  apply zlookup_Some_lt in Hp. destruct Hsh. unfold dimension. lia.
Qed.

End StreamFacts.
(** ** Sums *)

Section SumFacts.
Context {T : Type} `{ScalarLaws T}.
Implicit Types (x y : T) (l : list T).

Lemma sadd_zero_r x : sadd x szero = x.
Proof. by rewrite sadd_comm, sadd_zero_l. Qed.

Lemma sum_list_app l l' : sum_list (l ++ l') = sadd (sum_list l) (sum_list l').
Proof.
  induction l as [|x l IH]; simpl.
  - by rewrite sadd_zero_l.
  - by rewrite IH, sadd_assoc.
Qed.

Lemma sum_list_perm l l' : l ≡ₚ l' -> sum_list l = sum_list l'.
Proof.
  induction 1 as [|x l l' _ IH|x y l|l l' l'' _ IH1 _ IH2]; simpl.
  - done.
  - by rewrite IH.
  - by rewrite !sadd_assoc, (sadd_comm x y).
  - by rewrite IH1.
Qed.

(** the accumulation [tmp += x] in a loop is the sum *)
Lemma foldl_sum {A} (g : A -> T) (l : list A) : forall acc,
  foldl (fun tmp a => sadd tmp (g a)) acc l = sadd acc (sum_list (g <$> l)).
Proof.
  induction l as [|a l IH]; intros acc; simpl.
  - by rewrite sadd_zero_r.
  - by rewrite IH, sadd_assoc.
Qed.

Lemma sum_list_zero {A} (g : A -> T) (l : list A) :
  (forall a, a ∈ l -> g a = szero) -> sum_list (g <$> l) = szero.
Proof.
  induction l as [|a l IH]; intros Hz; simpl; [done|].
  rewrite Hz by (apply elem_of_cons; by left). rewrite sadd_zero_l.
  apply IH. intros b Hb. apply Hz. apply elem_of_cons. by right.
Qed.

(** a sum over [u] is the sum over a part [ks] of [u] outside of which the
    terms are zero *)
Lemma sum_list_support {A} (g : A -> T) (ks : list A) : forall u,
  NoDup ks -> NoDup u -> ks ⊆ u ->
  (forall a, a ∈ u -> a ∉ ks -> g a = szero) ->
  sum_list (g <$> u) = sum_list (g <$> ks).
Proof.
  induction ks as [|x ks IH]; intros u Hks Hu Hsub Hz.
  - simpl. apply sum_list_zero. intros a Ha. apply Hz; [done|]. apply not_elem_of_nil.
  - apply NoDup_cons in Hks as [Hx Hks].
    assert (x ∈ u) as Hxu by (apply Hsub, elem_of_cons; by left).
    apply elem_of_Permutation in Hxu as [u' Hu'].
    rewrite (sum_list_perm _ _ (fmap_Permutation g _ _ Hu')). simpl. f_equal.
    rewrite Hu' in Hu. apply NoDup_cons in Hu as [Hxu' Hu].
    apply IH; try done.
    + intros a Ha. assert (a ∈ u) as Hau by (apply Hsub, elem_of_cons; by right).
      rewrite Hu' in Hau. apply elem_of_cons in Hau as [->|?]; done.
    + intros a Ha Hna. apply Hz.
      * rewrite Hu'. apply elem_of_cons. by right.
      * intros [->|?]%elem_of_cons; done.
Qed.

End SumFacts.

(** ** The dot product *)

Section DotFacts.
Import Sparse.
Context {T : Type} `{ScalarLaws T}.
Implicit Types (s a b : SparseVector T) (k p i j : Z) (v : T).

Lemma entry_active_pair s k v :
  wf s -> (k, v) ∈ active_pairs s -> entry s k = v /\ 0 <= k < dimension s.
Proof.
  intros [Hsh Hinv Hpinv] (i & Hi & Hk & Hv)%elem_of_active_pairs.
  destruct (Hinv i Hi) as (k' & Hk' & Hp). rewrite Hk in Hk'. injection Hk' as <-.
  split.
  - apply getEntry_entry. apply (getEntry_active s k i v); [done|lia|done].
  - apply zlookup_Some_lt in Hp. destruct Hsh. unfold dimension. lia.
Qed.

Lemma entry_not_active s k :
  wf s -> 0 <= k < dimension s -> k ∉ (active_pairs s).*1 -> entry s k = szero.
Proof.
  intros [Hsh Hinv Hpinv] Hk Hna.
  destruct (zlookup_lt_Some (indexesPosition s) k) as [p Hp].
  { destruct Hsh. unfold dimension in Hk. lia. }
  destruct (Hpinv k p Hp) as [->|[Hpr Hpk]].
  - apply getEntry_entry. by apply getEntry_absent.
  - destruct (shape_zlookup_vs s p Hsh Hpr) as [v Hv].
    exfalso. apply Hna. apply list_elem_of_fmap. exists (k, v). split; [done|].
    apply elem_of_active_pairs. eauto.
Qed.

(** the loop of the private [dot] accumulates over the active pairs *)
Lemma dot_loop a b (c : nat) : forall i tmp,
  shape a ->
  (forall k v, (k, v) ∈ active_pairs a -> getEntry b k = Ok (entry b k)) ->
  0 <= i -> i + Z.of_nat c = nbActive a ->
  for_loop c i
    (fun position tmp =>
       do index <- rd (activeIndexes a) position ;
       do e <- getEntry b index ;
       do v <- rd (values a) position ;
       Ok (sadd tmp (smul e v))) tmp
  = Ok (foldl (fun tmp kv => sadd tmp (smul (entry b kv.1) kv.2)) tmp
          (drop (Z.to_nat i) (active_pairs a))).
Proof.
  induction c as [|c IH]; intros i tmp Hsh Hb Hi Hc; simpl.
  - rewrite drop_ge; [done|]. pose proof (active_pairs_length a Hsh). lia.
  - destruct (shape_zlookup_ai a i Hsh) as [k Hk]; [lia|].
    destruct (shape_zlookup_vs a i Hsh) as [v Hv]; [lia|].
    assert ((k, v) ∈ active_pairs a) as Hkv.
    { apply elem_of_active_pairs. exists i. split; [lia|done]. }
    assert (active_pairs a !! Z.to_nat i = Some (k, v)) as Hlook.
    { unfold active_pairs. apply lookup_zip_with_Some. exists k, v.
      unfold zlookup in Hk, Hv. rewrite bool_decide_eq_true_2 in Hk, Hv by done.
      split; [done|]. split; apply lookup_take_Some; (split; [done|lia]). }
    rewrite (rd_Ok _ _ _ Hk), (rd_Ok _ _ _ Hv). simpl.
    rewrite (Hb k v Hkv). simpl. rewrite IH by (done || lia).
    rewrite (drop_S _ _ _ Hlook). simpl.
    by replace (Z.to_nat (i + 1)) with (S (Z.to_nat i)) by lia.
Qed.

(** the private [dot(_this, _that)] is the sum over all the indexes *)
Lemma dot_aux_full a b :
  wf a -> wf b -> dimension a = dimension b ->
  dot_aux a b = Ok (full_dot a b).
Proof.
  intros Hwfa Hwfb Hdim. pose proof Hwfa as [Hsh Hinv Hpinv].
  unfold dot_aux, for_upto. rewrite (dot_loop a b); try done.
  2:{ intros k v Hkv. apply getEntry_wf; [done|].
      rewrite <- Hdim. by apply (entry_active_pair a k v). }
  2:{ destruct Hsh. lia. }
  simpl. rewrite foldl_sum, sadd_zero_l. f_equal. unfold full_dot.
  transitivity (sum_list ((fun k => smul (entry a k) (entry b k))
                            <$> (active_pairs a).*1)).
  - f_equal. rewrite <- list_fmap_compose. apply list_fmap_ext.
    intros n [k v] Hn%list_elem_of_lookup_2. simpl.
    destruct (entry_active_pair a k v Hwfa Hn) as [-> _]. apply smul_comm.
  - symmetry. apply sum_list_support.
    + by apply active_pairs_NoDup.
    + apply NoDup_seqZ.
    + intros k ([k' v] & -> & Hkv)%list_elem_of_fmap. simpl.
      apply elem_of_seqZ. destruct (entry_active_pair a k' v Hwfa Hkv). lia.
    + intros k Hk%elem_of_seqZ Hna.
      rewrite (entry_not_active a k Hwfa) by (done || lia). apply smul_zero_l.
Qed.

Lemma full_dot_comm a b : dimension a = dimension b -> full_dot a b = full_dot b a.
Proof.
  intros Hdim. unfold full_dot. rewrite Hdim. f_equal.
  apply list_fmap_ext. intros _ k _. apply smul_comm.
Qed.

End DotFacts.

(** ** Element by element multiplication *)

Section EbeFacts.
Import Sparse.
Context {T : Type} `{ScalarLaws T}.
Implicit Types (s a b : SparseVector T) (k p q i j position : Z) (v : T).

Lemma absent_not_active s k v :
  index_position_inv s -> zlookup (indexesPosition s) k = Some (-1) ->
  (k, v) ∉ active_pairs s.
Proof.
  intros Hinv Habs (i & Hi & Hik & _)%elem_of_active_pairs.
  destruct (Hinv i Hi) as (k' & Hk' & Hpos).
  rewrite Hik in Hk'. injection Hk' as <-. rewrite Habs in Hpos.
  injection Hpos as <-. lia.
Qed.

Lemma entry_eq s s' k : getEntry s' k = getEntry s k -> entry s' k = entry s k.
Proof. unfold entry. by intros ->. Qed.


End EbeFacts.
(** ** Stored zeros *)

Section ZeroFacts.
Import Sparse.
Context {T : Type} `{Scalar T}.
Implicit Types (s : SparseVector T) (k p i j : Z) (v : T).

(** [setEntry] never stores a zero *)
Lemma setEntry_no_stored_zero s k v s' :
  wf s -> 0 <= k < dimension s -> no_stored_zero s ->
  setEntry s k v = Ok s' -> no_stored_zero s'.
Proof.
  intros Hwf Hk Hnz. pose proof Hwf as [Hsh Hinv Hpinv].
  destruct (zlookup_lt_Some (indexesPosition s) k) as [p Hp].
  { destruct Hsh. unfold dimension in Hk. lia. }
  unfold setEntry. destruct (is_zero v) eqn:Hv.
  - unfold removeEntry. rewrite (rd_Ok _ _ _ Hp). simpl.
    destruct (Hpinv k p Hp) as [->|[Hpr Hpk]].
    + rewrite bool_decide_eq_false_2 by lia. by intros [= <-].
    + rewrite bool_decide_eq_true_2 by lia.
      destruct (shape_zlookup_vs s p Hsh Hpr) as [vk Hvk].
      destruct (removeEntry_at_spec s p k k vk) as
        (s2 & iA & vA & Hs2 & _ & HvA & _ & _ & Hn & _ & _ & _ & _ & _ & Hval);
        try done.
      rewrite Hs2. intros [= <-]. intros i vi Hi. rewrite Hn in Hi.
      rewrite Hval. rewrite decide_False by lia. case_decide.
      * intros [= <-]. apply (Hnz (nbActive s - 1)); [lia|done].
      * apply Hnz. lia.
  - unfold setNonZeroEntry. rewrite (rd_Ok _ _ _ Hp). simpl.
    case_bool_decide as Hp1.
    + destruct (Hpinv k p Hp) as [?|[Hpr Hpk]]; [done|].
      unfold updateEntry. rewrite wr_Ok by (destruct Hsh; lia). simpl.
      intros [= <-]. intros i vi Hi. simpl in *.
      rewrite zlookup_insert by (destruct Hsh; lia). case_decide.
      * by intros [= <-].
      * by apply Hnz.
    + unfold insertEntry. intros Happ.
      destruct (appendEntry_spec s k v Hsh Hk) as
        (s2 & Hs2 & _ & _ & Hn & _ & _ & Hvk & _ & Hval).
      rewrite Happ in Hs2. injection Hs2 as <-.
      intros i vi Hi. rewrite Hn in Hi.
      destruct (decide (i = nbActive s)) as [->|Hne].
      * rewrite Hvk. by intros [= <-].
      * rewrite Hval by lia. apply Hnz. lia.
Qed.

End ZeroFacts.
(** ** Objects in memory *)

(** the next step of the computation in the goal: the cases in which it does
    not return are closed, its result is named *)
Tactic Notation "next_step" "as" simple_intropattern(pat) :=
  match goal with
  | |- context [rbind ?r _] =>
      destruct r as [pat| | | | |]; try done; cbn [rbind] in *
  end.


Section HeapFacts.
Import Heap.
Context {T : Type} `{Scalar T}.
Implicit Types (h : gmap loc (block T)) (l p this that : loc) (b : block T).








(** *** What an object depends on *)

Lemma load_sparse_inv h p s :
  load_sparse h p = Ok s ->
  exists ip ai vs,
    h !! p = Some (SparseObject (Sparse.indexesPositionLength s)
                     (Sparse.activeIndexesLength s) (Sparse.nbActive s) ip ai vs) /\
    h !! ip = Some (IntArray (Sparse.indexesPosition s)) /\
    h !! ai = Some (IntArray (Sparse.activeIndexes s)) /\
    h !! vs = Some (ValArray (Sparse.values s)).
Proof.
  unfold load_sparse, read_ints, read_vals.
  destruct (h !! p) as [[| |ipl ail nb ip ai vs| | |]|]; try done.
  destruct (h !! ip) as [[a1| | | | |]|] eqn:H1; try done.
  destruct (h !! ai) as [[a2| | | | |]|] eqn:H2; try done.
  destruct (h !! vs) as [[|a3| | | |]|] eqn:H3; try done.
  simpl. intros [= <-]. simpl. by exists ip, ai, vs.
Qed.

Lemma load_sparse_intro h p ipl ail nb ip ai vs a1 a2 a3 :
  h !! p = Some (SparseObject ipl ail nb ip ai vs) ->
  h !! ip = Some (IntArray a1) -> h !! ai = Some (IntArray a2) ->
  h !! vs = Some (ValArray a3) ->
  load_sparse h p = Ok (Sparse.mkSparse ipl ail nb a1 a2 a3).
Proof.
  intros Hp H1 H2 H3. unfold load_sparse, read_ints, read_vals.
  by rewrite Hp, H1, H2, H3.
Qed.

(** an object reads the same in two heaps that agree on its footprint *)
Lemma load_sparse_agree h h' p s :
  load_sparse h p = Ok s ->
  (forall l, l ∈ sparse_footprint h p -> h' !! l = h !! l) ->
  load_sparse h' p = Ok s.
Proof.
  intros (ip & ai & vs & Hp & H1 & H2 & H3)%load_sparse_inv Hagree.
  unfold sparse_footprint in Hagree. rewrite Hp in Hagree.
  destruct s. simpl in *.
  apply (load_sparse_intro h' p _ _ _ ip ai vs).
  - rewrite Hagree; [done|]. set_solver.
  - rewrite Hagree; [done|]. set_solver.
  - rewrite Hagree; [done|]. set_solver.
  - rewrite Hagree; [done|]. set_solver.
Qed.



(** *** Copies of a SparseVector object *)






Lemma sparse_footprint_agree h h' p :
  h' !! p = h !! p -> sparse_footprint h' p = sparse_footprint h p.
Proof. unfold sparse_footprint. by intros ->. Qed.




(** *** DenseVector objects *)










End HeapFacts.
(** ** Loops *)

Section LoopFacts.
Context {S : Type}.

(** a [for] loop that keeps an invariant returns, and the invariant holds
    after it *)
Lemma for_loop_inv (P : nat -> S -> Prop) (body : Z -> S -> result S) (c : nat) :
  forall (i0 : Z) (s : S),
    P 0%nat s ->
    (forall (m : nat) s, (m < c)%nat -> P m s ->
       exists s', body (i0 + Z.of_nat m) s = Ok s' /\ P (Datatypes.S m) s') ->
    exists s', for_loop c i0 body s = Ok s' /\ P c s'.
Proof.
  revert P. induction c as [|c IH]; intros P i0 s H0 Hstep.
  - exists s. by split.
  - destruct (Hstep 0%nat s) as (s1 & Hs1 & H1); [lia|done|].
    rewrite Z.add_0_r in Hs1. simpl. rewrite Hs1. simpl.
    apply (IH (fun m => P (Datatypes.S m))); [done|].
    intros m s2 Hm H2. destruct (Hstep (Datatypes.S m) s2) as (s3 & Hs3 & H3); [lia|done|].
    exists s3. split; [|done]. rewrite <- Hs3. f_equal. lia.
Qed.

End LoopFacts.

(** ** More about single entries *)

Section MoreEntryFacts.
Import Sparse.
Context {T : Type} `{Scalar T}.
Implicit Types (s : SparseVector T) (k p i j : Z) (v : T).

(** [setNonZeroEntry], with what it does to the positions of the indexes *)
Lemma setNonZeroEntry_positions s k v s' :
  wf s -> 0 <= k < dimension s -> setNonZeroEntry s k v = Ok s' ->
  zlookup (indexesPosition s') k <> Some (-1) /\
  (forall j, j <> k ->
             zlookup (indexesPosition s') j = zlookup (indexesPosition s) j) /\
  (zlookup (indexesPosition s) k = Some (-1) ->
     nbActive s' = nbActive s + 1 /\
     active_pairs s' = active_pairs s ++ [(k, v)]) /\
  (zlookup (indexesPosition s) k <> Some (-1) -> nbActive s' = nbActive s).
Proof.
  intros Hwf Hk. pose proof Hwf as [Hsh Hinv Hpinv].
  destruct (zlookup_lt_Some (indexesPosition s) k) as [p Hp].
  { destruct Hsh. unfold dimension in Hk. lia. }
  unfold setNonZeroEntry. rewrite (rd_Ok _ _ _ Hp). simpl.
  case_bool_decide as Hp1.
  - destruct (Hpinv k p Hp) as [?|[Hpr Hpk]]; [done|].
    unfold updateEntry. rewrite wr_Ok by (destruct Hsh; lia). simpl.
    intros [= <-]. simpl. rewrite Hp. split_and!; try done.
    + congruence.
    + intros [= ->]. done.
  - assert (p = -1) as -> by lia. unfold insertEntry. intros Happ.
    destruct (appendEntry_spec s k v Hsh Hk) as
      (s2 & Hs2 & _ & _ & Hn & Hpos & _).
    pose proof (appendEntry_active_pairs s k v s' Hsh Hk Happ) as Hpairs.
    rewrite Happ in Hs2. injection Hs2 as <-.
    split_and!; try done.
    + rewrite Hpos, decide_True by done. intros [= Hnb]. destruct Hsh. lia.
    + intros j Hj. rewrite Hpos. by rewrite decide_False.
Qed.

End MoreEntryFacts.

(** ** Loops over the active arrays *)

Section ActiveLoopFacts.
Import Sparse.
Context {T : Type} `{Scalar T}.
Implicit Types (s : SparseVector T) (k p i j : Z) (v : T).

(** the invariants do not depend on the stored values *)
Lemma with_values_wf s (vs : list T) :
  wf s -> length vs = length (values s) -> wf (with_values s vs).
Proof.
  intros [[Hip Hai Hvs Hnb] Hinv Hpinv] Hlen. split; [|done..].
  split; simpl; [done..|congruence|done].
Qed.

Lemma with_values_getEntry s (vs : list T) (g : Z -> T -> T) k :
  wf s -> 0 <= k < dimension s ->
  (forall i v, 0 <= i < nbActive s -> zlookup (values s) i = Some v ->
               zlookup vs i = Some (g i v)) ->
  getEntry (with_values s vs) k =
    match zlookup (indexesPosition s) k with
    | Some p => if decide (p = -1) then Ok szero else Ok (g p (entry s k))
    | None => Undefined
    end.
Proof.
  intros [Hsh Hinv Hpinv] Hk Hvs.
  destruct (zlookup_lt_Some (indexesPosition s) k) as [p Hp].
  { destruct Hsh. unfold dimension in Hk. lia. }
  rewrite Hp. destruct (Hpinv k p Hp) as [->|[Hpr Hpk]].
  - rewrite decide_True by done. by apply getEntry_absent.
  - rewrite decide_False by lia.
    destruct (shape_zlookup_vs s p Hsh Hpr) as [v Hv].
    rewrite (getEntry_entry s k v).
    + apply (getEntry_active _ k p); [done|lia|]. simpl. by apply Hvs.
    + apply (getEntry_active s k p v); [done|lia|done].
Qed.

(** a loop that rewrites the active values one after the other *)
Lemma values_loop (g : Z -> T -> T) (body : Z -> SparseVector T -> result (SparseVector T))
    s :
  shape s ->
  (forall i (vs : list T) v,
     0 <= i < nbActive s -> length vs = length (values s) ->
     zlookup vs i = Some v ->
     body i (with_values s vs) = Ok (with_values s (<[Z.to_nat i := g i v]> vs))) ->
  exists vs,
    for_upto (nbActive s) body s = Ok (with_values s vs) /\
    length vs = length (values s) /\
    (forall i v, 0 <= i < nbActive s -> zlookup (values s) i = Some v ->
                 zlookup vs i = Some (g i v)) /\
    (forall i, nbActive s <= i -> zlookup vs i = zlookup (values s) i).
Proof.
  intros Hsh Hbody. pose proof Hsh as [Hip Hai Hvs Hnb].
  destruct (for_loop_inv
              (fun m s' => exists vs,
                 s' = with_values s vs /\ length vs = length (values s) /\
                 (forall i v, 0 <= i < Z.of_nat m -> zlookup (values s) i = Some v ->
                              zlookup vs i = Some (g i v)) /\
                 (forall i, Z.of_nat m <= i -> zlookup vs i = zlookup (values s) i))
              body (Z.to_nat (nbActive s)) 0 s) as (s' & Hrun & vs & -> & Hlen & Hlo & Hhi).
  - exists (values s). split; [by destruct s|]. split; [done|]. split; [intros; lia|done].
  - intros m s1 Hm (vs & -> & Hlen & Hlo & Hhi).
    destruct (zlookup_lt_Some (values s) (Z.of_nat m)) as [v Hv]; [lia|].
    rewrite Z.add_0_l. rewrite (Hbody _ vs v); [|lia|done|by rewrite Hhi].
    eexists. split; [reflexivity|]. eexists. split; [reflexivity|].
    rewrite length_insert. split; [done|]. split.
    + intros i vi Hi Hvi. rewrite zlookup_insert by lia.
      case_decide as Him; [congruence|]. apply Hlo; [lia|done].
    + intros i Hi. rewrite zlookup_insert by lia.
      rewrite decide_False by lia. apply Hhi. lia.
  - exists vs. unfold for_upto. split; [done|]. split; [done|]. split.
    + intros i v Hi. apply Hlo. lia.
    + intros i Hi. apply Hhi. lia.
Qed.

(** *** [clear] *)

Lemma clear_spec s :
  wf s ->
  exists s',
    clear s = Ok s' /\ wf s' /\ nbActive s' = 0 /\
    indexesPositionLength s' = indexesPositionLength s /\
    activeIndexesLength s' = activeIndexesLength s /\
    forall k, 0 <= k < dimension s -> zlookup (indexesPosition s') k = Some (-1).
Proof.
  intros [Hsh Hinv Hpinv]. pose proof Hsh as [Hip Hai Hvs Hnb]. unfold clear.
  destruct (for_loop_inv
              (fun m s' => exists ip,
                 s' = with_indexesPosition s ip /\
                 length ip = length (indexesPosition s) /\
                 (forall i k, 0 <= i < Z.of_nat m ->
                              zlookup (activeIndexes s) i = Some k ->
                              zlookup ip k = Some (-1)) /\
                 (forall k p, zlookup ip k = Some p ->
                              p = -1 \/ zlookup (indexesPosition s) k = Some p))
              (fun i s => do index <- rd (activeIndexes s) i ;
                          do ip <- wr (indexesPosition s) index (-1) ;
                          Ok (with_indexesPosition s ip))
              (Z.to_nat (nbActive s)) 0 s) as (s1 & Hrun & ip & -> & Hlen & Hdone & Hrest).
  - exists (indexesPosition s). split; [by destruct s|]. split; [done|].
    split; [intros; lia|]. intros k p Hp. by right.
  - intros m s1 Hm (ip & -> & Hlen & Hdone & Hrest).
    destruct (Hinv (Z.of_nat m)) as (k & Hk & Hpk); [lia|].
    pose proof (zlookup_Some_lt _ _ _ Hpk) as Hkr.
    rewrite Z.add_0_l. simpl. rewrite (rd_Ok _ _ _ Hk). simpl.
    rewrite wr_Ok by lia. simpl.
    eexists. split; [reflexivity|]. eexists. split; [reflexivity|].
    rewrite length_insert. split; [done|]. split.
    + intros i k' Hi Hk'. rewrite zlookup_insert by lia.
      case_decide; [done|]. apply (Hdone i); [|done].
      assert (i <> Z.of_nat m) by congruence. lia.
    + intros k' p. rewrite zlookup_insert by lia.
      case_decide; [intros [= <-]; by left|]. apply Hrest.
  - unfold for_upto. rewrite Hrun. simpl. eexists. split; [reflexivity|].
    simpl. split_and!; try done.
    + split.
      * split; simpl; [congruence|done..|lia].
      * intros i Hi. simpl in Hi. lia.
      * intros k p Hp. simpl in Hp. left.
        destruct (Hrest k p Hp) as [?|Hp0]; [done|].
        destruct (Hpinv k p Hp0) as [?|[Hpr Hpk]]; [done|].
        rewrite (Hdone p k) in Hp by (done || lia). congruence.
    + intros k Hk. simpl.
      destruct (zlookup_lt_Some ip k) as [p Hp].
      { unfold dimension in Hk. lia. }
      rewrite Hp. f_equal.
      destruct (Hrest k p Hp) as [?|Hp0]; [done|].
      destruct (Hpinv k p Hp0) as [?|[Hpr Hpk]]; [done|].
      rewrite (Hdone p k) in Hp by (done || lia). congruence.
Qed.

End ActiveLoopFacts.

(** ** Loops that set one entry after the other *)

Section UpdateLoopFacts.
Import Sparse.
Context {T : Type} `{Scalar T}.
Implicit Types (s : SparseVector T) (k p i j : Z) (v : T).

(** a loop whose step [m] sets the entry at the index [ks !! m], for distinct
    indexes [ks], to a value computed from the entry's value *)
Lemma update_loop (ks : list Z) (f : nat -> T -> T)
    (body : Z -> SparseVector T -> result (SparseVector T)) (i0 : Z) s :
  wf s -> NoDup ks ->
  (forall (m : nat) k s1,
     ks !! m = Some k -> wf s1 -> dimension s1 = dimension s ->
     exists s2,
       body (i0 + Z.of_nat m) s1 = Ok s2 /\ wf s2 /\ dimension s2 = dimension s /\
       getEntry s2 k = Ok (f m (entry s1 k)) /\
       forall j, j <> k -> getEntry s2 j = getEntry s1 j) ->
  exists s',
    for_loop (length ks) i0 body s = Ok s' /\ wf s' /\ dimension s' = dimension s /\
    (forall (m : nat) k, ks !! m = Some k -> getEntry s' k = Ok (f m (entry s k))) /\
    (forall j, j ∉ ks -> getEntry s' j = getEntry s j).
Proof.
  intros Hwf Hnd Hbody.
  destruct (for_loop_inv
              (fun n s1 =>
                 wf s1 /\ dimension s1 = dimension s /\
                 (forall (m : nat) k, (m < n)%nat -> ks !! m = Some k ->
                                      getEntry s1 k = Ok (f m (entry s k))) /\
                 (forall j, j ∉ take n ks -> getEntry s1 j = getEntry s j))
              body (length ks) i0 s) as (s' & Hrun & Hwf' & Hd' & Hdone & Hrest).
  - split_and!; try done. intros; lia.
  - intros n s1 Hn (Hwf1 & Hd1 & Hdone & Hrest).
    destruct (lookup_lt_is_Some_2 ks n Hn) as [k Hk].
    destruct (Hbody n k s1 Hk Hwf1 Hd1) as (s2 & Hs2 & Hwf2 & Hd2 & Hget & Hoth).
    exists s2. split; [done|]. split_and!; try done.
    + intros m k' Hm Hk'. destruct (decide (m = n)) as [->|Hmn].
      * assert (k' = k) as -> by congruence. rewrite Hget. do 2 f_equal.
        apply entry_eq. apply Hrest. intros Hin.
        apply list_elem_of_lookup in Hin as [m' Hm'].
        apply lookup_take_Some in Hm' as [Hm' Hlt].
        assert (m' = n) by (eapply NoDup_lookup; eauto). lia.
      * rewrite Hoth; [apply Hdone; [lia|done]|].
        intros ->. apply Hmn. eapply NoDup_lookup; eauto.
    + intros j Hj. rewrite (take_S_r _ _ _ Hk) in Hj.
      apply not_elem_of_app in Hj as [Hj Hjk].
      rewrite Hoth; [by apply Hrest|]. intros ->. apply Hjk. by left.
  - exists s'. split; [done|]. split_and!; try done.
    + intros m k Hk. apply Hdone; [|done]. by apply lookup_lt_Some in Hk.
    + intros j Hj. apply Hrest. by rewrite firstn_all.
Qed.

Lemma active_pairs_lookup s (m : nat) k v :
  shape s ->
  active_pairs s !! m = Some (k, v) <->
  (Z.of_nat m < nbActive s /\ zlookup (activeIndexes s) (Z.of_nat m) = Some k
   /\ zlookup (values s) (Z.of_nat m) = Some v).
Proof.
  intros Hsh. unfold active_pairs. rewrite lookup_zip_with_Some. split.
  - intros (k' & v' & [= <- <-] & Hk & Hv).
    apply lookup_take_Some in Hk as [Hk Hm]. apply lookup_take_Some in Hv as [Hv _].
    unfold zlookup. rewrite bool_decide_eq_true_2 by lia. rewrite Nat2Z.id.
    split; [lia|done].
  - intros (Hm & Hk & Hv). exists k, v. unfold zlookup in Hk, Hv.
    rewrite bool_decide_eq_true_2 in Hk, Hv by lia. rewrite Nat2Z.id in Hk, Hv.
    split; [done|]. split; apply lookup_take_Some; (split; [done|lia]).
Qed.

Lemma active_pairs_length_nat s :
  shape s -> length (active_pairs s) = Z.to_nat (nbActive s).
Proof. intros Hsh. pose proof (active_pairs_length s Hsh). lia. Qed.

End UpdateLoopFacts.

Section EachActiveFacts.
Import Sparse.
Context {T : Type} `{Scalar T}.
Implicit Types (s that : SparseVector T) (k p i j : Z) (v : T).

(** a loop over the active pairs of [that] whose step sets, in [s], the entry
    at the index of the pair *)
Lemma each_active_loop that s (g : T -> T -> T)
    (body : Z -> SparseVector T -> result (SparseVector T)) :
  wf s -> shape that -> index_position_inv that ->
  (forall (m : nat) k v s1,
     active_pairs that !! m = Some (k, v) -> wf s1 -> dimension s1 = dimension s ->
     exists s2,
       body (Z.of_nat m) s1 = Ok s2 /\ wf s2 /\ dimension s2 = dimension s /\
       getEntry s2 k = Ok (g (entry s1 k) v) /\
       forall j, j <> k -> getEntry s2 j = getEntry s1 j) ->
  exists s',
    for_upto (nbActive that) body s = Ok s' /\ wf s' /\ dimension s' = dimension s /\
    (forall k v, (k, v) ∈ active_pairs that -> getEntry s' k = Ok (g (entry s k) v)) /\
    (forall j, j ∉ (active_pairs that).*1 -> getEntry s' j = getEntry s j).
Proof.
  intros Hwf Hsh Hinv Hbody.
  destruct (update_loop (active_pairs that).*1
              (fun m x => match active_pairs that !! m with
                          | Some (_, v) => g x v
                          | None => x
                          end)
              body 0 s Hwf) as (s' & Hrun & Hwf' & Hd' & Hdone & Hrest).
  - by apply active_pairs_NoDup.
  - intros m k s1 Hk Hwf1 Hd1. rewrite list_lookup_fmap in Hk.
    destruct (active_pairs that !! m) as [[k' v]|] eqn:Hm; [|done].
    injection Hk as ->. rewrite Z.add_0_l. by apply Hbody.
  - rewrite length_fmap, active_pairs_length_nat in Hrun by done.
    exists s'. split; [done|]. split_and!; try done.
    intros k v Hkv. apply list_elem_of_lookup in Hkv as [m Hm].
    rewrite (Hdone m k); [by rewrite Hm|]. by rewrite list_lookup_fmap, Hm.
Qed.

End EachActiveFacts.

Section PointwiseFacts.
Import Sparse.
Context {T : Type} `{ScalarLaws T}.
Implicit Types (s that : SparseVector T) (k p i j : Z) (v : T).


(** [setEntry]: the entry is set, the others are left alone *)
Lemma setEntry_spec s k v :
  wf s -> 0 <= k < dimension s ->
  exists s',
    setEntry s k v = Ok s' /\ wf s' /\ dimension s' = dimension s /\
    getEntry s' k = Ok v /\
    forall j, j <> k -> getEntry s' j = getEntry s j.
Proof.
  intros Hwf Hk. destruct (is_zero v) eqn:Hv.
  - rewrite (setEntry_zero s k v Hv).
    destruct (removeEntry_spec s k Hwf Hk) as (s' & Hs' & Hwf' & Hd & Habs & Hoth & _).
    exists s'. split_and!; try done.
    apply is_zero_spec in Hv as ->. by apply getEntry_absent.
  - rewrite (setEntry_nonzero s k v Hv).
    destruct (setNonZeroEntry_spec s k v Hwf Hk) as (s' & Hs' & Hwf' & Hd & Hget & Hoth & _).
    by exists s'.
Qed.


End PointwiseFacts.

(** ** Loops that can fail *)

Section FailingLoopFacts.
Context {S : Type}.

(** a [for] loop in which a step is undefined, while the steps before it
    return and keep an invariant, is undefined *)
Lemma for_loop_undefined (P : nat -> S -> Prop) (bad : nat -> Prop)
    (body : Z -> S -> result S) (c : nat) :
  forall (i0 : Z) (s : S),
    P 0%nat s ->
    (forall (m : nat) s1, (m < c)%nat -> P m s1 ->
       body (i0 + Z.of_nat m) s1 = Undefined \/
       (~ bad m /\ exists s2, body (i0 + Z.of_nat m) s1 = Ok s2 /\ P (Datatypes.S m) s2)) ->
    (exists m, (m < c)%nat /\ bad m) ->
    for_loop c i0 body s = Undefined.
Proof.
  revert P bad. induction c as [|c IH]; intros P bad i0 s H0 Hstep (m & Hm & Hbad).
  - lia.
  - simpl. destruct (Hstep 0%nat s) as [Hu|(Hgood & s2 & Hs2 & H1)]; [lia|done|..].
    + rewrite Z.add_0_r in Hu. by rewrite Hu.
    + rewrite Z.add_0_r in Hs2. rewrite Hs2. simpl.
      destruct m as [|m]; [done|].
      apply (IH (fun n => P (Datatypes.S n)) (fun n => bad (Datatypes.S n))); [done| |].
      * intros n s1 Hn Hn1.
        replace (i0 + 1 + Z.of_nat n) with (i0 + Z.of_nat (Datatypes.S n)) by lia.
        apply Hstep; [lia|done].
      * exists m. split; [lia|done].
Qed.

End FailingLoopFacts.

Section PartialValuesFacts.
Import Sparse.
Context {T : Type} `{Scalar T}.
Implicit Types (s that : SparseVector T) (k p i j : Z) (v : T).

(** a loop that replaces the value at every active position by a function of
    the position and of the value, where the function has a result *)
Lemma values_loop_partial (g : Z -> T -> option T)
    (body : Z -> SparseVector T -> result (SparseVector T)) s :
  shape s ->
  (forall i (vs : list T) v,
     0 <= i < nbActive s -> length vs = length (values s) ->
     zlookup vs i = Some v -> zlookup (values s) i = Some v ->
     body i (with_values s vs) =
       match g i v with
       | Some q => Ok (with_values s (<[Z.to_nat i := q]> vs))
       | None => Undefined
       end) ->
  ((forall i v, 0 <= i < nbActive s -> zlookup (values s) i = Some v ->
                is_Some (g i v)) ->
   exists vs,
     for_upto (nbActive s) body s = Ok (with_values s vs) /\
     length vs = length (values s) /\
     (forall i v, 0 <= i < nbActive s -> zlookup (values s) i = Some v ->
                  exists q, g i v = Some q /\ zlookup vs i = Some q) /\
     (forall i, nbActive s <= i -> zlookup vs i = zlookup (values s) i)) /\
  ((exists i v, 0 <= i < nbActive s /\ zlookup (values s) i = Some v /\
                g i v = None) ->
   for_upto (nbActive s) body s = Undefined).
Proof.
  intros Hsh Hbody. pose proof Hsh as [Hip Hai Hvs Hnb]. split.
  - intros Hdef.
    destruct (for_loop_inv
                (fun m s' => exists vs,
                   s' = with_values s vs /\ length vs = length (values s) /\
                   (forall i v, 0 <= i < Z.of_nat m -> zlookup (values s) i = Some v ->
                                exists q, g i v = Some q /\ zlookup vs i = Some q) /\
                   (forall i, Z.of_nat m <= i -> zlookup vs i = zlookup (values s) i))
                body (Z.to_nat (nbActive s)) 0 s)
      as (s' & Hrun & vs & -> & Hlen & Hlo & Hhi).
    + exists (values s). split; [by destruct s|]. split; [done|].
      split; [intros; lia|done].
    + intros m s1 Hm (vs & -> & Hlen & Hlo & Hhi).
      destruct (zlookup_lt_Some (values s) (Z.of_nat m)) as [v Hv]; [lia|].
      destruct (Hdef (Z.of_nat m) v) as [q Hq]; [lia|done|].
      rewrite Z.add_0_l. rewrite (Hbody _ vs v); [|lia|done|by rewrite Hhi|done].
      rewrite Hq. eexists. split; [reflexivity|]. eexists. split; [reflexivity|].
      rewrite length_insert. split; [done|]. split.
      * intros i vi Hi Hvi. rewrite zlookup_insert by lia.
        case_decide as Him.
        -- subst i. rewrite Hv in Hvi. injection Hvi as <-. by exists q.
        -- apply Hlo; [lia|done].
      * intros i Hi. rewrite zlookup_insert by lia.
        rewrite decide_False by lia. apply Hhi. lia.
    + exists vs. unfold for_upto. split; [done|]. split; [done|]. split.
      * intros i v Hi. apply Hlo. lia.
      * intros i Hi. apply Hhi. lia.
  - intros (i & v & Hi & Hv & Hnone). unfold for_upto.
    apply (for_loop_undefined
             (fun m s' => exists vs,
                s' = with_values s vs /\ length vs = length (values s) /\
                (forall i, Z.of_nat m <= i -> zlookup vs i = zlookup (values s) i))
             (fun m => exists v, zlookup (values s) (Z.of_nat m) = Some v /\
                                 g (Z.of_nat m) v = None)).
    + exists (values s). split; [by destruct s|]. done.
    + intros m s1 Hm (vs & -> & Hlen & Hhi).
      destruct (zlookup_lt_Some (values s) (Z.of_nat m)) as [v' Hv']; [lia|].
      rewrite Z.add_0_l. rewrite (Hbody _ vs v'); [|lia|done|by rewrite Hhi|done].
      destruct (g (Z.of_nat m) v') as [q|] eqn:Hq; [right|by left].
      split.
      * intros (v'' & Hv'' & Hn). congruence.
      * eexists. split; [reflexivity|]. eexists. split; [reflexivity|].
        rewrite length_insert. split; [done|].
        intros j Hj. rewrite zlookup_insert by lia.
        rewrite decide_False by lia. apply Hhi. lia.
    + exists (Z.to_nat i). split; [lia|]. exists v.
      by rewrite Z2Nat.id by lia.
Qed.

(** [addToSelf], index by index: no law of arithmetic is needed *)
Lemma addToSelf_each s factor that :
  wf s -> wf that -> dimension s = dimension that ->
  exists s',
    addToSelf s factor that = Ok s' /\ wf s' /\ dimension s' = dimension s /\
    (forall k v, (k, v) ∈ active_pairs that ->
                 getEntry s' k = Ok (sadd (entry s k) (smul factor v))) /\
    (forall j, j ∉ (active_pairs that).*1 -> getEntry s' j = getEntry s j).
Proof.
  intros Hwf Hwft Hdim. pose proof Hwft as [Hsht Hinvt Hpinvt].
  unfold addToSelf. rewrite bool_decide_eq_true_2 by done. simpl.
  apply (each_active_loop that s (fun x v => sadd x (smul factor v))); try done.
  intros m k v s1 Hm Hwf1 Hd1.
  apply active_pairs_lookup in Hm as (Hlt & Hk & Hv); [|done].
  assert (0 <= k < dimension s1) as Hkr.
  { destruct (entry_active_pair that k v Hwft) as [_ ?].
    - apply elem_of_active_pairs. exists (Z.of_nat m). split; [lia|done].
    - lia. }
  rewrite (rd_Ok _ _ _ Hk), (rd_Ok _ _ _ Hv). simpl.
  rewrite (getEntry_wf s1 k Hwf1 Hkr). simpl.
  destruct (setNonZeroEntry_spec s1 k (sadd (entry s1 k) (smul factor v)) Hwf1 Hkr)
    as (s2 & Hs2 & Hwf2 & Hd2 & Hget & Hoth & _).
  exists s2. split_and!; try done. congruence.
Qed.

End PartialValuesFacts.
(** ** Filling a vector *)

Section FillFacts.
Import Sparse.
Context {T : Type} `{Scalar T}.
Implicit Types (s that : SparseVector T) (k p i j : Z) (v : T) (l : list (Z * T)).

Lemma setNonZeroEntry_absent s k v :
  zlookup (indexesPosition s) k = Some (-1) ->
  setNonZeroEntry s k v = insertEntry s k v.
Proof.
  intros Hk. unfold setNonZeroEntry. by rewrite (rd_Ok _ _ _ Hk).
Qed.

(** a loop that sets entries at distinct indexes that are absent is the
    insertion of these entries, in the order of the loop *)
Lemma fill_loop l (body : Z -> SparseVector T -> result (SparseVector T)) :
  forall (i0 : Z) s,
    wf s -> NoDup l.*1 ->
    Forall (fun kv => 0 <= kv.1 < dimension s) l ->
    (forall j, j ∈ l.*1 -> zlookup (indexesPosition s) j = Some (-1)) ->
    (forall (m : nat) k v s1,
       l !! m = Some (k, v) -> body (i0 + Z.of_nat m) s1 = setNonZeroEntry s1 k v) ->
    for_loop (length l) i0 body s = insert_all s l.
Proof.
  induction l as [|[k v] l IH]; intros i0 s Hwf Hnd Hl Habs Hbody; simpl; [done|].
  apply Forall_cons in Hl as [Hk Hl]. simpl in Hk.
  apply NoDup_cons in Hnd as [Hkl Hnd].
  pose proof (Hbody 0%nat k v s eq_refl) as Hfirst.
  simpl in Hfirst. rewrite Z.add_0_r in Hfirst. rewrite Hfirst.
  rewrite setNonZeroEntry_absent by (apply Habs; simpl; by left).
  unfold insertEntry.
  destruct (appendEntry_spec s k v (wf_shape s Hwf) Hk) as
    (s1 & Hs1 & Hsh1 & Hd1 & Hn1 & Hpos1 & _).
  rewrite Hs1. simpl.
  destruct (appendEntry_wf s k v s1) as (Hwf1 & _); try done.
  { apply Habs. simpl. by left. }
  apply IH; try done.
  - unfold dimension in *. by rewrite Hd1.
  - intros j Hj. rewrite Hpos1. rewrite decide_False by (by intros ->).
    apply Habs. simpl. by right.
  - intros m k' v' s2 Hm. rewrite <- (Hbody (Datatypes.S m) k' v' s2 Hm).
    f_equal. lia.
Qed.

(** the result of such a loop on a vector without active entries *)
Lemma fill_loop_spec l (body : Z -> SparseVector T -> result (SparseVector T)) i0 s :
  wf s -> nbActive s = 0 -> NoDup l.*1 ->
  Forall (fun kv => 0 <= kv.1 < dimension s) l ->
  (forall (m : nat) k v s1,
     l !! m = Some (k, v) -> body (i0 + Z.of_nat m) s1 = setNonZeroEntry s1 k v) ->
  exists s',
    for_loop (length l) i0 body s = Ok s' /\ wf s' /\ dimension s' = dimension s /\
    active_pairs s' = l.
Proof.
  intros Hwf Hn Hnd Hl Hbody. pose proof Hwf as [Hsh Hinv Hpinv].
  assert (forall j, j ∈ l.*1 -> zlookup (indexesPosition s) j = Some (-1)) as Habs.
  { intros j ([k v] & -> & Hkv)%list_elem_of_fmap. simpl.
    rewrite Forall_forall in Hl. specialize (Hl _ Hkv). simpl in Hl.
    destruct (zlookup_lt_Some (indexesPosition s) k) as [p Hp].
    { destruct Hsh. unfold dimension in Hl. lia. }
    rewrite Hp. destruct (Hpinv k p Hp) as [->|[? _]]; [done|lia]. }
  rewrite (fill_loop l body i0 s) by done.
  destruct (insert_all_spec l s Hsh Hl) as (s' & Hs' & _ & Hd' & _ & Hpairs & _).
  exists s'. split; [done|]. split_and!; try done.
  - by apply (insert_all_wf l s s').
  - rewrite Hpairs. unfold active_pairs at 1. rewrite Hn. done.
Qed.

(** the logical values of a vector are those of its active pairs *)
Lemma getEntry_of_pairs s s' :
  wf s -> wf s' -> dimension s' = dimension s ->
  (forall kv, kv ∈ active_pairs s' <-> kv ∈ active_pairs s) ->
  forall k, 0 <= k < dimension s -> getEntry s' k = getEntry s k.
Proof.
  intros Hwf Hwf' Hd Hpairs k Hk.
  rewrite (getEntry_wf s k Hwf Hk), (getEntry_wf s' k Hwf') by lia. f_equal.
  destruct (zlookup_lt_Some (indexesPosition s) k) as [p Hp].
  { destruct Hwf as [[] _ _]. unfold dimension in Hk. lia. }
  destruct (wf_position_index s Hwf k p Hp) as [->|[Hpr Hpk]].
  - rewrite (getEntry_entry s k szero) by (by apply getEntry_absent).
    destruct (zlookup_lt_Some (indexesPosition s') k) as [p' Hp'].
    { destruct Hwf' as [[] _ _]. unfold dimension in *. lia. }
    destruct (wf_position_index s' Hwf' k p' Hp') as [->|[Hpr' Hpk']].
    + apply getEntry_entry. by apply getEntry_absent.
    + destruct (shape_zlookup_vs s' p' (wf_shape s' Hwf') Hpr') as [v' Hv'].
      assert ((k, v') ∈ active_pairs s) as Hin.
      { apply Hpairs. apply elem_of_active_pairs. eauto. }
      exfalso. by apply (absent_not_active s k v' (wf_index_position s Hwf) Hp).
  - destruct (shape_zlookup_vs s p (wf_shape s Hwf) Hpr) as [v Hv].
    assert ((k, v) ∈ active_pairs s') as Hin.
    { apply Hpairs. apply elem_of_active_pairs. eauto. }
    assert ((k, v) ∈ active_pairs s) as Hin0.
    { apply elem_of_active_pairs. eauto. }
    apply elem_of_active_pairs in Hin as (i & Hi & Hik & Hiv).
    destruct (wf_index_position s' Hwf' i Hi) as (k' & Hk' & Hpos').
    rewrite Hik in Hk'. injection Hk' as <-.
    rewrite (getEntry_entry s' k v) by (apply (getEntry_active s' k i v); [done|lia|done]).
    symmetry. apply getEntry_entry. apply (getEntry_active s k p v); [done|lia|done].
Qed.

End FillFacts.

(** ** Counting the active entries *)

Section CountFacts.
Import Sparse.
Context {T : Type} `{Scalar T}.
Implicit Types (s : SparseVector T) (k p i j : Z) (v : T).

(** when every index is active, there are [dimension] active entries *)
Lemma all_active_count s :
  wf s -> (forall k, 0 <= k < dimension s -> active s k) ->
  nbActive s = dimension s.
Proof.
  intros Hwf Hall. pose proof Hwf as [Hsh Hinv Hpinv].
  assert ((active_pairs s).*1 ≡ₚ seqZ 0 (dimension s)) as Hperm.
  { apply NoDup_Permutation.
    - by apply active_pairs_NoDup.
    - apply NoDup_seqZ.
    - intros k. rewrite elem_of_seqZ. split.
      + intros ([k' v] & -> & Hkv)%list_elem_of_fmap. simpl.
        pose proof (active_pairs_in_range s Hsh Hinv) as Hr.
        rewrite Forall_forall in Hr. specialize (Hr _ Hkv). simpl in Hr. lia.
      + intros Hk. destruct (Hall k) as (p & Hp & Hp1); [lia|].
        destruct (Hpinv k p Hp) as [?|[Hpr Hpk]]; [done|].
        destruct (shape_zlookup_vs s p Hsh Hpr) as [v Hv].
        apply list_elem_of_fmap. exists (k, v). split; [done|].
        apply elem_of_active_pairs. eauto. }
  apply Permutation_length in Hperm.
  rewrite length_fmap, length_seqZ in Hperm.
  pose proof (active_pairs_length s Hsh).
  destruct Hsh. unfold dimension in *. lia.
Qed.

(** a loop of [setNonZeroEntry] makes the indexes it runs over active and
    keeps the others as they are *)
Lemma setNonZero_loop_active (ks : list Z)
    (body : Z -> SparseVector T -> result (SparseVector T)) (i0 : Z) s s' :
  wf s -> (forall k, k ∈ ks -> 0 <= k < dimension s) ->
  (forall (m : nat) k s1,
     ks !! m = Some k -> wf s1 -> dimension s1 = dimension s ->
     exists v, body (i0 + Z.of_nat m) s1 = setNonZeroEntry s1 k v) ->
  for_loop (length ks) i0 body s = Ok s' ->
  (forall k, k ∈ ks -> active s' k) /\
  (forall j, j ∉ ks ->
             zlookup (indexesPosition s') j = zlookup (indexesPosition s) j).
Proof.
  intros Hwf Hks Hbody Hrun.
  destruct (for_loop_inv
              (fun n s1 =>
                 wf s1 /\ dimension s1 = dimension s /\
                 (forall k, k ∈ take n ks -> active s1 k) /\
                 (forall j, j ∉ take n ks ->
                    zlookup (indexesPosition s1) j = zlookup (indexesPosition s) j))
              body (length ks) i0 s) as (s2 & Hrun2 & _ & _ & Hact & Hrest).
  - split_and!; try done. intros k Hk. by apply elem_of_nil in Hk.
  - intros n s1 Hn (Hwf1 & Hd1 & Hact & Hrest).
    destruct (lookup_lt_is_Some_2 ks n Hn) as [k Hk].
    destruct (Hbody n k s1 Hk Hwf1 Hd1) as [v Hv]. rewrite Hv.
    assert (0 <= k < dimension s1) as Hkr.
    { rewrite Hd1. apply Hks. by apply list_elem_of_lookup_2 in Hk. }
    destruct (setNonZeroEntry_spec s1 k v Hwf1 Hkr) as (s3 & Hs3 & Hwf3 & Hd3 & _).
    destruct (setNonZeroEntry_positions s1 k v s3 Hwf1 Hkr Hs3) as (Hk3 & Hoth3 & _).
    exists s3. split; [done|]. split_and!; try done; [congruence|..].
    + intros k' Hk'. rewrite (take_S_r _ _ _ Hk) in Hk'.
      apply elem_of_app in Hk' as [Hk'|Hk'].
      * destruct (decide (k' = k)) as [->|Hne].
        -- destruct (zlookup_lt_Some (indexesPosition s3) k) as [p Hp].
           { destruct Hwf3 as [[] _ _]. unfold dimension in *. lia. }
           exists p. split; [done|]. congruence.
        -- destruct (Hact k' Hk') as (p & Hp & Hp1). exists p.
           by rewrite Hoth3.
      * apply list_elem_of_singleton in Hk' as ->.
        destruct (zlookup_lt_Some (indexesPosition s3) k) as [p Hp].
        { destruct Hwf3 as [[] _ _]. unfold dimension in *. lia. }
        exists p. split; [done|]. congruence.
    + intros j Hj. rewrite (take_S_r _ _ _ Hk) in Hj.
      apply not_elem_of_app in Hj as [Hj Hjk].
      rewrite Hoth3; [by apply Hrest|]. intros ->. apply Hjk. by left.
  - rewrite Hrun in Hrun2. injection Hrun2 as <-.
    rewrite firstn_all in Hact, Hrest. done.
Qed.

End CountFacts.

(** ** Loops that fold over an array *)

Section FoldFacts.
Context {A S : Type}.

(** a loop whose body combines the accumulator with the [m]-th element of
    [l] computes the left fold over [l] *)
Lemma fold_loop (f : S -> A -> S) (body : Z -> S -> result S) (l : list A) :
  forall (i0 : Z) (acc : S),
    (forall (m : nat) x acc, l !! m = Some x ->
                             body (i0 + Z.of_nat m) acc = Ok (f acc x)) ->
    for_loop (length l) i0 body acc = Ok (foldl f acc l).
Proof.
  induction l as [|x l IH]; intros i0 acc Hbody; simpl; [done|].
  pose proof (Hbody 0%nat x acc eq_refl) as Hfirst. simpl in Hfirst.
  rewrite Z.add_0_r in Hfirst. rewrite Hfirst. simpl. apply IH.
  intros m y acc' Hm. rewrite <- (Hbody (Datatypes.S m) y acc' Hm). f_equal. lia.
Qed.

End FoldFacts.

Section MaxFacts.
Context {T : Type} `{Scalar T} `{Numeric T} `{!ScalarLaws T} `{!NumericLaws T}.

Lemma sabs_szero : sabs szero = szero.
Proof.
  apply is_zero_spec. rewrite sabs_zero. by apply is_zero_spec.
Qed.

(** the running maximum of absolute values dominates its start value and
    every element, and is one of them *)
Lemma max_fold (l : list T) : forall m : T,
  let r := foldl (fun maxv v => if sltb maxv (sabs v) then sabs v else maxv) m l in
  sltb r m = false /\
  (forall v, v ∈ l -> sltb r (sabs v) = false) /\
  (r = m \/ exists v, v ∈ l /\ r = sabs v).
Proof.
  induction l as [|v l IH]; intros m; simpl.
  - split; [apply sltb_irrefl|]. split; [|by left].
    intros v Hv. by apply elem_of_nil in Hv.
  - destruct (sltb m (sabs v)) eqn:Hlt.
    + destruct (IH (sabs v)) as (Hge & Hall & Hin). split_and!.
      * apply (sltb_negtrans _ (sabs v)); [done|]. by apply sltb_asym.
      * intros v' [->|Hv']%elem_of_cons; [done|by apply Hall].
      * right. destruct Hin as [Hr|(v' & Hv' & Hr)].
        -- exists v. split; [apply elem_of_cons; by left|done].
        -- exists v'. split; [apply elem_of_cons; by right|done].
    + destruct (IH m) as (Hge & Hall & Hin). split_and!.
      * done.
      * intros v' [->|Hv']%elem_of_cons; [|by apply Hall].
        by apply (sltb_negtrans _ m).
      * destruct Hin as [Hr|(v' & Hv' & Hr)]; [by left|].
        right. exists v'. split; [apply elem_of_cons; by right|done].
Qed.

(** [max_abs_of a n] is the largest absolute value of the first [n] cells *)
Lemma max_abs_of_spec (a : list T) (n : Z) :
  0 <= n <= Z.of_nat (length a) ->
  exists r,
    max_abs_of a n = Ok r /\
    (n = 0 -> r = szero) /\
    (0 < n -> exists i x, 0 <= i < n /\ zlookup a i = Some x /\ r = sabs x) /\
    (forall i x, 0 <= i < n -> zlookup a i = Some x -> sltb r (sabs x) = false).
Proof.
  intros Hn. unfold max_abs_of. case_bool_decide as Hpos.
  - destruct (zlookup_lt_Some a 0) as [x0 Hx0]; [lia|].
    rewrite (rd_Ok _ _ _ Hx0). simpl.
    pose (tl := take (Z.to_nat (n - 1)) (drop 1 a)).
    assert (length tl = Z.to_nat (n - 1)) as Hlen.
    { unfold tl. rewrite length_take, length_drop. lia. }
    assert (forall (m : nat) x, tl !! m = Some x <->
              (Z.of_nat m < n - 1 /\ zlookup a (1 + Z.of_nat m) = Some x)) as Htl.
    { intros m x. unfold tl. rewrite lookup_take_Some, lookup_drop. unfold zlookup.
      rewrite bool_decide_eq_true_2 by lia.
      replace (Z.to_nat (1 + Z.of_nat m)) with (1 + m)%nat by lia.
      split; intros [? ?]; split; try done; try lia. }
    rewrite <- Hlen.
    rewrite (fold_loop (fun maxv v => if sltb maxv (sabs v) then sabs v else maxv)
               _ tl 1 (sabs x0)).
    2:{ intros m x acc Hm. apply Htl in Hm as [_ Hm]. rewrite (rd_Ok _ _ _ Hm). simpl.
        by destruct (sltb acc (sabs x)). }
    destruct (max_fold tl (sabs x0)) as (Hge & Hall & Hin).
    eexists. split; [done|]. split_and!.
    + lia.
    + intros _. destruct Hin as [Hr|(v & Hv & Hr)].
      * exists 0, x0. split; [lia|done].
      * apply list_elem_of_lookup in Hv as [m Hm]. apply Htl in Hm as [Hm1 Hm2].
        exists (1 + Z.of_nat m), v. split; [lia|done].
    + intros i x Hi Hx. destruct (decide (i = 0)) as [->|Hi0].
      * rewrite Hx0 in Hx. by injection Hx as <-.
      * apply Hall. apply list_elem_of_lookup. exists (Z.to_nat (i - 1)).
        apply Htl. split; [lia|]. by replace (1 + Z.of_nat (Z.to_nat (i - 1))) with i by lia.
  - simpl. exists szero. split; [done|]. split_and!; [done|lia|lia].
Qed.

End MaxFacts.

(** ** Loops over a plain array *)

Section ArrayLoopFacts.
Context {A : Type}.
Implicit Types (a target : list A).

Lemma zlookup_nat a (m : nat) : zlookup a (Z.of_nat m) = a !! m.
Proof. unfold zlookup. rewrite bool_decide_eq_true_2 by lia. by rewrite Nat2Z.id. Qed.

Lemma take_drop_step a target (m : nat) y :
  (m < length a)%nat -> target !! m = Some y ->
  <[m := y]> (take m target ++ drop m a) = take (S m) target ++ drop (S m) a.
Proof.
  intros Hma Hy. pose proof (lookup_lt_Some _ _ _ Hy) as Hm.
  destruct (lookup_lt_is_Some_2 a m) as [x Hx]; [lia|].
  rewrite insert_app_r_alt by (rewrite length_take; lia).
  rewrite length_take. replace (m - m `min` length target)%nat with 0%nat by lia.
  rewrite (drop_S _ _ _ Hx). simpl. rewrite (take_S_r _ _ _ Hy).
  by rewrite <- app_assoc.
Qed.

Lemma foldl_snoc {B} (g : A -> B) a : forall l0 : list B,
  foldl (fun ofs v => ofs ++ [g v]) l0 a = l0 ++ (g <$> a).
Proof.
  induction a as [|x a IH]; intros l0; simpl.
  - by rewrite app_nil_r.
  - by rewrite IH, <- app_assoc.
Qed.

(** a loop that writes the cell [m] of [target] into the cell [m], for every
    [m], turns the array into [target] *)
Lemma array_map_loop a target (body : Z -> list A -> result (list A)) :
  length target = length a ->
  (forall (m : nat) a' y,
     target !! m = Some y -> length a' = length a -> a' !! m = a !! m ->
     body (Z.of_nat m) a' = Ok (<[m := y]> a')) ->
  for_loop (length a) 0 body a = Ok target.
Proof.
  intros Hlen Hbody.
  destruct (for_loop_inv (fun m a' => a' = take m target ++ drop m a)
              body (length a) 0 a) as (a' & Hrun & ->).
  - by rewrite take_0, drop_0.
  - intros m a' Hm ->.
    destruct (lookup_lt_is_Some_2 target m) as [y Hy]; [lia|].
    rewrite Z.add_0_l, (Hbody m _ y Hy).
    + eexists. split; [done|]. apply take_drop_step; [lia|done].
    + rewrite length_app, length_take, length_drop. lia.
    + rewrite lookup_app_r by (rewrite length_take; lia).
      rewrite length_take, lookup_drop. f_equal. lia.
  - rewrite Hrun. f_equal. rewrite <- Hlen, take_ge, drop_ge by lia.
    by rewrite app_nil_r.
Qed.

End ArrayLoopFacts.

(** ** The dense vector *)

Section DenseFacts.
Import Dense.
Context {T : Type} `{Scalar T}.
Implicit Types (d that : DenseVector T) (i j : Z) (v : T).

Lemma to_nat_capacity d : shape d -> Z.to_nat (capacity d) = length (data d).
Proof. unfold shape. lia. Qed.

(** [persist] writes the tag 0, the capacity and the cells *)
Lemma dense_persist_writes d f w :
  shape d -> writable w f = true ->
  persist d f w =
    (Ok tt,
     print (Cout ("## DenseVector persisted=" ++ f))
       (write_file f (CInt 0 :: CInt (capacity d) :: (CVal <$> data d))
          (write_file f [] w))).
Proof.
  intros Hsh Hw. unfold persist. rewrite Hw. unfold for_upto.
  rewrite (to_nat_capacity d Hsh).
  rewrite (fold_loop (fun ofs v => ofs ++ [CVal v]) _ (data d) 0).
  2:{ intros m x acc Hm. rewrite Z.add_0_l, (rd_Ok _ _ x) by (by rewrite zlookup_nat).
      done. }
  by rewrite foldl_snoc.
Qed.

End DenseFacts.

Section DenseStreamFacts.
Import Dense.
Context {T : Type} `{Scalar T}.
Implicit Types (d that : DenseVector T) (i j : Z) (v : T).

(** the reading loop of [resurrect]: the cells for which the stream holds a
    value take it, the others keep theirs *)
Lemma dense_read_loop (a vs : list T) :
  (length vs <= length a)%nat ->
  for_loop (length a) 0
    (fun j '(a, ifs) =>
       match read_val ifs with
       | (Some v, ifs) => do a <- wr a j v ; Ok (a, ifs)
       | (None, ifs) => do u <- rd a j ; Ok (a, ifs)
       end) (a, CVal <$> vs)
  = Ok (vs ++ drop (length vs) a, []).
Proof.
  intros Hlen.
  destruct (for_loop_inv
              (fun m (st : list T * list (cell T)) =>
                 st = (take m vs ++ drop (m `min` length vs) a, CVal <$> drop m vs))
              (fun j '(a, ifs) =>
                 match read_val ifs with
                 | (Some v, ifs) => do a <- wr a j v ; Ok (a, ifs)
                 | (None, ifs) => do u <- rd a j ; Ok (a, ifs)
                 end) (length a) 0 (a, CVal <$> vs)) as (st & Hrun & ->).
  - by rewrite take_0, drop_0.
  - intros m st Hm ->. rewrite Z.add_0_l.
    assert (length (take m vs ++ drop (m `min` length vs) a) = length a) as Hl.
    { rewrite length_app, length_take, length_drop. lia. }
    destruct (vs !! m) as [v|] eqn:Hv.
    + pose proof (lookup_lt_Some _ _ _ Hv) as Hmv.
      replace (S m `min` length vs)%nat with (S m) by lia.
      rewrite <- (take_drop_step a vs m v) by (done || lia).
      revert Hl. replace (m `min` length vs)%nat with m by lia. intros Hl.
      rewrite (drop_S _ _ _ Hv). cbn [fmap list_fmap read_val].
      rewrite wr_Ok by lia. cbn [rbind]. rewrite Nat2Z.id.
      eexists. split; reflexivity.
    + apply lookup_ge_None in Hv.
      replace (S m `min` length vs)%nat with (m `min` length vs)%nat by lia.
      rewrite (drop_ge vs m), (drop_ge vs (S m)), (take_ge vs (S m)) by lia.
      cbn [fmap list_fmap read_val].
      destruct (zlookup_lt_Some (take m vs ++ drop (m `min` length vs) a) (Z.of_nat m))
        as [x Hx]; [lia|].
      rewrite (rd_Ok _ _ _ Hx). cbn [rbind].
      eexists. split; [reflexivity|]. by rewrite (take_ge vs m) by lia.
  - rewrite Hrun. replace (length a `min` length vs)%nat with (length vs) by lia.
    by rewrite take_ge, (drop_ge vs) by lia.
Qed.

(** [resurrect] of a stream with the tag 0, the capacity of the receiver and
    some values *)
Lemma dense_resurrect_stream d f w (vs : list T) :
  shape d ->
  files w !! f = Some (CInt 0 :: CInt (capacity d) :: (CVal <$> vs)) ->
  (length vs <= length (data d))%nat ->
  resurrect d f w =
    (Ok (mkDense (capacity d) (vs ++ drop (length vs) (data d))),
     print (Cout ("## DenseVector persist=" ++ f))
       (print (Printf "vectorType=%i rcapacity=%i \n" [0; capacity d]) w)).
Proof.
  intros Hsh Hf Hlen. unfold resurrect. rewrite Hf. simpl.
  unfold iobind at 1 2. unfold lift at 1 2. simpl.
  unfold iobind at 1 2. unfold lift at 1 2. simpl.
  rewrite bool_decide_eq_true_2 by done. simpl.
  unfold iobind at 1. unfold say at 1.
  unfold iobind at 1. unfold lift at 1. unfold for_upto.
  rewrite (to_nat_capacity d Hsh), (dense_read_loop (data d) vs Hlen).
  done.
Qed.

End DenseStreamFacts.
#[export] Instance Z_ScalarLaws : ScalarLaws Z.
Proof.
  split; simpl; intros; lia.
Qed.

(** ** Claims about single entries *)

Section EntryClaims.
Import Sparse.
Context {T : Type} `{Scalar T}.
Implicit Types (s : SparseVector T) (k p i j : Z) (v : T).

(** C1: for a sparse vector and a valid index [k], [getEntry(k)] after
    [setEntry(k, v)] returns [v] when [v] is not zero; when [v] is zero it
    returns 0, [k] is marked absent ([indexesPosition[k] == -1]), no active
    pair has index [k], and the active count did not grow. *)
Theorem setEntry_then_getEntry s k v :
  wf s -> 0 <= k < dimension s ->
  exists s',
    setEntry s k v = Ok s' /\
    (is_zero v = false -> getEntry s' k = Ok v) /\
    (is_zero v = true ->
       getEntry s' k = Ok szero /\
       zlookup (indexesPosition s') k = Some (-1) /\
       (forall v', (k, v') ∉ active_pairs s') /\
       nbActive s' <= nbActive s).
Proof.
  intros Hwf Hk. destruct (is_zero v) eqn:Hv.
  - rewrite (setEntry_zero s k v Hv).
    destruct (removeEntry_spec s k Hwf Hk) as (s' & Hs' & Hwf' & Hd & Habs & _ & Hn).
    exists s'. split; [done|]. split; [done|]. intros _. split_and!; try done.
    + by apply getEntry_absent.
    + intros v' (i & Hi & Hik & _)%elem_of_active_pairs.
      destruct (wf_index_position s' Hwf' i Hi) as (k' & Hk' & Hpos).
      rewrite Hik in Hk'. injection Hk' as <-. rewrite Habs in Hpos.
      injection Hpos as <-. lia.
  - rewrite (setEntry_nonzero s k v Hv).
    destruct (setNonZeroEntry_spec s k v Hwf Hk) as (s' & Hs' & _ & _ & Hget & _).
    exists s'. split; [done|]. split; [done|]. done.
Qed.

(** C5: for a sparse vector that satisfies the index-position invariant and
    an active index [k], after [removeEntry(k)] the invariant
    [indexesPosition[activeIndexes[i]] == i] holds for every [i < nbActive],
    [nbActive] is one less, [k] is marked absent, and the active pairs are
    those of before whose index is not [k]. *)
Theorem removeEntry_swap_remove s k :
  shape s -> index_position_inv s ->
  (exists i, 0 <= i < nbActive s /\ zlookup (activeIndexes s) i = Some k) ->
  exists s',
    removeEntry s k = Ok s' /\
    shape s' /\ index_position_inv s' /\
    nbActive s' = nbActive s - 1 /\
    zlookup (indexesPosition s') k = Some (-1) /\
    forall j v, (j, v) ∈ active_pairs s' <-> (j, v) ∈ active_pairs s /\ j <> k.
Proof.
  intros Hsh Hinv (p & Hp & Hpk).
  destruct (Hinv p Hp) as (k' & Hk' & Hkp). rewrite Hpk in Hk'. injection Hk' as <-.
  destruct (shape_zlookup_vs s p Hsh Hp) as [vk Hvk].
  destruct (removeEntry_at_spec s p k k vk) as
    (s' & iA & vA & Hs' & HiA & HvA & _ & _ & Hn & _ & _ & _ & Hpos & Hact & Hval);
    try done.
  exists s'. unfold removeEntry. rewrite (rd_Ok _ _ _ Hkp). simpl.
  rewrite bool_decide_eq_true_2 by lia. split; [done|]. split_and!.
  - eapply removeEntry_at_shape; eauto.
  - eapply removeEntry_at_index_position; eauto.
  - done.
  - rewrite Hpos. by rewrite decide_True.
  - intros j v. rewrite !elem_of_active_pairs. rewrite Hn. split.
    + intros (i & Hi & Hij & Hiv). rewrite Hact in Hij. rewrite Hval in Hiv.
      rewrite decide_False in Hij by lia. rewrite decide_False in Hiv by lia.
      destruct (decide (i = p)) as [->|Hip].
      * injection Hij as <-. injection Hiv as <-. split.
        -- exists (nbActive s - 1). split; [lia|done].
        -- intros ->. assert (nbActive s - 1 = p); [|lia].
           apply (index_position_inj s _ _ k); auto; lia.
      * split.
        -- exists i. split; [lia|done].
        -- intros ->. apply Hip. apply (index_position_inj s _ _ k); auto; lia.
    + intros [(i & Hi & Hij & Hiv) Hjk].
      assert (i <> p) as Hip by congruence.
      destruct (decide (i = nbActive s - 1)) as [->|Hil].
      * exists p. rewrite Hact, Hval. rewrite decide_False by lia.
        rewrite decide_True by done. rewrite decide_False by lia.
        rewrite decide_True by done. split; [lia|]. split; congruence.
      * exists i. rewrite Hact, Hval. rewrite !decide_False by done.
        split; [lia|done].
Qed.

End EntryClaims.

(** the statement at [example_sparse], index 3 and value 0 *)
Lemma setEntry_then_getEntry_witness :
  Sparse.wf example_sparse /\ 0 <= 3 < Sparse.dimension example_sparse /\
  exists s',
    Sparse.setEntry example_sparse 3 0 = Ok s' /\
    (is_zero 0 = false -> Sparse.getEntry s' 3 = Ok 0) /\
    (is_zero 0 = true ->
       Sparse.getEntry s' 3 = Ok szero /\
       zlookup (Sparse.indexesPosition s') 3 = Some (-1) /\
       (forall v', (3, v') ∉ Sparse.active_pairs s') /\
       Sparse.nbActive s' <= Sparse.nbActive example_sparse).
Proof.
  assert (Sparse.wf example_sparse) as Hwf by (apply wfb_sound; reflexivity).
  assert (0 <= 3 < Sparse.dimension example_sparse) as Hk by (vm_compute; done).
  exact (conj Hwf (conj Hk (setEntry_then_getEntry example_sparse 3 0 Hwf Hk))).
Defined.

(** the statement at [example_sparse] and its active index 1 *)
Lemma removeEntry_swap_remove_witness :
  Sparse.shape example_sparse /\ Sparse.index_position_inv example_sparse /\
  (exists i, 0 <= i < Sparse.nbActive example_sparse /\
             zlookup (Sparse.activeIndexes example_sparse) i = Some 1) /\
  exists s',
    Sparse.removeEntry example_sparse 1 = Ok s' /\
    Sparse.shape s' /\ Sparse.index_position_inv s' /\
    Sparse.nbActive s' = Sparse.nbActive example_sparse - 1 /\
    zlookup (Sparse.indexesPosition s') 1 = Some (-1) /\
    forall j v, (j, v) ∈ Sparse.active_pairs s'
                <-> (j, v) ∈ Sparse.active_pairs example_sparse /\ j <> 1.
Proof.
  assert (Sparse.wf example_sparse) as [Hsh Hinv _] by (apply wfb_sound; reflexivity).
  assert (exists i, 0 <= i < Sparse.nbActive example_sparse /\
                    zlookup (Sparse.activeIndexes example_sparse) i = Some 1) as Hact
    by (exists 0; vm_compute; done).
  exact (conj Hsh (conj Hinv (conj Hact
           (removeEntry_swap_remove example_sparse 1 Hsh Hinv Hact)))).
Defined.

(** ** Claims about persistence *)

Section PersistenceClaims.
Import Sparse.
Context {T : Type} `{Scalar T}.
Implicit Types (s a t : SparseVector T) (d : Dense.DenseVector T).
Implicit Types (k p i j : Z) (v : T) (l : list (Z * T)) (w : world T) (f : string).

(** C2: [persist] of a sparse vector to a file that can be written, then
    [resurrect] of that file into a freshly constructed sparse vector of the
    same declared dimension, gives a vector with the same active (index,
    value) pairs (here: in the same order, hence the same set whatever the
    order). *)
Theorem persist_resurrect_roundtrip a f w (activeIndexesLength : Z) :
  wf a -> writable w f = true -> 0 <= activeIndexesLength ->
  exists t w1 s' w2,
    new (dimension a) activeIndexesLength = Ok t /\
    SparseIO.persist a f w = (Ok tt, w1) /\
    SparseIO.resurrect t f w1 = (Ok s', w2) /\
    wf s' /\ dimension s' = dimension a /\
    active_pairs s' = active_pairs a /\
    (forall kv, kv ∈ active_pairs s' <-> kv ∈ active_pairs a).
Proof.
  intros Hwf Hw Hcap. pose proof Hwf as [Hsh Hinv Hpinv].
  destruct (new_wf (T:=T) (dimension a) activeIndexesLength) as
    (t & Ht & Hwft & Hdt & Hnt & Habs); [|done|].
  { destruct Hsh. unfold dimension. lia. }
  exists t. eexists. rewrite (persist_writes a f w Hsh Hw).
  destruct (insert_all_spec (active_pairs a) t) as
    (s' & Hs' & Hsh' & Hd' & Hn' & Hpairs & _).
  { apply Hwft. }
  { rewrite Hdt. by apply active_pairs_in_range. }
  exists s'. eexists. split; [done|]. split; [reflexivity|].
  rewrite (resurrect_sparse_stream t f _ (active_pairs a)).
  2:{ simpl. rewrite lookup_insert_eq. by rewrite Hdt. }
  unfold iobind, say, lift. rewrite Hs'. split; [reflexivity|].
  assert (active_pairs t = []) as Hnil.
  { unfold active_pairs. rewrite Hnt. done. }
  rewrite Hnil in Hpairs. simpl in Hpairs. split_and!.
  - apply (insert_all_wf (active_pairs a) t s'); try done.
    + rewrite Hdt. by apply active_pairs_in_range.
    + by apply active_pairs_NoDup.
    + intros j Hj. apply Habs.
      apply list_elem_of_fmap in Hj as ([k v] & -> & Hkv). simpl.
      pose proof (active_pairs_in_range a Hsh Hinv) as Hr.
      rewrite Forall_forall in Hr. apply (Hr _ Hkv).
  - congruence.
  - done.
  - intros kv. by rewrite Hpairs.
Qed.

(** C3, as the code has it: sparse [resurrect] asserts that the stored
    declared dimension is the receiver's; on a mismatch the assertion fails,
    before anything is printed or inserted. *)
Theorem sparse_resurrect_dimension_mismatch s f w (rcapacity : Z) rest :
  files w !! f = Some (CInt 1 :: CInt rcapacity :: rest) ->
  rcapacity <> dimension s ->
  SparseIO.resurrect s f w = (AssertFail, w).
Proof.
  intros Hf Hne. unfold SparseIO.resurrect. rewrite Hf. simpl.
  unfold iobind at 1 2. unfold lift at 1 2. simpl.
  destruct (read_int rest) as [rnbActive ifs].
  unfold iobind at 1 2. unfold lift at 1 2. simpl.
  rewrite bool_decide_eq_false_2; [done|]. unfold dimension in Hne. congruence.
Qed.

(** C8: [resurrect] of a file that cannot be opened ends in [exit(-1)], for
    the sparse and for the dense vector; dense [resurrect] fails its
    assertion when the leading tag is not 0, and when the stored capacity is
    not the receiver's. *)
Theorem resurrect_failures s d f w :
  (files w !! f = None ->
     SparseIO.resurrect s f w
       = (Exit (-1), print (Cerr ("ERROR! (resurrect) file=" ++ f)) w) /\
     Dense.resurrect d f w
       = (Exit (-1), print (Cerr ("ERROR! (resurrected) file=" ++ f)) w)) /\
  (forall (vectorType : Z) rest,
     files w !! f = Some (CInt vectorType :: rest) -> vectorType <> 0 ->
     Dense.resurrect d f w = (AssertFail, w)) /\
  (forall (rcapacity : Z) rest,
     files w !! f = Some (CInt 0 :: CInt rcapacity :: rest) ->
     rcapacity <> Dense.capacity d ->
     Dense.resurrect d f w = (AssertFail, w)).
Proof.
  split_and!.
  - intros Hf. unfold SparseIO.resurrect, Dense.resurrect. rewrite Hf. done.
  - intros vectorType rest Hf Hne. unfold Dense.resurrect. rewrite Hf. simpl.
    unfold iobind at 1 2. unfold lift at 1 2. simpl.
    by rewrite bool_decide_eq_false_2.
  - intros rcapacity rest Hf Hne. unfold Dense.resurrect. rewrite Hf. simpl.
    unfold iobind at 1 2. unfold lift at 1 2. simpl.
    unfold iobind at 1 2. unfold lift at 1 2. simpl.
    rewrite bool_decide_eq_false_2; [done|]. congruence.
Qed.

(** C10: sparse [resurrect] does not clear the receiver: the stored pairs are
    inserted after the pairs that the receiver holds, so the result has
    exactly the stored pairs only when the receiver had none; and when a
    stored index is already active in the receiver, the result violates
    [indexesPosition[activeIndexes[i]] == i] at some [i < nbActive]. *)
Theorem resurrect_keeps_receiver_entries s f w l :
  shape s ->
  files w !! f = Some (sparse_stream (dimension s) l) ->
  Forall (fun kv => 0 <= kv.1 < dimension s) l ->
  exists s' w',
    SparseIO.resurrect s f w = (Ok s', w') /\
    active_pairs s' = active_pairs s ++ l /\
    (active_pairs s' = l <-> nbActive s = 0) /\
    (forall k,
       k ∈ l.*1 ->
       (exists p, 0 <= p < nbActive s /\ zlookup (activeIndexes s) p = Some k) ->
       exists i, 0 <= i < nbActive s' /\
                 zlookup (activeIndexes s') i = Some k /\
                 zlookup (indexesPosition s') k <> Some i).
Proof.
  intros Hsh Hf Hl.
  destruct (insert_all_spec l s Hsh Hl) as
    (s' & Hs' & Hsh' & Hd' & Hn' & Hpairs & Hact & Hout & Hin).
  exists s'. eexists. rewrite (resurrect_sparse_stream s f w l Hf).
  unfold iobind, say, lift. rewrite Hs'. split; [reflexivity|].
  split; [done|]. split.
  - rewrite Hpairs. rewrite <- (active_pairs_length s Hsh). split.
    + intros Heq. apply (f_equal length) in Heq. rewrite length_app in Heq. lia.
    + intros H0. destruct (active_pairs s); [done|simpl in H0; lia].
  - intros k Hk (p & Hp & Hpk). exists p. split; [lia|].
    rewrite Hact by lia. split; [done|].
    destruct (Hin k Hk) as (q & Hq & Hqn). rewrite Hq. intros [= ->]. lia.
Qed.

End PersistenceClaims.

(** the statement at [example_sparse], written to the file [v] *)
Lemma persist_resurrect_roundtrip_witness :
  Sparse.wf example_sparse /\ writable example_world "v" = true /\ 0 <= 1 /\
  exists t w1 s' w2,
    Sparse.new (Sparse.dimension example_sparse) 1 = Ok t /\
    SparseIO.persist example_sparse "v" example_world = (Ok tt, w1) /\
    SparseIO.resurrect t "v" w1 = (Ok s', w2) /\
    Sparse.wf s' /\ Sparse.dimension s' = Sparse.dimension example_sparse /\
    Sparse.active_pairs s' = Sparse.active_pairs example_sparse /\
    (forall kv, kv ∈ Sparse.active_pairs s' <-> kv ∈ Sparse.active_pairs example_sparse).
Proof.
  assert (Sparse.wf example_sparse) as Hwf by (apply wfb_sound; reflexivity).
  assert (writable example_world "v" = true) as Hw by reflexivity.
  assert (0 <= 1) as Hc by lia.
  exact (conj Hwf (conj Hw (conj Hc
           (persist_resurrect_roundtrip example_sparse "v" example_world 1 Hwf Hw Hc)))).
Defined.

(** C3, as stated, fails: the receiver has dimension 5, the file stores
    dimension 3, and [resurrect] ends in the failed assertion, with nothing
    printed and nothing inserted. *)
Lemma sparse_resurrect_mismatch_counterexample :
  files (world_with "v" [CInt 1; CInt 3; CInt 0]) !! "v"
    = Some [CInt 1; CInt 3; CInt 0] /\
  3 <> Sparse.dimension example_sparse /\
  SparseIO.resurrect example_sparse "v" (world_with "v" [CInt 1; CInt 3; CInt 0])
    = (AssertFail, world_with "v" [CInt 1; CInt 3; CInt 0]).
Proof. split_and!; [reflexivity|vm_compute; done|reflexivity]. Qed.

(** the statement at [example_empty], of dimension 3, and a file that stores
    dimension 5 *)
Lemma sparse_resurrect_dimension_mismatch_witness :
  files (world_with "w" [CInt 1; CInt 5; CInt 1; CInt 2; CVal 8]) !! "w"
    = Some [CInt 1; CInt 5; CInt 1; CInt 2; CVal 8] /\
  5 <> Sparse.dimension example_empty /\
  SparseIO.resurrect example_empty "w"
      (world_with "w" [CInt 1; CInt 5; CInt 1; CInt 2; CVal 8])
    = (AssertFail, world_with "w" [CInt 1; CInt 5; CInt 1; CInt 2; CVal 8]).
Proof.
  assert (files (world_with "w" [CInt 1; CInt 5; CInt 1; CInt 2; CVal 8]) !! "w"
          = Some [CInt 1; CInt 5; CInt 1; CInt 2; CVal 8]) as Hf by reflexivity.
  assert (5 <> Sparse.dimension example_empty) as Hne by (vm_compute; done).
  exact (conj Hf (conj Hne
           (sparse_resurrect_dimension_mismatch example_empty "w" _ 5
              [CInt 1; CInt 2; CVal 8] Hf Hne))).
Defined.

(** the statement at a file that is missing, a file with the sparse tag and a
    file with another capacity *)
Lemma resurrect_failures_witness :
  (SparseIO.resurrect example_sparse "v" example_world).1 = Exit (-1) /\
  (Dense.resurrect example_dense "v" example_world).1 = Exit (-1) /\
  (Dense.resurrect example_dense "v" (world_with "v" [CInt 1; CInt 3; CInt 0])).1
    = AssertFail /\
  (Dense.resurrect example_dense "v" (world_with "v" [CInt 0; CInt 4])).1
    = AssertFail.
Proof.
  split_and!.
  - destruct (resurrect_failures example_sparse example_dense "v" example_world)
      as (Hopen & _ & _).
    destruct Hopen as [-> _]; reflexivity.
  - destruct (resurrect_failures example_sparse example_dense "v" example_world)
      as (Hopen & _ & _).
    destruct Hopen as [_ ->]; reflexivity.
  - destruct (resurrect_failures example_sparse example_dense "v"
                (world_with "v" [CInt 1; CInt 3; CInt 0])) as (_ & Htag & _).
    rewrite (Htag 1 [CInt 3; CInt 0]); [reflexivity|reflexivity|lia].
  - destruct (resurrect_failures example_sparse example_dense "v"
                (world_with "v" [CInt 0; CInt 4])) as (_ & _ & Hcap).
    rewrite (Hcap 4 []); [reflexivity|reflexivity|vm_compute; done].
Defined.

(** the statement at [example_sparse], where index 1 is active, and a file
    that stores the pair (1, 9) *)
Lemma resurrect_keeps_receiver_entries_witness :
  Sparse.shape example_sparse /\
  files (world_with "v" (sparse_stream 5 [(1, 9)])) !! "v"
    = Some (sparse_stream (Sparse.dimension example_sparse) [(1, 9)]) /\
  Forall (fun kv => 0 <= kv.1 < Sparse.dimension example_sparse) [(1, 9)] /\
  exists s' w',
    SparseIO.resurrect example_sparse "v" (world_with "v" (sparse_stream 5 [(1, 9)]))
      = (Ok s', w') /\
    Sparse.active_pairs s' = Sparse.active_pairs example_sparse ++ [(1, 9)] /\
    (Sparse.active_pairs s' = [(1, 9)] <-> Sparse.nbActive example_sparse = 0) /\
    (forall k,
       k ∈ [(1, 9)].*1 ->
       (exists p, 0 <= p < Sparse.nbActive example_sparse /\
                  zlookup (Sparse.activeIndexes example_sparse) p = Some k) ->
       exists i, 0 <= i < Sparse.nbActive s' /\
                 zlookup (Sparse.activeIndexes s') i = Some k /\
                 zlookup (Sparse.indexesPosition s') k <> Some i).
Proof.
  assert (Sparse.wf example_sparse) as [Hsh _ _] by (apply wfb_sound; reflexivity).
  assert (files (world_with "v" (sparse_stream 5 [(1, 9)])) !! "v"
          = Some (sparse_stream (Sparse.dimension example_sparse) [(1, 9)])) as Hf
    by reflexivity.
  assert (Forall (fun kv => 0 <= kv.1 < Sparse.dimension example_sparse) [(1, 9)])
    as Hl by (repeat constructor; vm_compute; done).
  exact (conj Hsh (conj Hf (conj Hl
           (resurrect_keeps_receiver_entries example_sparse "v" _ [(1, 9)] Hsh Hf Hl)))).
Defined.
(** ** The dot product and the order of its operands *)

Section DotClaim.
Import Sparse.
Context {T : Type} `{Scalar T}.


End DotClaim.



(** ** Element by element multiplication is pointwise *)

Section EbeClaim.
Import Sparse.
Context {T : Type} `{ScalarLaws T}.


End EbeClaim.


(** ** Stored zeros *)

(** C4 fails on the code: [addToSelf] and [ebeAddConstantToSelf] hand their
    result to [setNonZeroEntry] without the test of [setEntry], so a result
    that is zero is stored as an active entry.  The vector [example_sparse]
    stores no zero; [addToSelf(-1, that)] cancels its entry 3 ↦ 40 and
    [ebeAddConstantToSelf(-7)] cancels its entry 4 ↦ 7, and both entries stay
    active with the value 0. *)
Theorem addToSelf_stores_zero :
  Sparse.wf example_sparse /\ Sparse.wf example_that /\
  Sparse.no_stored_zero example_sparse /\
  (exists s',
     Sparse.addToSelf example_sparse (-1) example_that = Ok s' /\
     Sparse.nbActive s' = 3 /\
     (3, 0) ∈ Sparse.active_pairs s' /\
     ~ Sparse.no_stored_zero s') /\
  (exists s',
     Sparse.ebeAddConstantToSelf example_sparse (-7) = Ok s' /\
     Sparse.nbActive s' = 5 /\
     (4, 0) ∈ Sparse.active_pairs s' /\
     ~ Sparse.no_stored_zero s').
Proof.
  split_and!.
  - apply wfb_sound. reflexivity.
  - apply wfb_sound. reflexivity.
  - intros i v Hi Hv. simpl in Hi.
    assert (i = 0 \/ i = 1 \/ i = 2) as Hcases by lia.
    destruct Hcases as [Hc|[Hc|Hc]]; subst i;
      vm_compute in Hv; injection Hv as Hv; subst v; reflexivity.
  - eexists. split; [vm_compute; reflexivity|]. split; [reflexivity|]. split.
    + vm_compute. apply list_elem_of_In. simpl. tauto.
    + intros Hnz. specialize (Hnz 1 0). discriminate Hnz; [simpl; lia|reflexivity].
  - eexists. split; [vm_compute; reflexivity|]. split; [reflexivity|]. split.
    + vm_compute. apply list_elem_of_In. simpl. tauto.
    + intros Hnz. specialize (Hnz 2 0). discriminate Hnz; [simpl; lia|reflexivity].
Qed.

(** ** Copies *)

Section CopyClaims.
Import Heap.
Context {T : Type} `{Scalar T}.
Implicit Types (h : gmap loc (block T)) (l p this that : loc).


End CopyClaims.


(** * Further properties of the sparse vector *)

Section SparseExtras.
Import Sparse.
Context {T : Type} `{Scalar T}.
Implicit Types (s that : SparseVector T) (k p i j : Z) (v : T).

(** X1: [setEntry(k, v)] on a well-formed vector and a valid index returns a
    well-formed vector of the same dimension in which every other index has
    the value it had. *)
Theorem setEntry_keeps_others s k v :
  wf s -> 0 <= k < dimension s ->
  exists s',
    setEntry s k v = Ok s' /\ wf s' /\ dimension s' = dimension s /\
    forall j, j <> k -> getEntry s' j = getEntry s j.
Proof.
  intros Hwf Hk. destruct (is_zero v) eqn:Hv.
  - rewrite (setEntry_zero s k v Hv).
    destruct (removeEntry_spec s k Hwf Hk) as (s' & Hs' & Hwf' & Hd & _ & Hoth & _).
    by exists s'.
  - rewrite (setEntry_nonzero s k v Hv).
    destruct (setNonZeroEntry_spec s k v Hwf Hk) as (s' & Hs' & Hwf' & Hd & _ & Hoth & _).
    by exists s'.
Qed.

(** X2: [setEntry(k, 0)] is idempotent: a second call changes nothing, and on
    an index that is absent already the first call changes nothing. *)
Theorem setEntry_zero_idempotent s k v :
  wf s -> 0 <= k < dimension s -> is_zero v = true ->
  exists s1,
    setEntry s k v = Ok s1 /\ setEntry s1 k v = Ok s1 /\
    (zlookup (indexesPosition s) k = Some (-1) -> s1 = s).
Proof.
  intros Hwf Hk Hv. rewrite (setEntry_zero s k v Hv).
  destruct (removeEntry_spec s k Hwf Hk) as (s1 & Hs1 & Hwf1 & Hd & Habs & _).
  exists s1. split; [done|]. rewrite (setEntry_zero s1 k v Hv). split.
  - unfold removeEntry. by rewrite (rd_Ok _ _ _ Habs).
  - intros Hk0. unfold removeEntry in Hs1. rewrite (rd_Ok _ _ _ Hk0) in Hs1.
    simpl in Hs1. by injection Hs1.
Qed.

(** X3: [setEntry(k, v)] with [v] not zero appends the pair [(k, v)] after the
    active pairs when [k] is absent, whatever the capacity of the active
    arrays; when [k] is active it overwrites the value in place: positions
    and indexes stay, and the pairs of the other indexes stay. *)
Theorem setEntry_nonzero_appends_or_overwrites s k v :
  wf s -> 0 <= k < dimension s -> is_zero v = false ->
  exists s',
    setEntry s k v = Ok s' /\
    (zlookup (indexesPosition s) k = Some (-1) ->
       nbActive s' = nbActive s + 1 /\
       active_pairs s' = active_pairs s ++ [(k, v)]) /\
    (zlookup (indexesPosition s) k <> Some (-1) ->
       nbActive s' = nbActive s /\
       indexesPosition s' = indexesPosition s /\
       activeIndexes s' = activeIndexes s /\
       forall j v', (j, v') ∈ active_pairs s' <->
                    (j = k /\ v' = v) \/ (j <> k /\ (j, v') ∈ active_pairs s)).
Proof.
  intros Hwf Hk Hv. pose proof Hwf as [Hsh Hinv Hpinv].
  rewrite (setEntry_nonzero s k v Hv).
  destruct (setNonZeroEntry_spec s k v Hwf Hk) as (s' & Hs' & Hwf' & _).
  exists s'. split; [done|].
  destruct (setNonZeroEntry_positions s k v s' Hwf Hk Hs') as (_ & _ & Habs & Hact).
  split; [done|]. intros Hk1. split; [by apply Hact|].
  destruct (zlookup_lt_Some (indexesPosition s) k) as [p Hp].
  { destruct Hsh. unfold dimension in Hk. lia. }
  destruct (Hpinv k p Hp) as [->|[Hpr Hpk]]; [done|].
  unfold setNonZeroEntry in Hs'. rewrite (rd_Ok _ _ _ Hp) in Hs'. simpl in Hs'.
  rewrite bool_decide_eq_true_2 in Hs' by lia. unfold updateEntry in Hs'.
  rewrite wr_Ok in Hs' by (destruct Hsh; lia). simpl in Hs'. injection Hs' as <-.
  split; [done|]. split; [done|]. intros j v'.
  rewrite !elem_of_active_pairs. simpl. split.
  - intros (i & Hi & Hij & Hiv). rewrite zlookup_insert in Hiv by (destruct Hsh; lia).
    case_decide as Hip.
    + subst i. left. split; congruence.
    + right. split; [|eauto]. intros ->. apply Hip.
      apply (index_position_inj s _ _ k); auto.
  - intros [[-> ->]|[Hjk (i & Hi & Hij & Hiv)]].
    + exists p. split; [done|]. split; [done|].
      rewrite zlookup_insert by (destruct Hsh; lia). by rewrite decide_True.
    + exists i. split; [done|]. split; [done|].
      rewrite zlookup_insert by (destruct Hsh; lia).
      rewrite decide_False; [done|]. intros ->. congruence.
Qed.

(** X4: [clear] of a well-formed vector leaves no active entry: every index
    reads zero; the dimension and the capacity of the active arrays stay. *)
Theorem clear_empties s :
  wf s ->
  exists s',
    clear s = Ok s' /\ wf s' /\ nbActive s' = 0 /\ active_pairs s' = [] /\
    dimension s' = dimension s /\
    activeIndexesLength s' = activeIndexesLength s /\
    forall k, 0 <= k < dimension s -> getEntry s' k = Ok szero.
Proof.
  intros Hwf.
  destruct (clear_spec s Hwf) as (s' & Hs' & Hwf' & Hn & Hd & Hc & Habs).
  exists s'. split_and!; try done.
  - unfold active_pairs. by rewrite Hn.
  - intros k Hk. apply getEntry_absent. by apply Habs.
Qed.

(** X5: [set(that)] on vectors of the same dimension discards what the
    receiver holds and gives it the active pairs of [that], in the order of
    [that]: every index reads as in [that]. *)
Theorem sparse_set_copies s that :
  wf s -> wf that -> dimension s = dimension that ->
  exists s',
    set s that = Ok s' /\ wf s' /\ dimension s' = dimension s /\
    active_pairs s' = active_pairs that /\
    forall k, 0 <= k < dimension s -> getEntry s' k = getEntry that k.
Proof.
  intros Hwf Hwft Hdim. pose proof Hwft as [Hsht Hinvt Hpinvt].
  unfold set. rewrite bool_decide_eq_true_2 by done. simpl.
  destruct (clear_spec s Hwf) as (s0 & -> & Hwf0 & Hn0 & Hd0 & _). simpl.
  destruct (fill_loop_spec (active_pairs that)
              (fun i s =>
                 do index <- rd (activeIndexes that) i ;
                 do v <- rd (values that) i ;
                 setNonZeroEntry s index v) 0 s0)
    as (s' & Hrun & Hwf' & Hd' & Hpairs); try done.
  - by apply active_pairs_NoDup.
  - unfold dimension in *. rewrite Hd0, Hdim. by apply active_pairs_in_range.
  - intros m k v s1 Hm. apply active_pairs_lookup in Hm as (_ & Hk & Hv); [|done].
    rewrite Z.add_0_l. by rewrite (rd_Ok _ _ _ Hk), (rd_Ok _ _ _ Hv).
  - rewrite active_pairs_length_nat in Hrun by done.
    exists s'. unfold for_upto. split; [done|].
    assert (dimension s' = dimension s) as Hds by (unfold dimension in *; congruence).
    split_and!; try done.
    intros k Hk. apply getEntry_of_pairs; try done; [congruence|by rewrite Hpairs|lia].
Qed.

(** X6: [set(that, offset)], which checks no dimension, discards what the
    receiver holds and gives it the active pairs of [that] with [offset]
    added to the indexes, when the shifted indexes are indexes of the
    receiver. *)
Theorem set_offset_shifts s that (offset : Z) :
  wf s -> wf that ->
  Forall (fun kv => 0 <= kv.1 + offset < dimension s) (active_pairs that) ->
  exists s',
    set_offset s that offset = Ok s' /\ wf s' /\ dimension s' = dimension s /\
    active_pairs s' = (fun kv => (kv.1 + offset, kv.2)) <$> active_pairs that.
Proof.
  intros Hwf Hwft Hr. pose proof Hwft as [Hsht Hinvt Hpinvt].
  unfold set_offset.
  destruct (clear_spec s Hwf) as (s0 & -> & Hwf0 & Hn0 & Hd0 & _). simpl.
  destruct (fill_loop_spec ((fun kv => (kv.1 + offset, kv.2)) <$> active_pairs that)
              (fun i s =>
                 do index <- rd (activeIndexes that) i ;
                 do v <- rd (values that) i ;
                 setNonZeroEntry s (index + offset) v) 0 s0)
    as (s' & Hrun & Hwf' & Hd' & Hpairs); try done.
  - rewrite <- list_fmap_compose.
    apply (NoDup_fmap_2_strong (fun kv : Z * T => kv.1 + offset)).
    + intros [k1 v1] [k2 v2] H1 H2 Heq. simpl in Heq.
      assert (k1 = k2) as -> by lia.
      apply list_elem_of_lookup in H1 as [m1 H1].
      apply list_elem_of_lookup in H2 as [m2 H2].
      assert (m1 = m2) as ->; [|congruence].
      apply (NoDup_lookup (active_pairs that).*1 _ _ k2).
      * by apply active_pairs_NoDup.
      * by rewrite list_lookup_fmap, H1.
      * by rewrite list_lookup_fmap, H2.
    + apply NoDup_fmap_1 with (f := fst). by apply active_pairs_NoDup.
  - apply Forall_fmap. unfold dimension in *. rewrite Hd0.
    eapply Forall_impl; [exact Hr|]. intros [k v]. done.
  - intros m k v s1 Hm. rewrite list_lookup_fmap in Hm.
    destruct (active_pairs that !! m) as [[k0 v0]|] eqn:Hm0; [|done].
    injection Hm as <- <-.
    apply active_pairs_lookup in Hm0 as (_ & Hk & Hv); [|done].
    rewrite Z.add_0_l. by rewrite (rd_Ok _ _ _ Hk), (rd_Ok _ _ _ Hv).
  - rewrite length_fmap, active_pairs_length_nat in Hrun by done.
    exists s'. unfold for_upto. split; [done|].
    split_and!; try done. unfold dimension in *. congruence.
Qed.

(** X7: [set(value)] discards what the receiver holds and stores [value] at
    every index, in the order of the indexes, so that all [dimension]
    entries are active; this is so for the value zero as well, which is then
    stored [dimension] times. *)
Theorem set_all_fills s value :
  wf s ->
  exists s',
    set_all s value = Ok s' /\ wf s' /\ dimension s' = dimension s /\
    nbActive s' = dimension s /\
    active_pairs s' = (fun k => (k, value)) <$> seqZ 0 (dimension s) /\
    (is_zero value = true -> 0 < dimension s -> ~ no_stored_zero s').
Proof.
  intros Hwf. pose proof Hwf as [Hsh _ _]. unfold set_all.
  destruct (clear_spec s Hwf) as (s0 & -> & Hwf0 & Hn0 & Hd0 & _). simpl.
  destruct (fill_loop_spec ((fun k => (k, value)) <$> seqZ 0 (dimension s))
              (fun index s => setNonZeroEntry s index value) 0 s0)
    as (s' & Hrun & Hwf' & Hd' & Hpairs); try done.
  - rewrite <- list_fmap_compose. simpl. rewrite list_fmap_id. apply NoDup_seqZ.
  - apply Forall_fmap, Forall_forall. intros k Hk%elem_of_seqZ. simpl.
    unfold dimension in *. lia.
  - intros m k v s1 Hm. rewrite list_lookup_fmap in Hm.
    destruct (seqZ 0 (dimension s) !! m) as [k0|] eqn:Hm0; [|done].
    injection Hm as <- <-. apply lookup_seqZ in Hm0 as [-> _]. done.
  - rewrite length_fmap, length_seqZ in Hrun.
    assert (dimension s' = dimension s) as Hds by (unfold dimension in *; congruence).
    assert (nbActive s' = dimension s) as Hnb.
    { pose proof (active_pairs_length s' (wf_shape s' Hwf')) as Hlen.
      rewrite Hpairs, length_fmap, length_seqZ in Hlen.
      destruct Hsh. unfold dimension in *. lia. }
    exists s'. unfold for_upto. unfold dimension in Hrun. rewrite Hd0.
    split; [done|]. split_and!; try done.
    intros Hz Hpos Hnz.
    assert ((0, value) ∈ active_pairs s') as Hin.
    { rewrite Hpairs. apply list_elem_of_fmap. exists 0. split; [done|].
      apply elem_of_seqZ. lia. }
    apply elem_of_active_pairs in Hin as (i & Hi & _ & Hiv).
    rewrite (Hnz i value Hi Hiv) in Hz. done.
Qed.

End SparseExtras.

Section SparseArithmetic.
Import Sparse.
Context {T : Type} `{Scalar T} `{!ScalarLaws T}.
Implicit Types (s that : SparseVector T) (k p i j : Z) (v : T).



(** X10: [ebeAddConstantToSelf(value)] adds [value] to every index, and
    leaves every index active: the vector holds [dimension] entries
    afterwards. *)
Theorem ebeAddConstantToSelf_activates_all s value :
  wf s ->
  exists s',
    ebeAddConstantToSelf s value = Ok s' /\ wf s' /\ dimension s' = dimension s /\
    nbActive s' = dimension s /\
    forall k, 0 <= k < dimension s -> getEntry s' k = Ok (sadd value (entry s k)).
Proof.
  intros Hwf. pose proof Hwf as [Hsh Hinv Hpinv]. unfold ebeAddConstantToSelf, for_upto.
  assert (length (seqZ 0 (dimension s)) = Z.to_nat (indexesPositionLength s)) as Hlen.
  { by rewrite length_seqZ. }
  rewrite <- Hlen.
  pose (body := fun index (s : SparseVector T) =>
                  do cur <- getEntry s index ;
                  setNonZeroEntry s index (sadd value cur)).
  destruct (update_loop (seqZ 0 (dimension s)) (fun _ x => sadd value x) body 0 s Hwf)
    as (s' & Hrun & Hwf' & Hd' & Hdone & _).
  { apply NoDup_seqZ. }
  { intros m k s1 Hm Hwf1 Hd1. apply lookup_seqZ in Hm as [-> Hm].
    assert (0 <= 0 + Z.of_nat m < dimension s1) as Hkr by lia.
    unfold body. rewrite (getEntry_wf s1 _ Hwf1 Hkr). simpl.
    destruct (setNonZeroEntry_spec s1 (0 + Z.of_nat m) (sadd value (entry s1 (0 + Z.of_nat m)))
                Hwf1 Hkr) as (s2 & Hs2 & Hwf2 & Hd2 & Hget & Hoth & _).
    exists s2. split_and!; try done. congruence. }
  exists s'. split; [done|]. split_and!; try done.
  - rewrite <- Hd'. apply all_active_count; [done|]. rewrite Hd'.
    destruct (setNonZero_loop_active (seqZ 0 (dimension s)) body 0 s s' Hwf)
      as [Hall _]; try done.
    + intros k Hk%elem_of_seqZ. lia.
    + intros m k s1 Hm Hwf1 Hd1. apply lookup_seqZ in Hm as [-> Hm]. unfold body.
      rewrite (getEntry_wf s1 _ Hwf1) by lia. simpl. by eexists.
    + intros k Hk. apply Hall, elem_of_seqZ. lia.
  - intros k Hk.
    assert (seqZ 0 (dimension s) !! Z.to_nat k = Some k) as Hm.
    { apply lookup_seqZ. split; lia. }
    apply (Hdone _ _ Hm).
Qed.


End SparseArithmetic.

Section SparseNumeric.
Import Sparse.
Context {T : Type} `{Scalar T} `{Numeric T} `{!ScalarLaws T} `{!NumericLaws T}.
Implicit Types (s that other : SparseVector T) (k p i j : Z) (v : T).

(** X12: [substractToSelf(that)] followed by [addToSelf(that)] leaves every
    index that is not active in [that] as it was, and gives every index [k]
    that is active in [that], with the value [v] there, the value
    [(s[k] + -1.0 * v) + 1.0 * v], computed in this order.  No law of
    arithmetic is assumed: where the operations round, this need not be
    [s[k]]. *)
Theorem substract_then_add s that :
  wf s -> wf that -> dimension s = dimension that ->
  exists s1 s2,
    substractToSelf s that = Ok s1 /\ addToSelf_that s1 that = Ok s2 /\
    wf s2 /\ dimension s2 = dimension s /\
    (forall k v, (k, v) ∈ active_pairs that ->
       getEntry s2 k
       = Ok (sadd (sadd (entry s k) (smul smone v)) (smul sone v))) /\
    (forall k, k ∉ (active_pairs that).*1 -> getEntry s2 k = getEntry s k).
Proof.
  intros Hwf Hwft Hdim. unfold substractToSelf, addToSelf_that.
  destruct (addToSelf_each s smone that Hwf Hwft Hdim)
    as (s1 & Hs1 & Hwf1 & Hd1 & Hact1 & Hrest1).
  destruct (addToSelf_each s1 sone that Hwf1 Hwft)
    as (s2 & Hs2 & Hwf2 & Hd2 & Hact2 & Hrest2); [congruence|].
  exists s1, s2. split_and!; try done; [congruence| |].
  - intros k v Hkv. rewrite (Hact2 k v Hkv).
    by rewrite (getEntry_entry s1 k _ (Hact1 k v Hkv)).
  - intros k Hk. by rewrite (Hrest2 k Hk), (Hrest1 k Hk).
Qed.

(** X13: [absToSelf(that)] replaces the value of every index by its absolute
    value and keeps the active indexes. *)
Theorem absToSelf_pointwise that :
  wf that ->
  exists s',
    absToSelf that = Ok s' /\ wf s' /\ dimension s' = dimension that /\
    nbActive s' = nbActive that /\ activeIndexes s' = activeIndexes that /\
    indexesPosition s' = indexesPosition that /\
    forall k, 0 <= k < dimension that -> getEntry s' k = Ok (sabs (entry that k)).
Proof.
  intros Hwf. pose proof Hwf as [Hsh Hinv Hpinv]. unfold absToSelf.
  destruct (values_loop (fun _ v => sabs v)
              (fun position that =>
                 do v <- rd (values that) position ;
                 do vs <- wr (values that) position (sabs v) ;
                 Ok (with_values that vs)) that Hsh) as (vs & Hrun & Hlen & Hact & _).
  { intros i vs v Hi Hlen Hv. simpl. rewrite (rd_Ok _ _ _ Hv). simpl.
    rewrite wr_Ok; [done|]. destruct Hsh. lia. }
  exists (with_values that vs). split; [done|]. split_and!; try done.
  - by apply with_values_wf.
  - intros k Hk.
    rewrite (with_values_getEntry that vs (fun _ v => sabs v) k Hwf Hk Hact).
    destruct (zlookup_lt_Some (indexesPosition that) k) as [p Hp].
    { destruct Hsh. unfold dimension in Hk. lia. }
    rewrite Hp. case_decide as Hp1; [|done]. subst p.
    rewrite (getEntry_entry that k szero) by (by apply getEntry_absent).
    by rewrite sabs_szero.
Qed.

(** X14: [maxNorm] is the largest absolute value over all the indexes: no
    index has a larger one, and an index has it unless the vector has no
    index at all; it is zero when no entry is active. *)
Theorem sparse_maxNorm_largest s :
  wf s ->
  exists r,
    maxNorm s = Ok r /\
    (forall k, 0 <= k < dimension s -> sltb r (sabs (entry s k)) = false) /\
    (nbActive s = 0 -> r = szero) /\
    (0 < dimension s -> exists k, 0 <= k < dimension s /\ r = sabs (entry s k)).
Proof.
  intros Hwf. pose proof Hwf as [Hsh Hinv Hpinv]. pose proof Hsh as [Hip Hai Hvs Hnb].
  destruct (max_abs_of_spec (values s) (nbActive s)) as (r & Hr & Hzero & Hin & Hall);
    [lia|].
  exists r. split; [exact Hr|].
  assert (sltb r szero = false) as Hr0.
  { destruct (decide (nbActive s = 0)) as [Hn|Hn].
    - rewrite (Hzero Hn). apply sltb_irrefl.
    - destruct Hin as (i & x & _ & _ & ->); [lia|]. apply sabs_nonneg. }
  split_and!; try done.
  - intros k Hk.
    destruct (zlookup_lt_Some (indexesPosition s) k) as [p Hp].
    { unfold dimension in Hk. lia. }
    destruct (Hpinv k p Hp) as [->|[Hpr Hpk]].
    + rewrite (getEntry_entry s k szero) by (by apply getEntry_absent).
      by rewrite sabs_szero.
    + destruct (shape_zlookup_vs s p Hsh Hpr) as [v Hv].
      rewrite (getEntry_entry s k v) by (apply (getEntry_active s k p v); [done|lia|done]).
      by apply (Hall p v).
  - intros Hdim. destruct (decide (nbActive s = 0)) as [Hn|Hn].
    + exists 0. split; [lia|]. rewrite (Hzero Hn).
      rewrite (entry_not_active s 0 Hwf); [by rewrite sabs_szero|lia|].
      unfold active_pairs. rewrite Hn. simpl. apply not_elem_of_nil.
    + destruct Hin as (i & x & Hi & Hx & ->); [lia|].
      destruct (Hinv i Hi) as (k & Hk & Hkp). exists k. split.
      * apply zlookup_Some_lt in Hkp. unfold dimension. lia.
      * by rewrite (getEntry_entry s k x)
          by (apply (getEntry_active s k i x); [done|lia|done]).
Qed.

(** X15: [positiveMaxToSelf(result, other)] gives every index that is active
    in [other] the larger of its two values, and leaves every other index of
    [result] as it is, whatever its sign. *)
Theorem positiveMaxToSelf_only_active res other :
  wf res -> wf other -> dimension other <= dimension res ->
  exists res',
    positiveMaxToSelf res other = Ok res' /\ wf res' /\
    dimension res' = dimension res /\
    (forall k v, (k, v) ∈ active_pairs other ->
                 getEntry res' k = Ok (smax (entry res k) v)) /\
    (forall j, j ∉ (active_pairs other).*1 -> getEntry res' j = getEntry res j).
Proof.
  intros Hwf Hwfo Hdim. pose proof Hwfo as [Hsho Hinvo Hpinvo].
  unfold positiveMaxToSelf, nbActiveEntries.
  apply (each_active_loop other res smax); try done.
  intros m k v s1 Hm Hwf1 Hd1.
  apply active_pairs_lookup in Hm as (Hlt & Hk & Hv); [|done].
  assert ((k, v) ∈ active_pairs other) as Hkv.
  { apply elem_of_active_pairs. exists (Z.of_nat m). split; [lia|done]. }
  destruct (entry_active_pair other k v Hwfo Hkv) as [He Hko].
  assert (0 <= k < dimension s1) as Hkr by lia.
  rewrite (rd_Ok _ _ _ Hk). simpl.
  rewrite (getEntry_wf s1 k Hwf1 Hkr). simpl.
  rewrite (getEntry_wf other k Hwfo Hko), He. simpl.
  destruct (setEntry_spec s1 k (smax (entry s1 k) v) Hwf1 Hkr)
    as (s2 & Hs2 & Hwf2 & Hd2 & Hget & Hoth).
  exists s2. split_and!; try done. congruence.
Qed.

End SparseNumeric.

Section SparseDivide.
Import Sparse.
Context {T : Type} `{Scalar T} `{Numeric T}.
Implicit Types (s that : SparseVector T) (k p i j : Z) (v : T).

(** X16: [ebeDivideToSelf(that)], which checks no dimension, divides the
    value of every active index by the value of [that] at the index, the
    value zero where [that] holds nothing.  When every one of these
    divisions has a result, the call returns: the active indexes stay, each
    holds its quotient, and an index that is not active stays zero, whatever
    [that] holds there.  When one of them has none (an integral [T] divided
    by zero), the call is undefined. *)
Theorem ebeDivideToSelf_active_only s that :
  wf s -> wf that -> dimension s <= dimension that ->
  ((forall k v, (k, v) ∈ active_pairs s -> is_Some (sdiv v (entry that k))) ->
   exists s',
     ebeDivideToSelf s that = Ok s' /\ wf s' /\ dimension s' = dimension s /\
     nbActive s' = nbActive s /\ activeIndexes s' = activeIndexes s /\
     indexesPosition s' = indexesPosition s /\
     (forall k v, (k, v) ∈ active_pairs s ->
        exists q, sdiv v (entry that k) = Some q /\ getEntry s' k = Ok q) /\
     (forall k, zlookup (indexesPosition s) k = Some (-1) ->
                getEntry s' k = Ok szero)) /\
  ((exists k v, (k, v) ∈ active_pairs s /\ sdiv v (entry that k) = None) ->
   ebeDivideToSelf s that = Undefined).
Proof.
  intros Hwf Hwft Hdim. pose proof Hwf as [Hsh Hinv Hpinv]. unfold ebeDivideToSelf.
  pose (g := fun i v => match zlookup (activeIndexes s) i with
                        | Some k => sdiv v (entry that k)
                        | None => None
                        end).
  destruct (values_loop_partial g
              (fun position s =>
                 do index <- rd (activeIndexes s) position ;
                 do v <- rd (values s) position ;
                 do o <- getEntry that index ;
                 do q <- match sdiv v o with
                         | Some q => Ok q
                         | None => Undefined
                         end ;
                 do vs <- wr (values s) position q ;
                 Ok (with_values s vs)) s Hsh) as [Hreturns Hfails].
  { intros i vs v Hi Hlen Hv _. simpl.
    destruct (Hinv i Hi) as (k & Hk & Hkp).
    rewrite (rd_Ok _ _ _ Hk), (rd_Ok _ _ _ Hv). simpl.
    rewrite (getEntry_wf that k Hwft).
    2:{ apply zlookup_Some_lt in Hkp. destruct Hsh. unfold dimension in *. lia. }
    simpl. unfold g. rewrite Hk.
    destruct (sdiv v (entry that k)) as [q|]; [|done]. simpl.
    by rewrite wr_Ok by (destruct Hsh; lia). }
  split.
  - intros Hdef. destruct Hreturns as (vs & Hrun & Hlen & Hact & _).
    { intros i v Hi Hv. destruct (Hinv i Hi) as (k & Hk & Hkp).
      unfold g. rewrite Hk. apply (Hdef k v).
      apply elem_of_active_pairs. by exists i. }
    exists (with_values s vs). split; [done|]. split_and!; try done.
    + by apply with_values_wf.
    + intros k v (i & Hi & Hk & Hv)%elem_of_active_pairs.
      destruct (Hinv i Hi) as (k' & Hk' & Hkp). rewrite Hk in Hk'. injection Hk' as <-.
      destruct (Hact i v Hi Hv) as (q & Hq & Hvq). unfold g in Hq. rewrite Hk in Hq.
      exists q. split; [done|]. apply (getEntry_active _ k i); [done|lia|done].
    + intros k Hk. by apply getEntry_absent.
  - intros (k & v & (i & Hi & Hk & Hv)%elem_of_active_pairs & Hnone).
    apply Hfails. exists i, v. split; [done|]. split; [done|].
    unfold g. by rewrite Hk.
Qed.

End SparseDivide.

Section SparseChecks.
Import Sparse.
Context {T : Type} `{Scalar T}.
Implicit Types (s that : SparseVector T) (k p i j : Z) (v : T).

(** X27: [set(that, value)] on vectors of the same dimension discards what
    the receiver holds and stores [value] at every index that is active in
    [that], in the order of [that]. *)
Theorem set_value_marks s that value :
  wf s -> wf that -> dimension s = dimension that ->
  exists s',
    set_value s that value = Ok s' /\ wf s' /\ dimension s' = dimension s /\
    active_pairs s' = (fun kv => (kv.1, value)) <$> active_pairs that.
Proof.
  intros Hwf Hwft Hdim. pose proof Hwft as [Hsht Hinvt Hpinvt].
  unfold set_value. rewrite bool_decide_eq_true_2 by done. simpl.
  destruct (clear_spec s Hwf) as (s0 & -> & Hwf0 & Hn0 & Hd0 & _). simpl.
  destruct (fill_loop_spec ((fun kv => (kv.1, value)) <$> active_pairs that)
              (fun i s =>
                 do index <- rd (activeIndexes that) i ;
                 setNonZeroEntry s index value) 0 s0)
    as (s' & Hrun & Hwf' & Hd' & Hpairs); try done.
  - rewrite <- list_fmap_compose.
    rewrite (list_fmap_ext _ fst (active_pairs that)) by done.
    by apply active_pairs_NoDup.
  - apply Forall_fmap. unfold dimension in *. rewrite Hd0, Hdim.
    by apply active_pairs_in_range.
  - intros m k v s1 Hm. rewrite list_lookup_fmap in Hm.
    destruct (active_pairs that !! m) as [[k0 v0]|] eqn:Hm0; [|done].
    injection Hm as <- <-.
    apply active_pairs_lookup in Hm0 as (_ & Hk & _); [|done].
    rewrite Z.add_0_l. by rewrite (rd_Ok _ _ _ Hk).
  - rewrite length_fmap, active_pairs_length_nat in Hrun by done.
    exists s'. unfold for_upto. split; [done|].
    split_and!; try done. unfold dimension in *. congruence.
Qed.

(** X28: the binary operations that check the dimensions do so before they
    touch the receiver: on vectors of different dimensions [dot],
    [ebeMultiplyToSelf], [set(that)] and [set(that, value)] fail their
    assertion, whatever the vectors hold. *)
Theorem dimension_mismatch_asserts s that (fuel : nat) value :
  dimension s <> dimension that ->
  dot s that = AssertFail /\
  ebeMultiplyToSelf fuel s that = AssertFail /\
  set s that = AssertFail /\
  set_value s that value = AssertFail.
Proof.
  intros Hd. unfold dot, ebeMultiplyToSelf, set, set_value.
  rewrite !bool_decide_eq_false_2 by done. done.
Qed.

End SparseChecks.

Section DenseExtras.
Import Dense.
Context {T : Type} `{Scalar T}.
Implicit Types (d that : DenseVector T) (i j : Z) (v : T).

(** X17: the index of [operator[]] is checked: outside [0, capacity) the
    assertion fails, for a read and for a write; a write inside it is read
    back, and leaves the other cells and the capacity as they are. *)
Theorem dense_access_checked d i v :
  shape d ->
  (~ (0 <= i < capacity d) -> get d i = AssertFail /\ put d i v = AssertFail) /\
  (0 <= i < capacity d ->
   exists d',
     put d i v = Ok d' /\ shape d' /\ capacity d' = capacity d /\
     get d' i = Ok v /\ forall j, j <> i -> get d' j = get d j).
Proof.
  intros Hsh. unfold shape in Hsh. split.
  - intros Hi. unfold get, put. rewrite bool_decide_eq_false_2 by lia. done.
  - intros Hi. unfold put. rewrite bool_decide_eq_true_2 by lia. simpl.
    rewrite wr_Ok by lia. simpl. eexists. split; [reflexivity|].
    unfold shape, get. simpl. rewrite length_insert. split_and!; try done.
    + rewrite bool_decide_eq_true_2 by lia. simpl.
      apply rd_Ok. rewrite zlookup_insert by lia. by rewrite decide_True.
    + intros j Hj. destruct (bool_decide (j >= 0 /\ j < capacity d)); [|done].
      simpl. unfold rd. rewrite zlookup_insert by lia. by rewrite decide_False.
Qed.

(** X18: [persist] followed by [resurrect] into a dense vector of the same
    capacity gives that vector the persisted cells: it becomes equal to the
    persisted vector, whatever it held. *)
Theorem dense_roundtrip d d0 f w :
  shape d -> shape d0 -> capacity d0 = capacity d -> writable w f = true ->
  exists w1 w2,
    persist d f w = (Ok tt, w1) /\ resurrect d0 f w1 = (Ok d, w2).
Proof.
  intros Hsh Hsh0 Hcap Hw. rewrite (dense_persist_writes d f w Hsh Hw).
  eexists. eexists. split; [reflexivity|].
  rewrite (dense_resurrect_stream d0 f _ (data d)); try done.
  - f_equal. rewrite drop_ge, app_nil_r, Hcap; [by destruct d|].
    unfold shape in *. lia.
  - simpl. rewrite lookup_insert_eq. by rewrite Hcap.
  - unfold shape in *. lia.
Qed.


(** X20: the leading tag keeps the two formats apart: a persisted sparse
    vector is refused by the dense [resurrect], and a persisted dense vector
    by the sparse one, each with a failed assertion. *)
Theorem persisted_format_checked (s : Sparse.SparseVector T) d f w :
  Sparse.shape s -> shape d -> writable w f = true ->
  (exists w1, SparseIO.persist s f w = (Ok tt, w1) /\
              resurrect d f w1 = (AssertFail, w1)) /\
  (exists w1, persist d f w = (Ok tt, w1) /\
              SparseIO.resurrect s f w1 = (AssertFail, w1)).
Proof.
  intros Hshs Hsh Hw. split.
  - rewrite (persist_writes s f w Hshs Hw). eexists. split; [reflexivity|].
    unfold resurrect. simpl. rewrite lookup_insert_eq. done.
  - rewrite (dense_persist_writes d f w Hsh Hw). eexists. split; [reflexivity|].
    unfold SparseIO.resurrect. simpl. rewrite lookup_insert_eq. done.
Qed.

(** X21: [clear] gives what the constructor gives for the same capacity:
    [capacity] cells, each zero. *)
Theorem dense_clear_as_new d :
  shape d ->
  clear d = new (capacity d) /\
  clear d = Ok (mkDense (capacity d) (replicate (Z.to_nat (capacity d)) szero)).
Proof.
  intros Hsh. unfold shape in Hsh. unfold clear, new.
  rewrite new_array_Ok by lia. simpl.
  rewrite !fill_Ok by (rewrite ?length_replicate; lia). simpl.
  by rewrite Z.sub_0_r.
Qed.

(** X22: [set(that)] on vectors of the same capacity makes the receiver
    equal to [that]; on vectors of different capacities the assertion
    fails. *)
Theorem dense_set_copies d that :
  shape d -> shape that ->
  (capacity d <> capacity that -> set d that = AssertFail) /\
  (capacity d = capacity that -> set d that = Ok that).
Proof.
  intros Hsh Hsht. unfold set. split; intros Hcap.
  - by rewrite bool_decide_eq_false_2.
  - rewrite bool_decide_eq_true_2 by done. simpl. unfold for_upto.
    rewrite (to_nat_capacity d Hsh).
    rewrite (array_map_loop (data d) (data that)).
    + simpl. rewrite Hcap. by destruct that.
    + unfold shape in *. lia.
    + intros m a' y Hy Hlen _. rewrite (rd_Ok _ _ y) by (by rewrite zlookup_nat).
      simpl. rewrite wr_Ok, Nat2Z.id; [done|]. apply lookup_lt_Some in Hy.
      unfold shape in *. lia.
Qed.

(** X23: [operator+(that)] on vectors of the same capacity adds the cells of
    [that] to the cells of the receiver, one by one; on vectors of
    different capacities the assertion fails. *)
Theorem dense_plus_pointwise d that :
  shape d -> shape that ->
  (capacity d <> capacity that -> plus d that = AssertFail) /\
  (capacity d = capacity that ->
   plus d that = Ok (mkDense (capacity d) (zip_with sadd (data d) (data that)))).
Proof.
  intros Hsh Hsht. unfold plus. split; intros Hcap.
  - by rewrite bool_decide_eq_false_2.
  - rewrite bool_decide_eq_true_2 by done. simpl. unfold for_upto.
    rewrite (to_nat_capacity d Hsh).
    rewrite (array_map_loop (data d) (zip_with sadd (data d) (data that))); [done| |].
    + rewrite length_zip_with. unfold shape in *. lia.
    + intros m a' y Hy Hlen Hm.
      apply lookup_zip_with_Some in Hy as (x & x' & -> & Hx & Hx').
      rewrite (rd_Ok _ _ x) by (by rewrite zlookup_nat, Hm).
      rewrite (rd_Ok _ _ x') by (by rewrite zlookup_nat). simpl.
      rewrite wr_Ok, Nat2Z.id; [done|]. apply lookup_lt_Some in Hx. lia.
Qed.

(** X24: the multiplication by a [double] multiplies every cell by the
    factor, and keeps the capacity. *)
Theorem dense_scale_pointwise d factor :
  shape d ->
  scale d factor = Ok (mkDense (capacity d) ((fun x => smul x factor) <$> data d)).
Proof.
  intros Hsh. unfold scale, for_upto. rewrite (to_nat_capacity d Hsh).
  rewrite (array_map_loop (data d) ((fun x => smul x factor) <$> data d)); [done| |].
  - by rewrite length_fmap.
  - intros m a' y Hy Hlen Hm. rewrite list_lookup_fmap in Hy.
    destruct (data d !! m) as [x|] eqn:Hx; [|done]. injection Hy as <-.
    rewrite (rd_Ok _ _ x) by (by rewrite zlookup_nat, Hm). simpl.
    rewrite wr_Ok, Nat2Z.id; [done|]. apply lookup_lt_Some in Hx. lia.
Qed.

End DenseExtras.

Section DenseDot.
Import Dense.
Context {T : Type} `{Scalar T} `{!ScalarLaws T}.
Implicit Types (d that : DenseVector T).



End DenseDot.

Section DenseNumeric.
Import Dense.
Context {T : Type} `{Scalar T} `{Numeric T} `{!ScalarLaws T} `{!NumericLaws T}.
Implicit Types (d : DenseVector T).

(** X26: [maxNorm] of a dense vector is the largest absolute value of its
    cells: no cell has a larger one, and a cell has it; it is zero for the
    capacity 0. *)
Theorem dense_maxNorm_largest d :
  shape d ->
  exists r,
    maxNorm d = Ok r /\
    (forall i x, zlookup (data d) i = Some x -> sltb r (sabs x) = false) /\
    (capacity d = 0 -> r = szero) /\
    (0 < capacity d -> exists i x, zlookup (data d) i = Some x /\ r = sabs x).
Proof.
  intros Hsh. unfold shape in Hsh.
  destruct (max_abs_of_spec (data d) (capacity d)) as (r & Hr & Hzero & Hin & Hall);
    [lia|].
  exists r. split; [exact Hr|]. split_and!; try done.
  - intros i x Hx. apply (Hall i x); [|done]. apply zlookup_Some_lt in Hx. lia.
  - intros Hpos. destruct (Hin Hpos) as (i & x & _ & Hx & Hrx). eauto.
Qed.

End DenseNumeric.

(** ** Arrays of actions *)

Section ActionFacts.
Context {T : Type}.
Implicit Types (actions : ActionArray.ActionArray T) (a : Action.Action T).

(** [erase] removes the first action with the id, and nothing else *)
Lemma erase_first_match actions a rest index :
  (forall b, b ∈ actions -> Action.id b <> index) -> Action.id a = index ->
  ActionArray.erase (actions ++ a :: rest) index = actions ++ rest.
Proof.
  intros Hno Ha. induction actions as [|b actions IH]; simpl.
  - by rewrite bool_decide_eq_true_2.
  - rewrite bool_decide_eq_false_2 by (apply Hno, elem_of_cons; by left).
    rewrite IH; [done|]. intros b' Hb'. apply Hno, elem_of_cons. by right.
Qed.

Lemma action_array_new (nbActions : Z) :
  ActionArray.new (T:=T) nbActions = Action.new <$> seqZ 0 nbActions.
Proof. unfold ActionArray.new. by rewrite (foldl_snoc Action.new). Qed.

Lemma seqZ_split (k n : Z) :
  0 <= k < n -> seqZ 0 n = seqZ 0 k ++ k :: seqZ (k + 1) (n - k - 1).
Proof.
  intros Hk. replace n with (k + (n - k)) at 1 by lia.
  rewrite seqZ_app by lia. f_equal. by rewrite seqZ_cons by lia.
Qed.

Lemma zlookup_fmap_seqZ {B} (g : Z -> B) (start len i : Z) :
  0 <= i < len -> zlookup (g <$> seqZ start len) i = Some (g (start + i)).
Proof.
  intros Hi. unfold zlookup. rewrite bool_decide_eq_true_2 by lia.
  rewrite list_lookup_fmap, (proj2 (lookup_seqZ start len (Z.to_nat i) (start + i))).
  - done.
  - split; lia.
Qed.

End ActionFacts.

Section ActionExtras.
Context {T : Type}.

(** X29: [ActionArray(nbActions)] holds the actions with the ids 0 to
    [nbActions - 1], the action with the id [i] at the position [i].
    [erase(k)] removes the action with the id [k]; [at] and [push_back] go by
    position, so that after it the position [i] holds the id [i] below [k]
    and the id [i + 1] from [k] on, the last position is outside the array,
    and [push_back(k, value)] gives [value] to the action with the id
    [k + 1]. *)
Theorem erase_shifts_positions (nbActions k : Z) (value : T) :
  0 <= k < nbActions ->
  let actions := ActionArray.new (T:=T) nbActions in
  let erased := ActionArray.erase actions k in
  ActionArray.dimension actions = nbActions /\
  (forall i, 0 <= i < nbActions ->
             ActionArray.at_ actions i = Some (Action.new i)) /\
  ActionArray.dimension erased = nbActions - 1 /\
  (forall i, 0 <= i < k -> ActionArray.at_ erased i = Some (Action.new i)) /\
  (forall i, k <= i < nbActions - 1 ->
             ActionArray.at_ erased i = Some (Action.new (i + 1))) /\
  ActionArray.at_ erased (nbActions - 1) = None /\
  (k < nbActions - 1 ->
   exists actions',
     ActionArray.push_back erased k value = Some actions' /\
     ActionArray.at_ actions' k = Some (Action.mkAction (k + 1) [value])).
Proof.
  intros Hk actions erased.
  assert (erased = (Action.new <$> seqZ 0 k) ++ (Action.new <$> seqZ (k + 1) (nbActions - k - 1)))
    as Herased.
  { unfold erased, actions. rewrite action_array_new, (seqZ_split k nbActions Hk).
    rewrite fmap_app, fmap_cons. apply erase_first_match; [|done].
    intros b (i & -> & Hi%elem_of_seqZ)%list_elem_of_fmap. simpl. lia. }
  assert (forall i, 0 <= i < k -> ActionArray.at_ erased i = Some (Action.new i)) as Hlow.
  { intros i Hi. rewrite Herased. unfold ActionArray.at_, vector_at.
    rewrite zlookup_app_l by (rewrite length_fmap, length_seqZ; lia).
    by rewrite zlookup_fmap_seqZ by lia. }
  assert (forall i, k <= i < nbActions - 1 ->
                    ActionArray.at_ erased i = Some (Action.new (i + 1))) as Hhigh.
  { intros i Hi. rewrite Herased. unfold ActionArray.at_, vector_at, zlookup.
    rewrite bool_decide_eq_true_2 by lia.
    rewrite lookup_app_r by (rewrite length_fmap, length_seqZ; lia).
    rewrite length_fmap, length_seqZ, list_lookup_fmap.
    rewrite (proj2 (lookup_seqZ (k + 1) (nbActions - k - 1) _ (i + 1))); [done|].
    split; lia. }
  assert (length erased = Z.to_nat (nbActions - 1)) as Hlen.
  { rewrite Herased, length_app, !length_fmap, !length_seqZ. lia. }
  split_and!; try done.
  - unfold ActionArray.dimension, actions.
    rewrite action_array_new, length_fmap, length_seqZ. lia.
  - intros i Hi. unfold ActionArray.at_, vector_at, actions.
    by rewrite action_array_new, zlookup_fmap_seqZ by lia.
  - unfold ActionArray.dimension. lia.
  - unfold ActionArray.at_, vector_at. apply zlookup_None. lia.
  - intros Hlast. unfold ActionArray.push_back.
    pose proof (Hhigh k) as Hat. unfold ActionArray.at_ in Hat. rewrite Hat by lia.
    eexists. split; [reflexivity|]. unfold ActionArray.at_, vector_at.
    rewrite (zlookup_insert erased k k) by lia. by rewrite decide_True.
Qed.

End ActionExtras.

(** ** The collection of sparse vectors *)

Section CollectionFacts.
Import Heap.
Context {T : Type} `{Scalar T}.
Implicit Types (h : gmap loc (block T)) (l p q : loc) (s : Sparse.SparseVector T).

Lemma footprint_self h p : p ∈ sparse_footprint h p.
Proof.
  unfold sparse_footprint.
  destruct (h !! p) as [[| |ipl ail nb ip ai vs| | |]|]; apply elem_of_cons; by left.
Qed.

(** a method that keeps the capacity of the active arrays writes the object
    in place *)
Lemma call_sparse_inplace p method h s s' :
  load_sparse h p = Ok s -> method s = Ok s' ->
  Sparse.activeIndexesLength s' = Sparse.activeIndexesLength s ->
  NoDup (sparse_footprint h p) ->
  exists h',
    call_sparse p method h = Ok h' /\ load_sparse h' p = Ok s' /\
    sparse_footprint h' p = sparse_footprint h p /\
    forall l, l ∉ sparse_footprint h p -> h' !! l = h !! l.
Proof.
  intros Hload Hm Hlen Hnd.
  pose proof Hload as (ip & ai & vs & Hp & H1 & H2 & H3)%load_sparse_inv.
  unfold sparse_footprint in *. unfold call_sparse. rewrite Hp in *.
  rewrite Hload. cbn [rbind]. rewrite Hm. cbn [rbind].
  rewrite bool_decide_eq_true_2 by done.
  apply NoDup_cons in Hnd as [Hn1 Hnd]. apply NoDup_cons in Hnd as [Hn2 Hnd].
  apply NoDup_cons in Hnd as [Hn3 _].
  assert (p <> ip /\ p <> ai /\ p <> vs /\ ip <> ai /\ ip <> vs /\ ai <> vs)
    as (? & ? & ? & ? & ? & ?).
  { split_and!; intros ->; set_solver. }
  eexists. split; [reflexivity|]. split_and!.
  - destruct s'. simpl in *.
    apply (load_sparse_intro _ p _ _ _ ip ai vs).
    + by rewrite lookup_insert_eq.
    + rewrite !lookup_insert_ne by done. by rewrite lookup_insert_eq.
    + rewrite lookup_insert_ne, lookup_insert_ne by done. by rewrite lookup_insert_eq.
    + rewrite lookup_insert_ne by done. by rewrite lookup_insert_eq.
  - by rewrite lookup_insert_eq.
  - intros l Hl. rewrite !lookup_insert_ne; [done|..]; intros ->; set_solver.
Qed.


(** the state of the members while [clear] goes through them *)
Lemma clear_loop h0 (c vectors : loc) (ps : list loc) :
  members_apart h0 c vectors ps ->
  forall (qs : list loc) h,
    (forall q, q ∈ qs -> q ∈ ps) ->
    h !! c = h0 !! c -> h !! vectors = h0 !! vectors ->
    (forall l, (forall p, p ∈ ps -> l ∉ sparse_footprint h0 p) -> h !! l = h0 !! l) ->
    (forall p, p ∈ ps ->
       sparse_footprint h p = sparse_footprint h0 p /\
       exists s0 s, load_sparse h0 p = Ok s0 /\ load_sparse h p = Ok s /\
                    Sparse.wf s /\ Sparse.dimension s = Sparse.dimension s0) ->
    exists h',
      foldl (fun r iter => do h <- r ; call_sparse iter Sparse.clear h) (Ok h) qs
        = Ok h' /\
      h' !! c = h0 !! c /\ h' !! vectors = h0 !! vectors /\
      (forall l, (forall p, p ∈ ps -> l ∉ sparse_footprint h0 p) -> h' !! l = h0 !! l) /\
      (forall p, p ∈ ps ->
         exists s0 s, load_sparse h0 p = Ok s0 /\ load_sparse h' p = Ok s /\
                      Sparse.wf s /\ Sparse.dimension s = Sparse.dimension s0 /\
                      ((p ∈ qs \/ exists s1, load_sparse h p = Ok s1 /\
                                             Sparse.nbActive s1 = 0) ->
                       Sparse.nbActive s = 0)).
Proof.
  intros [Hown Hapart]. induction qs as [|q qs IH]; intros h Hqs Hc Hv Hframe Hinv.
  - exists h. simpl. split; [done|]. split_and!; try done.
    intros p Hp. destruct (Hinv p Hp) as (_ & s0 & s & Hl0 & Hl & Hwf & Hd).
    exists s0, s. split_and!; try done.
    intros [Hin|(s1 & Hs1 & Hn)]; [by apply elem_of_nil in Hin|congruence].
  - assert (q ∈ ps) as Hq by (apply Hqs, elem_of_cons; by left).
    destruct (Hinv q Hq) as (Hfq & sq0 & sq & Hlq0 & Hlq & Hwfq & Hdq).
    destruct (clear_spec sq Hwfq) as (sq' & Hclear & Hwfq' & Hnq' & Hipl & Hail & _).
    destruct (Hown q Hq) as (Hndq & Hcq & Hvq).
    destruct (call_sparse_inplace q Sparse.clear h sq sq' Hlq Hclear Hail)
      as (h1 & Hcall & Hlq1 & Hfq1 & Hframe1); [by rewrite Hfq|].
    simpl. rewrite Hcall.
    destruct (IH h1) as (h' & Hrun & Hc' & Hv' & Hframe' & Hinv').
    + intros q' Hq'. apply Hqs, elem_of_cons. by right.
    + rewrite Hframe1; [done|]. by rewrite Hfq.
    + rewrite Hframe1; [done|]. by rewrite Hfq.
    + intros l Hl. rewrite Hframe1; [by apply Hframe|]. rewrite Hfq. by apply Hl.
    + intros p Hp. destruct (decide (p = q)) as [->|Hpq].
      * split; [congruence|]. exists sq0, sq'. split_and!; try done.
        unfold Sparse.dimension in *. congruence.
      * destruct (Hinv p Hp) as (Hfp & s0 & s & Hl0 & Hl & Hwf & Hd).
        assert (forall l, l ∈ sparse_footprint h p -> h1 !! l = h !! l) as Hsame.
        { intros l Hl'. apply Hframe1. rewrite Hfq. apply (Hapart q p); try done.
          by rewrite <- Hfp. }
        split.
        -- rewrite <- Hfp. apply sparse_footprint_agree, Hsame, footprint_self.
        -- exists s0, s. split_and!; try done. by apply (load_sparse_agree h).
    + exists h'. split; [done|]. split_and!; try done.
      intros p Hp. destruct (Hinv' p Hp) as (s0 & s & Hl0 & Hl & Hwf & Hd & Hn).
      exists s0, s. split_and!; try done.
      intros [Hin|(s1 & Hs1 & Hn1)]; apply Hn.
      * apply elem_of_cons in Hin as [->|Hin]; [|by left].
        right. by exists sq'.
      * right. destruct (decide (p = q)) as [->|Hpq]; [by exists sq'|].
        exists s1. split; [|done]. apply (load_sparse_agree h); [done|].
        intros l Hl'. apply Hframe1. rewrite Hfq. apply (Hapart q p); try done.
        destruct (Hinv p Hp) as (Hfp & _). by rewrite <- Hfp.
Qed.

(** X30: [SparseVectors::clear()] clears every member: afterwards the
    collection has the same members, every index of every member reads zero
    through the collection, and what is allocated outside the members is as
    before.  A member that occurs twice is cleared twice. *)
Theorem collection_clear_all h (c vectors : loc) (ps : list loc) :
  h !! c = Some (SparseVectorsObject vectors) ->
  h !! vectors = Some (PointerVector ps) ->
  members_apart h c vectors ps ->
  (forall p, p ∈ ps -> exists s, load_sparse h p = Ok s /\ Sparse.wf s) ->
  exists h',
    collection_clear c h = Ok h' /\
    collection_dimension c h' = collection_dimension c h /\
    (forall l, (forall p, p ∈ ps -> l ∉ sparse_footprint h p) -> h' !! l = h !! l) /\
    forall (i : Z) p s index,
      zlookup ps i = Some p -> load_sparse h p = Ok s ->
      0 <= index < Sparse.dimension s ->
      collection_getEntry c i index h' = Ok szero.
Proof.
  intros Hc Hv Hapart Hload.
  assert (members h c = Ok ps) as Hm by (unfold members; by rewrite Hc, Hv).
  unfold collection_clear. rewrite Hm. cbn [rbind].
  destruct (clear_loop h c vectors ps Hapart ps h) as (h' & Hrun & Hc' & Hv' & Hframe & Hall);
    try done.
  { intros p Hp. split; [done|]. destruct (Hload p Hp) as (s & Hs & Hwf).
    by exists s, s. }
  assert (members h' c = Ok ps) as Hm'.
  { unfold members. by rewrite Hc', Hc, Hv', Hv. }
  exists h'. split; [done|]. split_and!; try done.
  - unfold collection_dimension. by rewrite Hm, Hm'.
  - intros i p s index Hi Hs Hindex.
    pose proof (zlookup_Some_lt _ _ _ Hi) as Hir.
    assert (p ∈ ps) as Hp.
    { unfold zlookup in Hi. rewrite bool_decide_eq_true_2 in Hi by lia.
      by apply list_elem_of_lookup_2 in Hi. }
    destruct (Hall p Hp) as (s0 & s' & Hl0 & Hl' & Hwf' & Hd' & Hn').
    rewrite Hs in Hl0. injection Hl0 as <-.
    unfold collection_getEntry, collection_at. rewrite Hm'. cbn [rbind].
    rewrite bool_decide_eq_true_2 by lia. cbn [rbind assert].
    rewrite (rd_Ok _ _ _ Hi). cbn [rbind]. unfold query_sparse. rewrite Hl'. cbn [rbind].
    apply getEntry_absent.
    destruct (zlookup_lt_Some (Sparse.indexesPosition s') index) as [pos Hpos].
    { destruct Hwf' as [[] _ _]. unfold Sparse.dimension in *. lia. }
    destruct (Sparse.wf_position_index s' Hwf' index pos Hpos) as [->|[Hr _]]; [done|].
    rewrite Hn' in Hr by (by left). lia.
Qed.

End CollectionFacts.

(** ** The statements at example vectors *)

#[export] Instance Z_NumericLaws : NumericLaws Z.
Proof.
  split; simpl; intros.
  - lia.
  - lia.
  - apply Z.ltb_irrefl.
  - apply Z.ltb_ge. apply Z.ltb_lt in H. lia.
  - apply Z.ltb_lt. apply Z.ltb_lt in H, H0. lia.
  - apply Z.ltb_ge. apply Z.ltb_ge in H, H0. lia.
  - apply Z.ltb_ge. lia.
  - destruct (Z.eqb_spec (Z.abs x) 0), (Z.eqb_spec x 0); lia.
Qed.

(** at [example_sparse]: the index 1 is set to 9 *)
Lemma setEntry_keeps_others_witness :
  Sparse.wf example_sparse /\ 0 <= 1 < Sparse.dimension example_sparse /\
  exists s',
    Sparse.setEntry example_sparse 1 9 = Ok s' /\ Sparse.wf s' /\
    Sparse.dimension s' = Sparse.dimension example_sparse /\
    forall j, j <> 1 -> Sparse.getEntry s' j = Sparse.getEntry example_sparse j.
Proof.
  assert (Sparse.wf example_sparse) as Hwf by (apply wfb_sound; reflexivity).
  assert (0 <= 1 < Sparse.dimension example_sparse) as Hk by (vm_compute; done).
  exact (conj Hwf (conj Hk (setEntry_keeps_others example_sparse 1 9 Hwf Hk))).
Defined.

(** at [example_sparse]: the index 3 is set to zero *)
Lemma setEntry_zero_idempotent_witness :
  Sparse.wf example_sparse /\ 0 <= 3 < Sparse.dimension example_sparse /\
  is_zero 0 = true /\
  exists s1,
    Sparse.setEntry example_sparse 3 0 = Ok s1 /\ Sparse.setEntry s1 3 0 = Ok s1 /\
    (zlookup (Sparse.indexesPosition example_sparse) 3 = Some (-1) -> s1 = example_sparse).
Proof.
  assert (Sparse.wf example_sparse) as Hwf by (apply wfb_sound; reflexivity).
  assert (0 <= 3 < Sparse.dimension example_sparse) as Hk by (vm_compute; done).
  assert (is_zero 0 = true) as Hv by reflexivity.
  exact (conj Hwf (conj Hk (conj Hv
           (setEntry_zero_idempotent example_sparse 3 0 Hwf Hk Hv)))).
Defined.

(** at [example_sparse'], whose active arrays are full: the absent index 4
    is set to 9 *)
Lemma setEntry_nonzero_appends_or_overwrites_witness :
  Sparse.wf example_sparse' /\ 0 <= 4 < Sparse.dimension example_sparse' /\
  is_zero 9 = false /\
  exists s',
    Sparse.setEntry example_sparse' 4 9 = Ok s' /\
    Sparse.nbActive s' = Sparse.nbActive example_sparse' + 1 /\
    Sparse.active_pairs s' = Sparse.active_pairs example_sparse' ++ [(4, 9)].
Proof.
  assert (Sparse.wf example_sparse') as Hwf by (apply wfb_sound; reflexivity).
  assert (0 <= 4 < Sparse.dimension example_sparse') as Hk by (vm_compute; done).
  assert (is_zero 9 = false) as Hv by reflexivity.
  split; [done|]. split; [done|]. split; [done|].
  destruct (setEntry_nonzero_appends_or_overwrites example_sparse' 4 9 Hwf Hk Hv)
    as (s' & Hs' & Habs & _).
  exists s'. split; [done|]. apply Habs. reflexivity.
Defined.

(** at [example_sparse] *)
Lemma clear_empties_witness :
  Sparse.wf example_sparse /\
  exists s',
    Sparse.clear example_sparse = Ok s' /\ Sparse.wf s' /\ Sparse.nbActive s' = 0 /\
    Sparse.active_pairs s' = [] /\
    Sparse.dimension s' = Sparse.dimension example_sparse /\
    Sparse.activeIndexesLength s' = Sparse.activeIndexesLength example_sparse /\
    forall k, 0 <= k < Sparse.dimension example_sparse ->
              Sparse.getEntry s' k = Ok szero.
Proof.
  assert (Sparse.wf example_sparse) as Hwf by (apply wfb_sound; reflexivity).
  exact (conj Hwf (clear_empties example_sparse Hwf)).
Defined.

(** at [example_sparse], which takes the content of [example_that] *)
Lemma sparse_set_copies_witness :
  Sparse.wf example_sparse /\ Sparse.wf example_that /\
  Sparse.dimension example_sparse = Sparse.dimension example_that /\
  exists s',
    Sparse.set example_sparse example_that = Ok s' /\ Sparse.wf s' /\
    Sparse.dimension s' = Sparse.dimension example_sparse /\
    Sparse.active_pairs s' = Sparse.active_pairs example_that /\
    forall k, 0 <= k < Sparse.dimension example_sparse ->
              Sparse.getEntry s' k = Sparse.getEntry example_that k.
Proof.
  assert (Sparse.wf example_sparse) as Hwf by (apply wfb_sound; reflexivity).
  assert (Sparse.wf example_that) as Hwft by (apply wfb_sound; reflexivity).
  assert (Sparse.dimension example_sparse = Sparse.dimension example_that) as Hd
    by reflexivity.
  exact (conj Hwf (conj Hwft (conj Hd (sparse_set_copies example_sparse example_that Hwf Hwft Hd)))).
Defined.

(** at [example_empty], of dimension 3, which takes the entry of
    [example_that], of dimension 5, moved from the index 3 to the index 1 *)
Lemma set_offset_shifts_witness :
  Sparse.wf example_empty /\ Sparse.wf example_that /\
  Forall (fun kv => 0 <= kv.1 + -2 < Sparse.dimension example_empty)
         (Sparse.active_pairs example_that) /\
  exists s',
    Sparse.set_offset example_empty example_that (-2) = Ok s' /\ Sparse.wf s' /\
    Sparse.dimension s' = Sparse.dimension example_empty /\
    Sparse.active_pairs s'
      = (fun kv => (kv.1 + -2, kv.2)) <$> Sparse.active_pairs example_that.
Proof.
  assert (Sparse.wf example_empty) as Hwf by (apply wfb_sound; reflexivity).
  assert (Sparse.wf example_that) as Hwft by (apply wfb_sound; reflexivity).
  assert (Forall (fun kv => 0 <= kv.1 + -2 < Sparse.dimension example_empty)
                 (Sparse.active_pairs example_that)) as Hr.
  { repeat constructor; vm_compute; done. }
  exact (conj Hwf (conj Hwft (conj Hr
           (set_offset_shifts example_empty example_that (-2) Hwf Hwft Hr)))).
Defined.

(** at [example_sparse] and the value zero: five zeros are stored *)
Lemma set_all_fills_witness :
  Sparse.wf example_sparse /\
  exists s',
    Sparse.set_all example_sparse 0 = Ok s' /\
    Sparse.nbActive s' = Sparse.dimension example_sparse /\
    ~ Sparse.no_stored_zero s'.
Proof.
  assert (Sparse.wf example_sparse) as Hwf by (apply wfb_sound; reflexivity).
  split; [done|].
  destruct (set_all_fills example_sparse 0 Hwf) as (s' & Hs' & _ & _ & Hn & _ & Hz).
  exists s'. split; [done|]. split; [done|]. apply Hz; [reflexivity|vm_compute; done].
Defined.



(** at [example_sparse'] and the constant -1, which makes the index 1
    zero *)
Lemma ebeAddConstantToSelf_activates_all_witness :
  Sparse.wf example_sparse' /\
  exists s',
    Sparse.ebeAddConstantToSelf example_sparse' (-1) = Ok s' /\ Sparse.wf s' /\
    Sparse.dimension s' = Sparse.dimension example_sparse' /\
    Sparse.nbActive s' = Sparse.dimension example_sparse' /\
    forall k, 0 <= k < Sparse.dimension example_sparse' ->
              Sparse.getEntry s' k = Ok (sadd (-1) (Sparse.entry example_sparse' k)).
Proof.
  assert (Sparse.wf example_sparse') as Hwf by (apply wfb_sound; reflexivity).
  exact (conj Hwf (ebeAddConstantToSelf_activates_all example_sparse' (-1) Hwf)).
Defined.


(** at [double_one] and [double_big]: 1 - 2^54 rounds to -2^54, and the
    index 0 reads 0 afterwards *)
Lemma substract_then_add_witness :
  Sparse.wf double_one /\ Sparse.wf double_big /\
  Sparse.dimension double_one = Sparse.dimension double_big /\
  exists s1 s2,
    Sparse.substractToSelf double_one double_big = Ok s1 /\
    Sparse.addToSelf_that s1 double_big = Ok s2 /\
    Sparse.wf s2 /\ Sparse.dimension s2 = Sparse.dimension double_one /\
    Sparse.getEntry s2 0 = Ok 0%float.
Proof.
  assert (Sparse.wf double_one) as Hwf by (apply wfb_sound; reflexivity).
  assert (Sparse.wf double_big) as Hwft by (apply wfb_sound; reflexivity).
  assert (Sparse.dimension double_one = Sparse.dimension double_big) as Hd
    by reflexivity.
  split; [done|]. split; [done|]. split; [done|].
  destruct (substract_then_add double_one double_big Hwf Hwft Hd)
    as (s1 & s2 & Hs1 & Hs2 & Hwf2 & Hd2 & Hact & _).
  exists s1, s2. split_and!; try done.
  rewrite (Hact 0 0x1p54%float).
  - vm_compute. reflexivity.
  - apply elem_of_active_pairs. exists 0. split_and!; done.
Defined.

(** at [example_sparse] *)
Lemma absToSelf_pointwise_witness :
  Sparse.wf example_sparse /\
  exists s',
    Sparse.absToSelf example_sparse = Ok s' /\
    forall k, 0 <= k < Sparse.dimension example_sparse ->
              Sparse.getEntry s' k = Ok (sabs (Sparse.entry example_sparse k)).
Proof.
  assert (Sparse.wf example_sparse) as Hwf by (apply wfb_sound; reflexivity).
  split; [done|].
  destruct (absToSelf_pointwise example_sparse Hwf)
    as (s' & Hs' & _ & _ & _ & _ & _ & Hv).
  by exists s'.
Defined.

(** at [example_sparse]: the norm is 40 *)
Lemma sparse_maxNorm_largest_witness :
  Sparse.wf example_sparse /\
  exists r,
    Sparse.maxNorm example_sparse = Ok r /\
    forall k, 0 <= k < Sparse.dimension example_sparse ->
              sltb r (sabs (Sparse.entry example_sparse k)) = false.
Proof.
  assert (Sparse.wf example_sparse) as Hwf by (apply wfb_sound; reflexivity).
  split; [done|].
  destruct (sparse_maxNorm_largest example_sparse Hwf) as (r & Hr & Hall & _).
  by exists r.
Defined.

(** at [example_sparse'] and [example_that] *)
Lemma positiveMaxToSelf_only_active_witness :
  Sparse.wf example_sparse' /\ Sparse.wf example_that /\
  Sparse.dimension example_that <= Sparse.dimension example_sparse' /\
  exists res',
    Sparse.positiveMaxToSelf example_sparse' example_that = Ok res' /\
    Sparse.getEntry res' 3 = Ok 40 /\
    Sparse.getEntry res' 1 = Sparse.getEntry example_sparse' 1.
Proof.
  assert (Sparse.wf example_sparse') as Hwf by (apply wfb_sound; reflexivity).
  assert (Sparse.wf example_that) as Hwft by (apply wfb_sound; reflexivity).
  assert (Sparse.dimension example_that <= Sparse.dimension example_sparse') as Hd
    by (vm_compute; done).
  split; [done|]. split; [done|]. split; [done|].
  destruct (positiveMaxToSelf_only_active example_sparse' example_that Hwf Hwft Hd)
    as (res' & Hrun & _ & _ & Hact & Hrest).
  exists res'. split; [done|]. split.
  - apply (Hact 3 40). apply elem_of_active_pairs. exists 0. split_and!; done.
  - apply Hrest. change ((Sparse.active_pairs example_that).*1) with [3].
    intros Hin%list_elem_of_singleton. done.
Defined.

(** at [example_that], whose entry is divided by the entry of
    [example_sparse] at the index 3; the other way round, the entry at the
    index 1 is divided by zero *)
Lemma ebeDivideToSelf_active_only_witness :
  Sparse.wf example_that /\ Sparse.wf example_sparse /\
  Sparse.dimension example_that <= Sparse.dimension example_sparse /\
  (forall k v, (k, v) ∈ Sparse.active_pairs example_that ->
               is_Some (sdiv v (Sparse.entry example_sparse k))) /\
  (exists s',
     Sparse.ebeDivideToSelf example_that example_sparse = Ok s' /\
     Sparse.nbActive s' = Sparse.nbActive example_that /\
     Sparse.getEntry s' 3 = Ok 1) /\
  (exists k v, (k, v) ∈ Sparse.active_pairs example_sparse /\
               sdiv v (Sparse.entry example_that k) = None) /\
  Sparse.ebeDivideToSelf example_sparse example_that = Undefined.
Proof.
  assert (Sparse.wf example_sparse) as Hwf by (apply wfb_sound; reflexivity).
  assert (Sparse.wf example_that) as Hwft by (apply wfb_sound; reflexivity).
  assert (Sparse.dimension example_that <= Sparse.dimension example_sparse) as Hd
    by (vm_compute; done).
  assert (Sparse.dimension example_sparse <= Sparse.dimension example_that) as Hd'
    by (vm_compute; done).
  assert ((3, 40) ∈ Sparse.active_pairs example_that) as Hin.
  { apply elem_of_active_pairs. exists 0. split_and!; done. }
  assert (forall k v, (k, v) ∈ Sparse.active_pairs example_that ->
                      is_Some (sdiv v (Sparse.entry example_sparse k))) as Hdef.
  { change (Sparse.active_pairs example_that) with [(3, 40)].
    intros k v [= -> ->]%list_elem_of_singleton. by eexists. }
  assert (exists k v, (k, v) ∈ Sparse.active_pairs example_sparse /\
                      sdiv v (Sparse.entry example_that k) = None) as Hbad.
  { exists 1, 20. split; [|reflexivity].
    apply elem_of_active_pairs. exists 0. split_and!; done. }
  destruct (ebeDivideToSelf_active_only example_that example_sparse Hwft Hwf Hd)
    as [Hreturns _].
  destruct (ebeDivideToSelf_active_only example_sparse example_that Hwf Hwft Hd')
    as [_ Hfails].
  destruct (Hreturns Hdef) as (s' & Hrun & _ & _ & Hn & _ & _ & Hact & _).
  split; [done|]. split; [done|]. split; [done|]. split; [done|]. split.
  - exists s'. split; [done|]. split; [done|].
    destruct (Hact 3 40 Hin) as (q & Hq & Hget). rewrite Hget.
    vm_compute in Hq. by injection Hq as <-.
  - split; [done|]. by apply Hfails.
Defined.

(** at [example_dense]: the index 3 is outside it, the cell 1 is written *)
Lemma dense_access_checked_witness :
  Dense.shape example_dense /\
  Dense.get example_dense 3 = AssertFail /\
  Dense.put example_dense 3 9 = AssertFail /\
  exists d',
    Dense.put example_dense 1 9 = Ok d' /\ Dense.get d' 1 = Ok 9 /\
    forall j, j <> 1 -> Dense.get d' j = Dense.get example_dense j.
Proof.
  assert (Dense.shape example_dense) as Hsh by reflexivity.
  split; [done|].
  destruct (dense_access_checked example_dense 3 9 Hsh) as [Hout _].
  destruct (dense_access_checked example_dense 1 9 Hsh) as [_ Hin].
  destruct Hout as [Hget Hput]; [vm_compute; intuition discriminate|].
  destruct Hin as (d' & Hd' & _ & _ & Hg & Hoth); [vm_compute; done|].
  split; [done|]. split; [done|]. by exists d'.
Defined.

(** at [example_dense], read into a vector that holds 7, 7 and 7 *)
Lemma dense_roundtrip_witness :
  Dense.shape example_dense /\ Dense.shape (Dense.mkDense 3 [7; 7; 7]) /\
  Dense.capacity (Dense.mkDense 3 [7; 7; 7]) = Dense.capacity example_dense /\
  writable example_world "d" = true /\
  exists w1 w2,
    Dense.persist example_dense "d" example_world = (Ok tt, w1) /\
    Dense.resurrect (Dense.mkDense 3 [7; 7; 7]) "d" w1 = (Ok example_dense, w2).
Proof.
  assert (Dense.shape example_dense) as Hsh by reflexivity.
  assert (Dense.shape (Dense.mkDense 3 [7; 7; 7])) as Hsh0 by reflexivity.
  assert (Dense.capacity (Dense.mkDense 3 [7; 7; 7]) = Dense.capacity example_dense)
    as Hcap by reflexivity.
  assert (writable example_world "d" = true) as Hw by reflexivity.
  exact (conj Hsh (conj Hsh0 (conj Hcap (conj Hw
           (dense_roundtrip example_dense _ "d" example_world
              Hsh Hsh0 Hcap Hw))))).
Defined.


(** at [example_sparse] and [example_dense] *)
Lemma persisted_format_checked_witness :
  Sparse.shape example_sparse /\ Dense.shape example_dense /\
  writable example_world "v" = true /\
  (exists w1, SparseIO.persist example_sparse "v" example_world = (Ok tt, w1) /\
              Dense.resurrect example_dense "v" w1 = (AssertFail, w1)) /\
  (exists w1, Dense.persist example_dense "v" example_world = (Ok tt, w1) /\
              SparseIO.resurrect example_sparse "v" w1 = (AssertFail, w1)).
Proof.
  assert (Sparse.wf example_sparse) as [Hshs _ _] by (apply wfb_sound; reflexivity).
  assert (Dense.shape example_dense) as Hsh by reflexivity.
  assert (writable example_world "v" = true) as Hw by reflexivity.
  exact (conj Hshs (conj Hsh (conj Hw
           (persisted_format_checked example_sparse example_dense "v" example_world
              Hshs Hsh Hw)))).
Defined.

(** at [example_dense] *)
Lemma dense_clear_as_new_witness :
  Dense.shape example_dense /\
  Dense.clear example_dense = Dense.new (Dense.capacity example_dense) /\
  Dense.clear example_dense
  = Ok (Dense.mkDense (Dense.capacity example_dense)
          (replicate (Z.to_nat (Dense.capacity example_dense)) szero)).
Proof.
  assert (Dense.shape example_dense) as Hsh by reflexivity.
  exact (conj Hsh (dense_clear_as_new example_dense Hsh)).
Defined.

(** at [example_dense], which takes the cells 4, 5 and 6 *)
Lemma dense_set_copies_witness :
  Dense.shape example_dense /\ Dense.shape (Dense.mkDense 3 [4; 5; 6]) /\
  Dense.capacity example_dense = Dense.capacity (Dense.mkDense 3 [4; 5; 6]) /\
  Dense.set example_dense (Dense.mkDense 3 [4; 5; 6]) = Ok (Dense.mkDense 3 [4; 5; 6]).
Proof.
  assert (Dense.shape example_dense) as Hsh by reflexivity.
  assert (Dense.shape (Dense.mkDense 3 [4; 5; 6])) as Hsht by reflexivity.
  assert (Dense.capacity example_dense = Dense.capacity (Dense.mkDense 3 [4; 5; 6]))
    as Hcap by reflexivity.
  exact (conj Hsh (conj Hsht (conj Hcap
           (proj2 (dense_set_copies example_dense _ Hsh Hsht) Hcap)))).
Defined.

(** at [example_dense], to which the cells 4, 5 and 6 are added *)
Lemma dense_plus_pointwise_witness :
  Dense.shape example_dense /\ Dense.shape (Dense.mkDense 3 [4; 5; 6]) /\
  Dense.capacity example_dense = Dense.capacity (Dense.mkDense 3 [4; 5; 6]) /\
  Dense.plus example_dense (Dense.mkDense 3 [4; 5; 6])
  = Ok (Dense.mkDense (Dense.capacity example_dense)
          (zip_with sadd (Dense.data example_dense) [4; 5; 6])).
Proof.
  assert (Dense.shape example_dense) as Hsh by reflexivity.
  assert (Dense.shape (Dense.mkDense 3 [4; 5; 6])) as Hsht by reflexivity.
  assert (Dense.capacity example_dense = Dense.capacity (Dense.mkDense 3 [4; 5; 6]))
    as Hcap by reflexivity.
  exact (conj Hsh (conj Hsht (conj Hcap
           (proj2 (dense_plus_pointwise example_dense _ Hsh Hsht) Hcap)))).
Defined.

(** at [example_dense] and the factor 2 *)
Lemma dense_scale_pointwise_witness :
  Dense.shape example_dense /\
  Dense.scale example_dense 2
  = Ok (Dense.mkDense (Dense.capacity example_dense)
          ((fun x => smul x 2) <$> Dense.data example_dense)).
Proof.
  assert (Dense.shape example_dense) as Hsh by reflexivity.
  exact (conj Hsh (dense_scale_pointwise example_dense 2 Hsh)).
Defined.


(** at [example_dense]: the norm is 3 *)
Lemma dense_maxNorm_largest_witness :
  Dense.shape example_dense /\
  exists r,
    Dense.maxNorm example_dense = Ok r /\
    (forall i x, zlookup (Dense.data example_dense) i = Some x ->
                 sltb r (sabs x) = false) /\
    (Dense.capacity example_dense = 0 -> r = szero) /\
    (0 < Dense.capacity example_dense ->
     exists i x, zlookup (Dense.data example_dense) i = Some x /\ r = sabs x).
Proof.
  assert (Dense.shape example_dense) as Hsh by reflexivity.
  exact (conj Hsh (dense_maxNorm_largest example_dense Hsh)).
Defined.

(** at [example_sparse], which takes the value 9 at the index of
    [example_that] *)
Lemma set_value_marks_witness :
  Sparse.wf example_sparse /\ Sparse.wf example_that /\
  Sparse.dimension example_sparse = Sparse.dimension example_that /\
  exists s',
    Sparse.set_value example_sparse example_that 9 = Ok s' /\ Sparse.wf s' /\
    Sparse.dimension s' = Sparse.dimension example_sparse /\
    Sparse.active_pairs s' = (fun kv => (kv.1, 9)) <$> Sparse.active_pairs example_that.
Proof.
  assert (Sparse.wf example_sparse) as Hwf by (apply wfb_sound; reflexivity).
  assert (Sparse.wf example_that) as Hwft by (apply wfb_sound; reflexivity).
  assert (Sparse.dimension example_sparse = Sparse.dimension example_that) as Hd
    by reflexivity.
  exact (conj Hwf (conj Hwft (conj Hd
           (set_value_marks example_sparse example_that 9 Hwf Hwft Hd)))).
Defined.

(** at [example_sparse], of dimension 5, and [example_empty], of
    dimension 3 *)
Lemma dimension_mismatch_asserts_witness :
  Sparse.dimension example_sparse <> Sparse.dimension example_empty /\
  Sparse.dot example_sparse example_empty = AssertFail /\
  Sparse.ebeMultiplyToSelf 3 example_sparse example_empty = AssertFail /\
  Sparse.set example_sparse example_empty = AssertFail /\
  Sparse.set_value example_sparse example_empty 9 = AssertFail.
Proof.
  assert (Sparse.dimension example_sparse <> Sparse.dimension example_empty) as Hd
    by (vm_compute; done).
  exact (conj Hd (dimension_mismatch_asserts example_sparse example_empty 3 9 Hd)).
Defined.

(** for three actions, of which the action with the id 1 is erased *)
Lemma erase_shifts_positions_witness :
  0 <= 1 < 3 /\
  ActionArray.at_ (ActionArray.erase (ActionArray.new (T:=Z) 3) 1) 1
  = Some (Action.new 2) /\
  ActionArray.at_ (ActionArray.erase (ActionArray.new (T:=Z) 3) 1) 2 = None.
Proof.
  assert (0 <= 1 < 3) as Hk by lia.
  split; [done|].
  destruct (erase_shifts_positions (T:=Z) 3 1 0 Hk) as (_ & _ & _ & _ & Hhigh & Hlast & _).
  split; [apply Hhigh; lia|exact Hlast].
Defined.

(** at [example_collection], whose member 4 occurs twice *)
Lemma collection_clear_all_witness :
  example_collection !! 10%positive = Some (Heap.SparseVectorsObject 9%positive) /\
  example_collection !! 9%positive
    = Some (Heap.PointerVector [4%positive; 8%positive; 4%positive]) /\
  members_apart example_collection 10%positive 9%positive
    [4%positive; 8%positive; 4%positive] /\
  exists h',
    Heap.collection_clear 10%positive example_collection = Ok h' /\
    Heap.collection_dimension 10%positive h' = Ok 3 /\
    Heap.collection_getEntry 10%positive 0 3 h' = Ok 0 /\
    Heap.collection_getEntry 10%positive 1 3 h' = Ok 0.
Proof.
  assert (example_collection !! 10%positive = Some (Heap.SparseVectorsObject 9%positive))
    as Hc by reflexivity.
  assert (example_collection !! 9%positive
          = Some (Heap.PointerVector [4%positive; 8%positive; 4%positive]))
    as Hv by reflexivity.
  assert (Sparse.wf example_sparse) as Hwf1 by (apply wfb_sound; reflexivity).
  assert (Sparse.wf example_that) as Hwf2 by (apply wfb_sound; reflexivity).
  assert (Heap.load_sparse example_collection 4%positive = Ok example_sparse)
    as Hl1 by reflexivity.
  assert (Heap.load_sparse example_collection 8%positive = Ok example_that)
    as Hl2 by reflexivity.
  assert (Heap.sparse_footprint example_collection 4%positive
          = [4; 1; 2; 3]%positive) as Hf1 by reflexivity.
  assert (Heap.sparse_footprint example_collection 8%positive
          = [8; 5; 6; 7]%positive) as Hf2 by reflexivity.
  assert (forall p : Heap.loc, p ∈ [4%positive; 8%positive; 4%positive] ->
                               p = 4%positive \/ p = 8%positive) as Hps.
  { intros p Hp. repeat (apply elem_of_cons in Hp as [->|Hp]; [tauto|]).
    by apply elem_of_nil in Hp. }
  assert (members_apart example_collection 10%positive 9%positive
            [4%positive; 8%positive; 4%positive]) as Hapart.
  { split.
    - intros p [->| ->]%Hps; rewrite ?Hf1, ?Hf2.
      + split_and!; [apply NoDup_ListNoDup; repeat constructor; simpl; intuition lia|..];
          intros Hin; repeat (apply elem_of_cons in Hin as [Hin|Hin]; [done|]);
          by apply elem_of_nil in Hin.
      + split_and!; [apply NoDup_ListNoDup; repeat constructor; simpl; intuition lia|..];
          intros Hin; repeat (apply elem_of_cons in Hin as [Hin|Hin]; [done|]);
          by apply elem_of_nil in Hin.
    - intros p q [->| ->]%Hps [->| ->]%Hps Hpq l; try done; rewrite Hf1, Hf2;
        intros Hl Hin;
        repeat (apply elem_of_cons in Hl as [->|Hl];
                [repeat (apply elem_of_cons in Hin as [Hin|Hin]; [done|]);
                 by apply elem_of_nil in Hin|]);
        by apply elem_of_nil in Hl. }
  split; [done|]. split; [done|]. split; [done|].
  destruct (collection_clear_all example_collection 10%positive 9%positive _ Hc Hv Hapart)
    as (h' & Hrun & Hdim & _ & Hzero).
  { intros p [->| ->]%Hps; eauto. }
  exists h'. split; [done|]. split; [by rewrite Hdim|]. split.
  - apply (Hzero 0 4%positive example_sparse 3); [reflexivity|done|vm_compute; done].
  - apply (Hzero 1 8%positive example_that 3); [reflexivity|done|vm_compute; done].
Defined.
